(** * Drive folder monitor: reconciliation and scan workflow

    A shallow embedding of the server of the Google Drive folder monitor
    (the file with [isEicarish], [listFiles], [detectChanges],
    [moveFileById], [simulateScan], [pollFolder] and the socket handlers),
    and the properties of it that the design document states, followed by
    further properties of the same code, of the rows it writes to the
    spreadsheet and of its poll timer.

    Conventions of the embedding.
    - The three module-level variables [fileStore], [scanStore] and
      [scanningJobs], the flag [isAuthorized], the callbacks waiting in the
      event loop and the messages sent through socket.io are the fields of
      one record, [State], threaded through every function.
    - [scanStore] is a JS object used as a dictionary: a [gmap]. [scanningJobs]
      is a JS [Set] that is never iterated: a [gset]. A JS [Map] whose
      iteration order the code relies on is an insertion-ordered association
      list ([Map]).
    - A string is the text it is the UTF-8 encoding of, as in this file:
      ["é"] is a string of two bytes and one character. The code compares,
      stores and sends strings, which the encoding does not affect. It
      looks into a file name in [isEicarish], by the UTF-16 code units of
      a JS string; [codeUnits] gives them. It looks into a media type for
      the [Type] cell of the spreadsheet; media types are ASCII, one byte
      and one code unit a character. A string that is no encoding of a
      text stands for no file name.
    - The Drive service, the clock, [Date] parsing, [localeCompare] and
      [toLowerCase] are not code of the repository. The answers of Drive
      arrive as arguments ([Drive]), the clock reading as [now], and the
      three built-ins are variables of the sections; what a theorem needs
      of one of them is a hypothesis of that theorem.
    - The event loop runs one callback at a time ([step]). A handler that
      awaits Drive is one turn, taken when Drive has answered:
      [moveFileById], [pollFolder] and the ['delete_file'] handler run from
      their first line to their last against the answers of that turn. The
      scan sequence of [simulateScan] is the exception, being what the
      properties about interleavings are about: each of its two timers, and
      the move its last callback waits for, is a turn of its own ([Task]),
      and those turns come in any order.
    - [emit] never throws, so the promise of [simulateScan] never rejects
      and the [.catch] clauses of its callers never run.
    - The spreadsheet is outside the state: [updateSheetFromFiles] is the
      function from the list sent to clients to the rows of the one request
      it makes. The variable [pollTimer] and the interval timers are a
      record of their own ([Poller]), since nothing else reads them. *)

From Stdlib Require Import ZArith String Ascii List Bool OrderedTypeEx.
From stdpp Require Import base option list sorting gmap strings.

Open Scope string_scope.
Open Scope list_scope.
Open Scope nat_scope.

(** ** Strings *)

Definition chars (s : string) : list ascii := list_ascii_of_string s.

(** The truth value of a string: [''] is falsy. *)
Definition truthy (s : string) : bool :=
  match s with EmptyString => false | String _ _ => true end.

(** The truth value of a string that may be missing: [undefined], [null]
    and [''] are falsy. *)
Definition truthy_opt (o : option string) : bool :=
  match o with Some s => truthy s | None => false end.

(** The UTF-16 code units of the text a list of bytes encodes in UTF-8: one
    unit for a character of one, two or three bytes, a surrogate pair for
    one of four. A sequence that breaks off gives U+FFFD. *)
Fixpoint utf16 (bytes : list N) : list N :=
  match bytes with
  | [] => []
  | b0 :: r =>
      if (b0 <? 128)%N then b0 :: utf16 r
      else if (b0 <? 224)%N then
        match r with
        | b1 :: r1 => ((b0 - 192) * 64 + (b1 - 128))%N :: utf16 r1
        | _ => [65533%N]
        end
      else if (b0 <? 240)%N then
        match r with
        | b1 :: b2 :: r2 =>
            ((b0 - 224) * 4096 + (b1 - 128) * 64 + (b2 - 128))%N :: utf16 r2
        | _ => [65533%N]
        end
      else
        match r with
        | b1 :: b2 :: b3 :: r3 =>
            let point := ((b0 - 240) * 262144 + (b1 - 128) * 4096
                          + (b2 - 128) * 64 + (b3 - 128))%N in
            (55296 + (point - 65536) / 1024)%N
            :: (56320 + (point - 65536) mod 1024)%N :: utf16 r3
        | _ => [65533%N]
        end
  end.

(** [s[0]], [s[1]], ... up to [s.length]: the code units of the JS string
    [s]. *)
Definition codeUnits (s : string) : list N := utf16 (map N_of_ascii (chars s)).

(** ** isEicarish *)

(** [['e', 'i', 'c', 'a', 'r']] *)
Definition target : list N := codeUnits "eicar".

(** The [for] loop of [isEicarish], started at position [i] of [s] (the list
    is what is left of [s] from [i] on) with the counter at [idx]; the result
    is the counter when the loop stops. *)
Fixpoint isEicarish_loop (s : list N) (idx : nat) : nat :=
  match s with
  | [] => idx
  | c :: rest =>
      if (idx <? length target)%nat then
        isEicarish_loop rest
          (if bool_decide (Some c = target !! idx) then S idx else idx)
      else idx
  end.

Section Verdict.
(** [String.prototype.toLowerCase], on the code units of a string. *)
Context (toLowerCase : list N → list N).

Definition isEicarish (filename : string) : bool :=
  if negb (truthy filename) then false
  else
    let s := toLowerCase (codeUnits filename) in
    (isEicarish_loop s 0 =? length target)%nat.
End Verdict.

(** ** Data model *)

(** The [source] tag of a record of [fileStore]: ['scan'] or ['quarantine']. *)
Inductive Source := scan | quarantine.

(** The [status] of a record of [scanStore]. *)
Inductive ScanStatus := pending | scanning | clean | infected.

Global Instance Source_eq_dec : EqDecision Source.
Proof. solve_decision. Defined.
Global Instance ScanStatus_eq_dec : EqDecision ScanStatus.
Proof. solve_decision. Defined.

(** A value of [scanStore]: [{ status, lastScannedAt }] ([null] is [None]). *)
Record ScanRecord := {
  status : ScanStatus;
  lastScannedAt : option string
}.

(** A file as the Drive API returns it ([files.list], [files.get]); a field
    the API left out is [None]. *)
Record DriveFile := {
  df_id : string;
  df_name : string;
  df_mimeType : string;
  df_size : option string;
  df_modifiedTime : option string;
  df_webViewLink : string;
  df_webContentLink : option string;
  df_md5Checksum : option string
}.

(** An element of [fileStore]. *)
Record FileRecord := {
  id : string;
  name : string;
  mimeType : string;
  size : string;
  modifiedTime : option string;
  webViewLink : string;
  webContentLink : option string;
  md5Checksum : option string;
  source : Source
}.

Global Instance FileRecord_eq_dec : EqDecision FileRecord.
Proof. solve_decision. Defined.

(** [x || null] on an optional string: the empty string is falsy. *)
Definition or_null (o : option string) : option string :=
  match o with Some s => if truthy s then Some s else None | None => None end.

(** The object literal built in [listFilesInFolder] and in [moveFileById]. *)
Definition tag (sourceTag : Source) (file : DriveFile) : FileRecord := {|
  id := df_id file;
  name := df_name file;
  mimeType := df_mimeType file;
  size := match or_null (df_size file) with Some s => s | None => "0" end;
  modifiedTime := df_modifiedTime file;
  webViewLink := df_webViewLink file;
  webContentLink := or_null (df_webContentLink file);
  md5Checksum := or_null (df_md5Checksum file);
  source := sourceTag
|}.

Definition ids (l : list FileRecord) : list string := map id l.

(** An element of the [files] array sent to clients ([filesForClients]). *)
Record ClientFile := {
  cf_id : string;
  cf_name : string;
  cf_mimeType : string;
  cf_size : string;
  cf_modifiedTime : option string;
  cf_webViewLink : string;
  cf_webContentLink : option string;
  cf_md5Checksum : option string;
  cf_scanStatus : ScanStatus;
  cf_lastScannedAt : option string;
  cf_source : Source
}.

(** A message handed to socket.io ([io.emit] or [socket.emit]). *)
Inductive Emit :=
| file_list (files : list ClientFile) (timestamp : string)
    (added modified deleted : nat)
| scan_complete (fileId : string) (st : ScanStatus) (timestamp message : string)
| file_moved (fileId targetFolderId timestamp : string) (unchanged : option bool)
    (message : option string)
| scan_alert (fileId error : string)
| move_failed (fileId : option string) (error : string)
| delete_failed (fileId error : string)
| file_deleted (fileId timestamp : string).

(** A callback waiting in the event loop on behalf of [simulateScan]. *)
Inductive Task :=
| scanningTimeout (fileId : string)
    (** the outer [setTimeout], due after [scanningMs] *)
| pendingTimeout (fileId : string)
    (** the inner [setTimeout], due after [pendingMs] *)
| awaitingMove (fileId targetFolderId : string) (restore : bool)
    (** the inner callback suspended at [await moveFileById(...)]:
        auto-quarantine ([restore = false]) or auto-restore *).

Global Instance Task_eq_dec : EqDecision Task.
Proof. solve_decision. Defined.

Record State := {
  fileStore : list FileRecord;
  isAuthorized : bool;
  scanStore : gmap string ScanRecord;
  scanningJobs : gset string;
  tasks : list Task;
  emitted : list Emit
}.

Definition set_fileStore (v : list FileRecord) (s : State) : State :=
  {| fileStore := v; isAuthorized := isAuthorized s; scanStore := scanStore s;
     scanningJobs := scanningJobs s; tasks := tasks s; emitted := emitted s |}.
Definition set_isAuthorized (v : bool) (s : State) : State :=
  {| fileStore := fileStore s; isAuthorized := v; scanStore := scanStore s;
     scanningJobs := scanningJobs s; tasks := tasks s; emitted := emitted s |}.
Definition set_scanStore (v : gmap string ScanRecord) (s : State) : State :=
  {| fileStore := fileStore s; isAuthorized := isAuthorized s; scanStore := v;
     scanningJobs := scanningJobs s; tasks := tasks s; emitted := emitted s |}.
Definition set_scanningJobs (v : gset string) (s : State) : State :=
  {| fileStore := fileStore s; isAuthorized := isAuthorized s;
     scanStore := scanStore s; scanningJobs := v; tasks := tasks s;
     emitted := emitted s |}.
Definition set_tasks (v : list Task) (s : State) : State :=
  {| fileStore := fileStore s; isAuthorized := isAuthorized s;
     scanStore := scanStore s; scanningJobs := scanningJobs s; tasks := v;
     emitted := emitted s |}.
Definition set_emitted (v : list Emit) (s : State) : State :=
  {| fileStore := fileStore s; isAuthorized := isAuthorized s;
     scanStore := scanStore s; scanningJobs := scanningJobs s;
     tasks := tasks s; emitted := v |}.

(** [scanStore[fileId] = r], [delete scanStore[fileId]], [io.emit(e)],
    [setTimeout(t)] (or a suspension at an [await]). *)
Definition writeScan (fileId : string) (r : ScanRecord) (s : State) : State :=
  set_scanStore (<[fileId := r]> (scanStore s)) s.
Definition deleteScan (fileId : string) (s : State) : State :=
  set_scanStore (delete fileId (scanStore s)) s.
Definition emit (e : Emit) (s : State) : State :=
  set_emitted (emitted s ++ [e]) s.
Definition schedule (t : Task) (s : State) : State :=
  set_tasks (tasks s ++ [t]) s.

(** The state of a freshly started process: [loadTokens] decides
    [isAuthorized]. *)
Definition initial (authorized : bool) : State := {|
  fileStore := []; isAuthorized := authorized; scanStore := ∅;
  scanningJobs := ∅; tasks := []; emitted := []
|}.

(** ** The JS [Map], in insertion order *)

Module Map.
Section WithValue.
Context {V : Type}.

Definition t := list (string * V).

(** [map.set(k, v)]: a known key keeps its place, a new one goes last. *)
Fixpoint set (k : string) (v : V) (m : t) : t :=
  match m with
  | [] => [(k, v)]
  | (k', v') :: r =>
      if bool_decide (k' = k) then (k', v) :: r else (k', v') :: set k v r
  end.

Fixpoint get (k : string) (m : t) : option V :=
  match m with
  | [] => None
  | (k', v') :: r => if bool_decide (k' = k) then Some v' else get k r
  end.

Definition has (k : string) (m : t) : bool :=
  match get k m with Some _ => true | None => false end.

(** [map.set(k, v)] for each entry in turn. *)
Definition setAll (entries : list (string * V)) (m : t) : t :=
  fold_left (fun m e => set (fst e) (snd e) m) entries m.

(** [new Map(entries)] *)
Definition from (entries : list (string * V)) : t := setAll entries [].

Definition keys (m : t) : list string := map fst m.
Definition values (m : t) : list V := map snd m.
End WithValue.
Arguments t : clear implicits.
End Map.

(** ** Array.prototype.sort *)

(** [arr.sort(compareFn)] is stable; [compareFn(a, b) > 0] puts [a] after
    [b], and a [NaN] result counts as [0]. The embedding is the stable
    insertion sort; every stable sort returns the same array when
    [compareFn] is a consistent ordering. *)
Section Sort.
Context {A : Type} (compareFn : A → A → Z).

Fixpoint sort_insert (x : A) (l : list A) : list A :=
  match l with
  | [] => [x]
  | y :: r => if (0 <? compareFn x y)%Z then y :: sort_insert x r else x :: l
  end.

Fixpoint sort (l : list A) : list A :=
  match l with
  | [] => []
  | x :: r => sort_insert x (sort r)
  end.
End Sort.

(** ** The answers of the Drive service *)

(** What an awaited Drive call settles to: a response, or a thrown error
    with the message the [catch] clause extracts from it. *)
Inductive Answer (A : Type) :=
| resolved (a : A)
| rejected (message : string).
Arguments resolved {A} a.
Arguments rejected {A} message.

(** [meta.data] of [files.get] with [fields: 'id, parents, name']. *)
Record Meta := {
  meta_parents : option (list string);
  meta_name : string
}.

(** The answers Drive gives during one turn of the event loop. *)
Record Drive := {
  files_list : string → Answer (list DriveFile);
  files_get_parents : string → Answer Meta;
  files_update : string → string → option string → Answer (option (list string));
  files_get : string → Answer DriveFile;
  files_delete : string → Answer unit
}.

(** A request [moveFileById] sends to Drive: [files.get] for the parents,
    [files.update], [files.get] for the full metadata. *)
Inductive DriveCall :=
| call_get_parents (fileId : string)
| call_update (fileId addParents : string) (removeParents : option string)
| call_get (fileId : string).

(** What [moveFileById] returns: [{ success: true, unchanged: true, name }],
    [{ success: true, parents }] or [{ success: false, error }]. *)
Inductive MoveResult :=
| move_unchanged (name : string)
| move_done (parents : option (list string))
| move_error (error : string).

(** The [changes] object of [detectChanges]. *)
Record Changes := {
  added : list FileRecord;
  modified : list FileRecord;
  deleted : list FileRecord;
  hasChanges : bool
}.

(** An inbound request or a callback becoming due. *)
Inductive Event :=
| client_connected
| rescan_request (fileId : option string)
| move_request (fileId targetFolderId : option string)
| delete_request (fileId : option string)
| oauth_granted
| poll_tick
| task_due (n : nat).

(** One turn of the event loop: what happens, what Drive answers to the
    requests made during the turn, and what the clock shows. *)
Record Turn := {
  event : Event;
  drive : Drive;
  now : string
}.

(** [x || fallback] on an error message. *)
Definition or_else (x fallback : string) : string :=
  if truthy x then x else fallback.

Definition includes (x : string) (l : list string) : bool :=
  bool_decide (x ∈ l).

(** [existing = fileStore.find(f => f.id === fileId)]. *)
Definition findById (fileId : string) (l : list FileRecord) : option FileRecord :=
  List.find (fun f => bool_decide (id f = fileId)) l.

(** [Object.assign(existing, item)] for the element [findById] returns: the
    first record with that id becomes [item], in place. *)
Fixpoint assignById (fileId : string) (item : FileRecord) (l : list FileRecord)
  : list FileRecord :=
  match l with
  | [] => []
  | f :: r =>
      if bool_decide (id f = fileId) then item :: r
      else f :: assignById fileId item r
  end.

(** [fileStore.filter(f => f.id !== fileId)]. *)
Definition removeById (fileId : string) (l : list FileRecord) : list FileRecord :=
  filter (fun f => id f ≠ fileId) l.

(** [oldFile.modifiedTime !== file.modifiedTime || oldFile.source !== file.source] *)
Definition differs (oldFile file : FileRecord) : Prop :=
  modifiedTime oldFile ≠ modifiedTime file ∨ source oldFile ≠ source file.

Global Instance differs_dec oldFile file : Decision (differs oldFile file).
Proof. unfold differs. apply _. Defined.

(** ** The loops of [detectChanges], by what they select *)

(** The entries the first loop reports as added and as modified, and the
    entries the second loop reports as deleted. *)
Definition isNew (oldFileMap : Map.t FileRecord) (e : string * FileRecord) : bool :=
  negb (Map.has (fst e) oldFileMap).

Definition isModified (oldFileMap : Map.t FileRecord) (e : string * FileRecord)
  : bool :=
  match Map.get (fst e) oldFileMap with
  | Some oldFile => bool_decide (differs oldFile (snd e))
  | None => false
  end.

Definition isGone (newFileMap : Map.t FileRecord) (e : string * FileRecord)
  : bool :=
  negb (Map.has (fst e) newFileMap).

(** [delete scanStore[id]] for each of the ids, in turn. *)
Definition deleteScans (l : list string) (s : State) : State :=
  fold_left (fun s i => deleteScan i s) l s.

(** ** The verdict rule in the words of the design document *)

(** The upper-case form of a lower-case letter of the Latin alphabet. *)
Definition upperOf (t : N) : N := (t - 32)%N.

(** [c] is the letter [t], in either case. *)
Definition matchesLetter (t c : N) : Prop := c = t ∨ c = upperOf t.

(** The letters occur in [s] in that order, not necessarily next to each
    other, whatever their case. *)
Definition occursIgnoringCase (letters : list N) (s : string) : Prop :=
  ∃ sub, sub `sublist_of` codeUnits s ∧ Forall2 matchesLetter letters sub.

(** ** The verdict rule as the code has it *)

(** U+0130, the capital I with a dot above: its lower-case form is [i]
    followed by U+0307, the combining dot above. *)
Definition dottedCapitalI : N := 304%N.

(** The letter of [target] that comes out of [toLowerCase] for the code unit
    [c], if any: the letter itself for the five letters and their capitals,
    and [i] for U+0130. *)
Definition lowersTo (c : N) : option N :=
  if bool_decide (c ∈ target) then Some c
  else if bool_decide ((c + 32)%N ∈ target) then Some (c + 32)%N
  else if bool_decide (c = dottedCapitalI) then Some 105%N
  else None.

(** [c] gives the letter [t] when the name is lower-cased. *)
Definition countsAs (t c : N) : Prop := lowersTo c = Some t.

(** The letters occur in [s] in that order, not necessarily next to each
    other, as what the code units of [s] give when lower-cased. *)
Definition occursLowered (letters : list N) (s : string) : Prop :=
  ∃ sub, sub `sublist_of` codeUnits s ∧ Forall2 countsAs letters sub.

(** The code unit is one of the five letters. *)
Definition isLetter (c : N) : bool := bool_decide (c ∈ target).

(** What [toLowerCase] does to the five letters: those in the lower-cased
    string are, in order, the ones the code units of the string give
    ([lowersTo]). No other code unit has one of them in its lower-case
    form, alone or as half of a surrogate pair, whatever stands around
    it. *)
Definition lowersLetters (toLowerCase : list N → list N) : Prop :=
  ∀ s, List.filter isLetter (toLowerCase s) = omap lowersTo s.

(** ** The order of a snapshot *)

Section SnapshotOrder.
Context (Date_parse : string → option Z) (localeCompare : string → string → Z).

(** The instant a record was modified, when it has one. *)
Definition timeOf (f : FileRecord) : option Z := modifiedTime f ≫= Date_parse.

(** The record carries a [modifiedTime] that is a valid date. *)
Definition dated (f : FileRecord) : Prop :=
  truthy_opt (modifiedTime f) = true ∧ is_Some (timeOf f).

Definition instant (f : FileRecord) : Z := default 0%Z (timeOf f).

(** [a] may come right before [b]: [b] is not newer. *)
Definition notNewer (a b : FileRecord) : Prop := (instant b ≤ instant a)%Z.

(** [a] may come right before [b] in the order the design document
    describes: [b] is older, or as old with a name that is not greater. *)
Definition olderOrNameDescending (a b : FileRecord) : Prop :=
  (instant b < instant a)%Z
  ∨ (instant b = instant a ∧ (localeCompare (name b) (name a) ≤ 0)%Z).
End SnapshotOrder.

(** The ids of a list in the order in which it first names them. *)
Fixpoint firstOccurrences (l : list string) : list string :=
  match l with
  | [] => []
  | i :: r => i :: filter (fun j => j ≠ i) (firstOccurrences r)
  end.

(** The merged map in the words of the design document: the ids in the
    order in which the scan listing and then the quarantine listing first
    name them, each with the record the quarantine listing has for it or,
    when it has none, the record of the scan listing (the last one, should
    a listing name an id twice). *)
Definition mergedInListingOrder (scanFiles quarantineFiles : list FileRecord)
  : list FileRecord :=
  omap (fun i =>
          match findById i (reverse quarantineFiles) with
          | Some f => Some f
          | None => findById i (reverse scanFiles)
          end)
    (firstOccurrences (ids scanFiles ++ ids quarantineFiles)).

(** The record has no [modifiedTime]. *)
Definition undated (f : FileRecord) : Prop :=
  truthy_opt (modifiedTime f) = false.

Section NameOrder.
Context (localeCompare : string → string → Z).

(** [a] may come right before [b]: the name of [b] is not greater. *)
Definition nameNotGreater (a b : FileRecord) : Prop :=
  (localeCompare (name b) (name a) ≤ 0)%Z.

(** [localeCompare] orders the names: of two names not both are greater
    than the other, and not greater is transitive. *)
Definition ordersNames : Prop :=
  (∀ x y, (0 < localeCompare x y → localeCompare y x ≤ 0)%Z)
  ∧ (∀ x y z, (localeCompare x y ≤ 0 → localeCompare y z ≤ 0 →
               localeCompare x z ≤ 0)%Z).
End NameOrder.

(** ** Instances of the built-ins, for examples *)

(** [toLowerCase] for texts of the characters up to U+00FF and of U+0130:
    the capitals of Basic Latin and of Latin-1 become their small letters,
    U+0130 becomes [i] and U+0307, and any other code unit stays as it is.
    That is what the built-in does to these characters; the capitals of
    other scripts, which it changes, are outside this instance. *)
Definition lowerUnit (c : N) : list N :=
  if ((65 <=? c) && (c <=? 90))%N then [(c + 32)%N]
  else if ((192 <=? c) && (c <=? 222) && negb (c =? 215))%N then [(c + 32)%N]
  else if (c =? dottedCapitalI)%N then [105%N; 775%N]
  else [c].

Definition toLowerCase_latin (s : list N) : list N := concat (map lowerUnit s).

(** [new Date(s).getTime()] for the one format Drive sends,
    [YYYY-MM-DDTHH:MM:SS.mmmZ]; any other text is taken as an invalid date. *)
Definition digit (c : ascii) : option Z :=
  let n := nat_of_ascii c in
  if (48 <=? n)%nat && (n <=? 57)%nat then Some (Z.of_nat (n - 48)) else None.

Definition number (l : list ascii) : option Z :=
  fold_left (fun acc c => n ← acc; d ← digit c; Some (10 * n + d)%Z) l (Some 0%Z).

(** Days from 1970-01-01 to the given day of the proleptic Gregorian
    calendar. *)
Definition daysFromCivil (y m d : Z) : Z :=
  let y' := (if m <=? 2 then y - 1 else y)%Z in
  let era := (y' / 400)%Z in
  let yoe := (y' - era * 400)%Z in
  let doy := ((153 * (if m <=? 2 then m + 9 else m - 3) + 2) / 5 + d - 1)%Z in
  let doe := (yoe * 365 + yoe / 4 - yoe / 100 + doy)%Z in
  (era * 146097 + doe - 719468)%Z.

Definition field (from len : nat) (cs : list ascii) : option Z :=
  number (take len (drop from cs)).

Definition Date_parse_utc (s : string) : option Z :=
  let cs := chars s in
  if (length cs =? 24)%nat
     && bool_decide (cs !! 4%nat = Some "-"%char)
     && bool_decide (cs !! 7%nat = Some "-"%char)
     && bool_decide (cs !! 10%nat = Some "T"%char)
     && bool_decide (cs !! 13%nat = Some ":"%char)
     && bool_decide (cs !! 16%nat = Some ":"%char)
     && bool_decide (cs !! 19%nat = Some "."%char)
     && bool_decide (cs !! 23%nat = Some "Z"%char)
  then
    y ← field 0 4 cs; m ← field 5 2 cs; d ← field 8 2 cs;
    hh ← field 11 2 cs; mm ← field 14 2 cs; ss ← field 17 2 cs;
    ms ← field 20 3 cs;
    if ((1 <=? m) && (m <=? 12) && (1 <=? d) && (d <=? 31)
        && (hh <? 24) && (mm <? 60) && (ss <? 60))%Z
    then Some ((((daysFromCivil y m d * 24 + hh) * 60 + mm) * 60 + ss) * 1000
               + ms)%Z
    else None
  else None.

(** [a.localeCompare(b)] by character codes; it agrees with the locale
    orders on the lower-case ASCII names of the examples. *)
Definition compareByCode (a b : string) : Z :=
  match String.compare a b with Lt => (-1)%Z | Eq => 0%Z | Gt => 1%Z end.

(** ** Scan sequences, seen from one file id *)

(** The file a waiting callback belongs to. *)
Definition taskFile (t : Task) : string :=
  match t with
  | scanningTimeout fileId => fileId
  | pendingTimeout fileId => fileId
  | awaitingMove fileId _ _ => fileId
  end.

Definition ofFile (fileId : string) (t : Task) : bool :=
  bool_decide (taskFile t = fileId).

(** The callback has yet to give its verdict. *)
Definition beforeVerdict (fileId : string) (t : Task) : bool :=
  match t with
  | scanningTimeout i => bool_decide (i = fileId)
  | pendingTimeout i => bool_decide (i = fileId)
  | awaitingMove _ _ _ => false
  end.

(** The message announces a terminal status of the file. *)
Definition isVerdictOf (fileId : string) (e : Emit) : bool :=
  match e with
  | scan_complete i clean _ _ => bool_decide (i = fileId)
  | scan_complete i infected _ _ => bool_decide (i = fileId)
  | _ => false
  end.

Definition count {A : Type} (p : A → bool) (l : list A) : nat :=
  length (List.filter p l).

(** The scan sequences of the file that are under way, those of them still
    before their verdict, and the verdicts announced so far. *)
Definition inFlight (fileId : string) (s : State) : nat :=
  count (ofFile fileId) (tasks s).
Definition awaitingVerdict (fileId : string) (s : State) : nat :=
  count (beforeVerdict fileId) (tasks s).
Definition verdicts (fileId : string) (s : State) : nat :=
  count (isVerdictOf fileId) (emitted s).

(** What the proofs keep of a state. *)
Record Abs := {
  locked : bool;
  flying : nat;
  waiting : nat;
  judged : nat
}.

Definition abstract (fileId : string) (s : State) : Abs := {|
  locked := bool_decide (fileId ∈ scanningJobs s);
  flying := inFlight fileId s;
  waiting := awaitingVerdict fileId s;
  judged := verdicts fileId s
|}.

(** What one turn of the event loop can do to it, a delete request for the
    file apart: nothing; start a sequence, the job being free; give the
    verdict and wait for the move; give the verdict and finish; finish after
    the move. *)
Inductive AStep : Abs → Abs → Prop :=
| a_quiet a : AStep a a
| a_start F W V :
    AStep {| locked := false; flying := F; waiting := W; judged := V |}
          {| locked := true; flying := S F; waiting := S W; judged := V |}
| a_verdict_move L F W V :
    AStep {| locked := L; flying := F; waiting := S W; judged := V |}
          {| locked := L; flying := F; waiting := W; judged := S V |}
| a_verdict_done L F W V :
    AStep {| locked := L; flying := S F; waiting := S W; judged := V |}
          {| locked := false; flying := F; waiting := W; judged := S V |}
| a_settled L F W V :
    AStep {| locked := L; flying := S F; waiting := W; judged := V |}
          {| locked := false; flying := F; waiting := W; judged := V |}.

(** The invariant: at most one sequence under way, and the job held while
    there is one. *)
Definition exclusive (a : Abs) : Prop :=
  flying a ≤ 1 ∧ (0 < flying a → locked a = true).

(** Nothing happened to the file's sequences, or one was started. *)
Definition sameOrStarted (a a' : Abs) : Prop :=
  a' = a
  ∨ (locked a = false ∧ locked a' = true ∧ flying a' = S (flying a)
     ∧ waiting a' = S (waiting a) ∧ judged a' = judged a).

(** The turn serves a delete request for the file, and Drive deletes it. *)
Definition deletesFile (fileId : string) (t : Turn) : Prop :=
  event t = delete_request (Some fileId)
  ∧ ∃ u, files_delete (drive t) fileId = resolved u.

(** ** Sample data for the examples *)

Definition sampleFile (i n t : string) : DriveFile := {|
  df_id := i; df_name := n; df_mimeType := "text/plain"; df_size := Some "12";
  df_modifiedTime := Some t; df_webViewLink := "https://drive.example/view";
  df_webContentLink := None; df_md5Checksum := None
|}.

Definition jan1 : string := "2024-01-01T00:00:00.000Z".
Definition jan2 : string := "2024-01-02T00:00:00.000Z".
Definition noon : string := "2024-01-03T12:00:00.000Z".

(** A Drive that answers every request with an error. *)
Definition driveDown : Drive := {|
  files_list := fun _ => rejected "backend error";
  files_get_parents := fun _ => rejected "backend error";
  files_update := fun _ _ _ => rejected "backend error";
  files_get := fun _ => rejected "backend error";
  files_delete := fun _ => rejected "backend error"
|}.

Definition scanFolder : string := "scan-folder".
Definition quarantineFolder : string := "quarantine-folder".

Definition fileA : DriveFile := sampleFile "f1" "a.txt" jan1.
Definition fileB : DriveFile := sampleFile "f2" "b.txt" jan1.
Definition fileC : DriveFile := sampleFile "f3" "c.txt" jan2.

(** A Drive that lists the two folders and refuses everything else. *)
Definition driveListing (scanListing quarantineListing : list DriveFile)
  : Drive := {|
  files_list := fun folderId =>
    if bool_decide (folderId = scanFolder) then resolved scanListing
    else if bool_decide (folderId = quarantineFolder)
         then resolved quarantineListing
         else rejected "File not found";
  files_get_parents := fun _ => rejected "backend error";
  files_update := fun _ _ _ => rejected "backend error";
  files_get := fun _ => rejected "backend error";
  files_delete := fun _ => rejected "backend error"
|}.

(** A Drive that deletes what it is asked to. *)
Definition driveDeleting : Drive := {|
  files_list := fun _ => rejected "backend error";
  files_get_parents := fun _ => rejected "backend error";
  files_update := fun _ _ _ => rejected "backend error";
  files_get := fun _ => rejected "backend error";
  files_delete := fun _ => resolved tt
|}.

(** A Drive on which [file] has the parents [before] and, once updated,
    [after]. *)
Definition driveMoving (before after : list string) (file : DriveFile)
  : Drive := {|
  files_list := fun _ => rejected "backend error";
  files_get_parents := fun _ =>
    resolved {| meta_parents := Some before; meta_name := df_name file |};
  files_update := fun _ _ _ => resolved (Some after);
  files_get := fun _ => resolved file;
  files_delete := fun _ => rejected "backend error"
|}.

Definition turn (e : Event) (d : Drive) (t : string) : Turn :=
  {| event := e; drive := d; now := t |}.

(** A state with one known file, [f1], whose scan came out clean. *)
Definition oneCleanFile : State := {|
  fileStore := [tag scan fileA];
  isAuthorized := true;
  scanStore := {[ "f1" := {| status := clean; lastScannedAt := Some jan2 |} ]};
  scanningJobs := ∅; tasks := []; emitted := []
|}.

(** The same file in the middle of its scan. *)
Definition midScan : State := {|
  fileStore := [tag scan fileA];
  isAuthorized := true;
  scanStore := {[ "f1" := {| status := scanning; lastScannedAt := None |} ]};
  scanningJobs := {[ "f1" ]}; tasks := [scanningTimeout "f1"]; emitted := []
|}.

(** ** The server *)

Section Server.
(** The configuration read from the environment, and the three built-ins:
    [new Date(s).getTime()] ([None] for an invalid date),
    [a.localeCompare(b)] and [s.toLowerCase()]. *)
Context (SCAN_FOLDER_ID QUARANTINE_FOLDER_ID : option string).
Context (Date_parse : string → option Z).
Context (localeCompare : string → string → Z).
Context (toLowerCase : list N → list N).
Local Abbreviation isEicarish := (isEicarish toLowerCase).

(** [targetFolderId === FOLDER_ID] guarded by [FOLDER_ID &&]. *)
Definition is_folder (FOLDER_ID : option string) (targetFolderId : string) : bool :=
  truthy_opt FOLDER_ID && bool_decide (FOLDER_ID = Some targetFolderId).

(** The comparison function of [listFiles] and [moveFileById]; a [NaN]
    difference is [0]. *)
Definition compareFiles (a b : FileRecord) : Z :=
  if truthy_opt (modifiedTime a) && truthy_opt (modifiedTime b) then
    match modifiedTime b ≫= Date_parse, modifiedTime a ≫= Date_parse with
    | Some tb, Some ta => tb - ta
    | _, _ => 0
    end
  else localeCompare (name b) (name a).

Definition filesForClients (s : State) : list ClientFile :=
  map (fun f =>
    let record := match scanStore s !! id f with
                  | Some r => r
                  | None => {| status := match source f with
                                         | quarantine => infected
                                         | scan => pending
                                         end;
                               lastScannedAt := None |}
                  end in
    {| cf_id := id f; cf_name := name f; cf_mimeType := mimeType f;
       cf_size := size f; cf_modifiedTime := modifiedTime f;
       cf_webViewLink := webViewLink f;
       cf_webContentLink := webContentLink f;
       cf_md5Checksum := or_null (md5Checksum f);
       cf_scanStatus := status record;
       cf_lastScannedAt := lastScannedAt record;
       cf_source := source f |}) (fileStore s).

(** [emitFileList(changes)]; the write to the spreadsheet it also starts
    touches nothing of the state and is left out. *)
Definition emitFileList (a m d : nat) (now : string) (s : State) : State :=
  emit (file_list (filesForClients s) now a m d) s.

Definition listFilesInFolder (drive : Drive) (folderId : string)
    (sourceTag : Source) : Answer (list FileRecord) :=
  match files_list drive folderId with
  | resolved files => resolved (map (tag sourceTag) files)
  | rejected e => rejected e
  end.

(** The [Map] of [listFiles]: the scan listing goes in first, so a record
    of the quarantine listing replaces the scan record of the same id. *)
Definition mergedMap (scanFiles quarantineFiles : list FileRecord)
  : Map.t FileRecord :=
  fold_left (fun m f => Map.set (id f) f m) quarantineFiles
    (fold_left (fun m f => Map.set (id f) f m) scanFiles []).

(** The body of [listFiles] once both listings are in. *)
Definition mergeListings (scanFiles quarantineFiles : list FileRecord)
  : list FileRecord :=
  sort compareFiles (Map.values (mergedMap scanFiles quarantineFiles)).

Definition listFiles (drive : Drive) : Answer (list FileRecord) :=
  match
    match SCAN_FOLDER_ID with
    | Some folder =>
        if truthy folder then listFilesInFolder drive folder scan
        else resolved []
    | None => resolved []
    end
  with
  | rejected e => rejected e
  | resolved scanFiles =>
      match
        match QUARANTINE_FOLDER_ID with
        | Some folder =>
            if truthy folder then listFilesInFolder drive folder quarantine
            else resolved []
        | None => resolved []
        end
      with
      | rejected e => rejected e
      | resolved quarantineFiles =>
          resolved (mergeListings scanFiles quarantineFiles)
      end
  end.

Definition entries (l : list FileRecord) : list (string * FileRecord) :=
  map (fun f => (id f, f)) l.

Definition noChanges : Changes :=
  {| added := []; modified := []; deleted := []; hasChanges := false |}.

(** One iteration of the first loop of [detectChanges]. *)
Definition detectNew (oldFileMap : Map.t FileRecord)
    (acc : Changes * State) (e : string * FileRecord) : Changes * State :=
  let '(changes, s) := acc in
  let '(i, file) := e in
  if negb (Map.has i oldFileMap) then
    ({| added := added changes ++ [file]; modified := modified changes;
        deleted := deleted changes; hasChanges := true |}, s)
  else
    match Map.get i oldFileMap with
    | Some oldFile =>
        if bool_decide (differs oldFile file) then
          ({| added := added changes; modified := modified changes ++ [file];
              deleted := deleted changes; hasChanges := true |},
           deleteScan i s)
        else (changes, s)
    | None => (changes, s)
    end.

(** One iteration of the second loop. *)
Definition detectGone (newFileMap : Map.t FileRecord)
    (acc : Changes * State) (e : string * FileRecord) : Changes * State :=
  let '(changes, s) := acc in
  let '(i, file) := e in
  if negb (Map.has i newFileMap) then
    ({| added := added changes; modified := modified changes;
        deleted := deleted changes ++ [file]; hasChanges := true |},
     deleteScan i s)
  else (changes, s).

(** [detectChanges(newFiles)]: the previous snapshot is [fileStore]. *)
Definition detectChanges (newFiles : list FileRecord) (s : State)
  : Changes * State :=
  let newFileMap := Map.from (entries newFiles) in
  let oldFileMap := Map.from (entries (fileStore s)) in
  fold_left (detectGone newFileMap) oldFileMap
    (fold_left (detectNew oldFileMap) newFileMap (noChanges, s)).

(** [moveFileById(fileId, targetFolderId)], run from its first line to its
    [return] against the answers of [drive]; the third component lists the
    requests it sent. Any rejected request but the last lands in the outer
    [catch]. *)
Definition moveFileById (drive : Drive) (now : string)
    (fileId targetFolderId : string) (s : State)
  : MoveResult * State * list DriveCall :=
  match files_get_parents drive fileId with
  | rejected e => (move_error e, s, [call_get_parents fileId])
  | resolved meta =>
      let currentParentsArray := default [] (meta_parents meta) in
      let currentParents := String.concat "," currentParentsArray in
      if includes targetFolderId currentParentsArray then
        (move_unchanged (meta_name meta), s, [call_get_parents fileId])
      else
        let removeParents :=
          if truthy currentParents then Some currentParents else None in
        let sent := [call_get_parents fileId;
                     call_update fileId targetFolderId removeParents] in
        match files_update drive fileId targetFolderId removeParents with
        | rejected e => (move_error e, s, sent)
        | resolved parents =>
            let stillHasScanParent :=
              match SCAN_FOLDER_ID with
              | Some folder => includes folder (default [] parents)
              | None => false
              end in
            let s1 :=
              if negb stillHasScanParent
              then set_fileStore (removeById fileId (fileStore s)) s
              else s in
            let s2 :=
              if is_folder QUARANTINE_FOLDER_ID targetFolderId
              then writeScan fileId
                     {| status := infected; lastScannedAt := Some now |} s1
              else s1 in
            if is_folder SCAN_FOLDER_ID targetFolderId then
              match files_get drive fileId with
              | rejected _ => (move_done parents, s2, sent ++ [call_get fileId])
              | resolved fileMeta =>
                  let item := tag scan fileMeta in
                  let s3 :=
                    match findById fileId (fileStore s2) with
                    | None =>
                        set_fileStore
                          (sort compareFiles (fileStore s2 ++ [item])) s2
                    | Some _ =>
                        set_fileStore
                          (assignById fileId item (fileStore s2)) s2
                    end in
                  (move_done parents,
                   writeScan fileId
                     {| status := clean; lastScannedAt := Some now |} s3,
                   sent ++ [call_get fileId])
              end
            else (move_done parents, s2, sent)
        end
  end.

(** [simulateScan(fileId, io)] up to its first [setTimeout]. *)
Definition simulateScan (now : string) (fileId : string) (s : State) : State :=
  if bool_decide (fileId ∈ scanningJobs s) then s
  else
    schedule (scanningTimeout fileId)
      (emitFileList 0 0 0 now
        (writeScan fileId {| status := scanning; lastScannedAt := None |}
          (set_scanningJobs ({[fileId]} ∪ scanningJobs s) s))).

(** The callback of the outer [setTimeout]. *)
Definition onScanningTimeout (now : string) (fileId : string) (s : State)
  : State :=
  schedule (pendingTimeout fileId)
    (emitFileList 0 0 0 now
      (emit (scan_complete fileId pending now "Scan in progress (pending)")
        (writeScan fileId {| status := pending; lastScannedAt := None |} s))).

(** The [finally] clause of the inner callback. *)
Definition releaseJob (fileId : string) (s : State) : State :=
  set_scanningJobs (scanningJobs s ∖ {[fileId]}) s.

(** [finalStatus] as the inner callback computes it from [name]. *)
Definition finalStatus (name : string) : ScanStatus :=
  if isEicarish name then infected else clean.

(** The callback of the inner [setTimeout], up to its first [await] or, when
    it reaches none, to its end. *)
Definition onPendingTimeout (now : string) (fileId : string) (s : State)
  : State :=
  let fileObj := findById fileId (fileStore s) in
  let name := match fileObj with Some f => name f | None => "" end in
  let source := match fileObj with Some f => source f | None => scan end in
  let infected := isEicarish name in
  let s1 :=
    emitFileList 0 0 0 now
      (emit (scan_complete fileId (finalStatus name) now
               (if infected
                then "File flagged as infected (EICAR-like pattern)"
                else "File is clean"))
        (writeScan fileId
           {| status := finalStatus name; lastScannedAt := Some now |} s)) in
  match
    if infected && negb (bool_decide (source = quarantine))
    then or_null QUARANTINE_FOLDER_ID else None
  with
  | Some folder => schedule (awaitingMove fileId folder false) s1
  | None =>
      match
        if negb infected && bool_decide (source = quarantine)
        then or_null SCAN_FOLDER_ID else None
      with
      | Some back => schedule (awaitingMove fileId back true) s1
      | None => releaseJob fileId s1
      end
  end.

(** The rest of the inner callback once the awaited [moveFileById] has
    settled. *)
Definition onMoveSettled (drive : Drive) (now : string)
    (fileId targetFolderId : string) (restore : bool) (s : State) : State :=
  let '(moveResult, s1, _) := moveFileById drive now fileId targetFolderId s in
  let s2 :=
    match moveResult with
    | move_error e =>
        emit (scan_alert fileId
                (or_else e (if restore then "Auto-restore failed"
                            else "Auto-quarantine failed"))) s1
    | _ =>
        emitFileList 0 0 0 now
          (emit (file_moved fileId targetFolderId now None
                   (Some (if restore
                          then "Restored clean file to scan folder"
                          else "Auto-quarantined infected file"))) s1)
    end in
  releaseJob fileId s2.

Definition runTask (drive : Drive) (now : string) (t : Task) (s : State)
  : State :=
  match t with
  | scanningTimeout fileId => onScanningTimeout now fileId s
  | pendingTimeout fileId => onPendingTimeout now fileId s
  | awaitingMove fileId targetFolderId restore =>
      onMoveSettled drive now fileId targetFolderId restore s
  end.

(** [pollFolder()], from the moment [listFiles()] settles. *)
Definition pollFolder (drive : Drive) (now : string) (s : State) : State :=
  if negb (isAuthorized s) then s
  else
    match listFiles drive with
    | rejected _ => s
    | resolved newFiles =>
        let '(changes, s1) := detectChanges newFiles s in
        if hasChanges changes then
          let s2 := set_fileStore newFiles s1 in
          let toScan :=
            filter (fun f => source f = scan)
              (added changes ++ modified changes) in
          let s3 :=
            fold_left (fun s file =>
              let i := id file in
              if bool_decide (i ∈ scanningJobs s) then s
              else simulateScan now i
                     (writeScan i
                        {| status := scanning; lastScannedAt := None |} s))
              toScan s2 in
          emitFileList (length (added changes)) (length (modified changes))
            (length (deleted changes)) now s3
        else s1
    end.

(** The handler of ['rescan_file']. *)
Definition on_rescan_file (now : string) (data : option string) (s : State)
  : State :=
  match data with
  | None => s
  | Some fileId =>
      if negb (truthy fileId) then s
      else if negb (bool_decide (fileId ∈ scanningJobs s)) then
        simulateScan now fileId
          (emitFileList 0 0 0 now
            (writeScan fileId
               {| status := scanning; lastScannedAt := None |} s))
      else
        emitFileList 0 0 0 now
          (writeScan fileId {| status := scanning; lastScannedAt := None |} s)
  end.

(** The handler of ['move_file']. *)
Definition on_move_file (drive : Drive) (now : string)
    (fileId targetFolderId : option string) (s : State) : State :=
  match or_null fileId, or_null targetFolderId with
  | Some fileId', Some targetFolderId' =>
      if negb (isAuthorized s)
      then emit (move_failed fileId "Not authorized") s
      else
        let '(result, s1, _) :=
          moveFileById drive now fileId' targetFolderId' s in
        match result with
        | move_error e =>
            emit (move_failed fileId (or_else e "Move failed")) s1
        | move_unchanged _ =>
            emitFileList 0 0 0 now
              (emit (file_moved fileId' targetFolderId' now (Some true) None) s1)
        | move_done _ =>
            emitFileList 0 0 0 now
              (emit (file_moved fileId' targetFolderId' now (Some false) None) s1)
        end
  | _, _ => emit (move_failed fileId "Missing fileId or targetFolderId") s
  end.

(** The handler of ['delete_file']. *)
Definition on_delete_file (drive : Drive) (now : string)
    (data : option string) (s : State) : State :=
  match or_null data with
  | None => s
  | Some fileId =>
      if negb (isAuthorized s)
      then emit (delete_failed fileId "Not authorized") s
      else
        match files_delete drive fileId with
        | resolved _ =>
            emitFileList 0 0 1 now
              (emit (file_deleted fileId now)
                (releaseJob fileId
                  (deleteScan fileId
                    (set_fileStore (removeById fileId (fileStore s)) s))))
        | rejected e => emit (delete_failed fileId e) s
        end
  end.

(** One turn of the event loop. *)
Definition step (s : State) (t : Turn) : State :=
  match event t with
  | client_connected => emitFileList 0 0 0 (now t) s
  | rescan_request data => on_rescan_file (now t) data s
  | move_request fileId targetFolderId =>
      on_move_file (drive t) (now t) fileId targetFolderId s
  | delete_request data => on_delete_file (drive t) (now t) data s
  | oauth_granted => set_isAuthorized true s
  | poll_tick => pollFolder (drive t) (now t) s
  | task_due n =>
      match tasks s !! n with
      | Some task =>
          runTask (drive t) (now t) task (set_tasks (delete n (tasks s)) s)
      | None => s
      end
  end.

Definition exec (turns : list Turn) (s : State) : State :=
  fold_left step turns s.

(** The number of turns at which the file entered [scanningJobs]: the scan
    sequences started for it. *)
Fixpoint sequencesStarted (fileId : string) (turns : list Turn) (s : State)
  : nat :=
  match turns with
  | [] => 0
  | t :: rest =>
      (if bool_decide ((fileId ∉ scanningJobs s)
                       ∧ (fileId ∈ scanningJobs (step s t)))
       then 1 else 0)
      + sequencesStarted fileId rest (step s t)
  end.
End Server.

(** ** The answers of Drive about one file *)

(** Drive answers a request for the metadata of a file with the metadata
    of that file. *)
Definition answersForFile (t : Turn) : Prop :=
  ∀ fileId fileMeta,
    files_get (drive t) fileId = resolved fileMeta → df_id fileMeta = fileId.

(** ** Scan sequences: the announcements and the job *)

(** The message announces the intermediate status [pending] of the file. *)
Definition isPendingOf (fileId : string) (e : Emit) : bool :=
  match e with
  | scan_complete i pending _ _ => bool_decide (i = fileId)
  | _ => false
  end.

(** The callback is the inner timeout of the file: its verdict is due. *)
Definition verdictDue (fileId : string) (t : Task) : bool :=
  match t with
  | pendingTimeout i => bool_decide (i = fileId)
  | _ => false
  end.

(** The message is a [scan_complete]; the callback is an outer timeout. *)
Definition isScanComplete (e : Emit) : bool :=
  match e with scan_complete _ _ _ _ => true | _ => false end.

Definition isScanningTimeout (t : Task) : bool :=
  match t with scanningTimeout _ => true | _ => false end.

(** The [pending] announcements of the file so far, and its verdicts that
    are due. *)
Definition pendings (fileId : string) (s : State) : nat :=
  count (isPendingOf fileId) (emitted s).
Definition verdictsDue (fileId : string) (s : State) : nat :=
  count (verdictDue fileId) (tasks s).

(** Every verdict given or due has had its [pending] announcement. *)
Definition announced (fileId : string) (s : State) : Prop :=
  verdicts fileId s + verdictsDue fileId s = pendings fileId s.

(** A change that at most sets outer timers and sends no [scan_complete]. *)
Definition startsOnly (s s' : State) : Prop :=
  ∃ added sent,
    tasks s' = tasks s ++ added ∧ emitted s' = emitted s ++ sent
    ∧ Forall (fun t => isScanningTimeout t = true) added
    ∧ Forall (fun e => isScanComplete e = false) sent.

(** A held job has a callback of its sequence waiting. *)
Definition backed (a : Abs) : Prop := locked a = true → 0 < flying a.

(** ** The spreadsheet *)

(** [toUpperCase] is applied to the subtype of a media type only; media
    types are ASCII (RFC 6838), and on ASCII text [toUpperCase] is this
    map. *)
Definition upperChar (c : ascii) : ascii :=
  let n := nat_of_ascii c in
  if (97 <=? n)%nat && (n <=? 122)%nat then ascii_of_nat (n - 32) else c.

Fixpoint toUpperCase (s : string) : string :=
  match s with
  | EmptyString => EmptyString
  | String c r => String (upperChar c) (toUpperCase r)
  end.

(** [s.split(sep)] for a separator of one character: the pieces of [s]
    between the separators, [['']] for the empty string. *)
Fixpoint split (sep : ascii) (s : string) : list string :=
  match s with
  | EmptyString => [EmptyString]
  | String c r =>
      if bool_decide (c = sep) then EmptyString :: split sep r
      else match split sep r with
           | first :: others => String c first :: others
           | [] => [String c EmptyString]
           end
  end.

(** The text of a status, as it is sent and written. *)
Definition statusName (st : ScanStatus) : string :=
  match st with
  | pending => "pending"
  | scanning => "scanning"
  | clean => "clean"
  | infected => "infected"
  end.

(** [x || fallback] on a string that may be missing. *)
Definition or_text (x : option string) (fallback : string) : string :=
  match or_null x with Some s => s | None => fallback end.

(** The [type] cell of a row. *)
Definition sheetType (mimeType : string) : string :=
  let subtype :=
    if truthy mimeType then split "/" mimeType !! 1 else None in
  if truthy_opt subtype
  then toUpperCase (default "" (split "/" mimeType !! 1))
  else or_else mimeType "Unknown".

(** The row [updateSheetFromFiles] pushes for a file. *)
Definition sheetRow (f : ClientFile) : list string :=
  [or_text (cf_md5Checksum f) "-";
   or_else (cf_name f) "";
   or_else (cf_size f) "-";
   sheetType (cf_mimeType f);
   or_text (cf_modifiedTime f) "";
   or_else (statusName (cf_scanStatus f))
     (match cf_source f with quarantine => "infected" | scan => "pending" end)].

(** The header row. *)
Definition sheetHeader : list string :=
  ["MD5"; "Name"; "Size"; "Type"; "Time"; "Status"].

Section Sheet.
Context (Date_parse : string → option Z).

(** [ta] (and [tb]) of the comparison function: [0] for a file without
    [modifiedTime], [None] ([NaN]) for one whose [modifiedTime] is no
    date. *)
Definition sheetTime (f : ClientFile) : option Z :=
  if truthy_opt (cf_modifiedTime f) then cf_modifiedTime f ≫= Date_parse
  else Some 0%Z.

(** The comparison function, [tb - ta]; a [NaN] difference is [0]. *)
Definition compareRows (a b : ClientFile) : Z :=
  match sheetTime b, sheetTime a with
  | Some tb, Some ta => tb - ta
  | _, _ => 0
  end.

(** The instant a row is sorted by, for a file whose [sheetTime] is a
    number. *)
Definition sheetInstant (f : ClientFile) : Z := default 0%Z (sheetTime f).

(** The [values] of the request [updateSheetFromFiles] sends. *)
Definition sheetRows (files : list ClientFile) : list (list string) :=
  sheetHeader :: map sheetRow (sort compareRows files).

(** [updateSheetFromFiles(files)]: the rows written from A1 downward, or
    nothing when no sheet is configured. *)
Definition updateSheetFromFiles (SHEET_ID : option string)
    (files : list ClientFile) : option (list (list string)) :=
  if truthy_opt SHEET_ID then Some (sheetRows files) else None.
End Sheet.

(** ** The poll timer *)

(** The variable [pollTimer] and the timers of the process: the intervals
    that are set and not cleared, the id the next [setInterval] returns, and
    the number of calls of [pollFolder] made outside any interval. *)
Record Poller := {
  pollTimer : option nat;
  intervals : list nat;
  nextTimer : nat;
  pollsMade : nat
}.

(** [clearInterval(timer)]. *)
Definition clearInterval (timer : nat) (p : Poller) : Poller :=
  {| pollTimer := pollTimer p;
     intervals := filter (fun t => t ≠ timer) (intervals p);
     nextTimer := nextTimer p; pollsMade := pollsMade p |}.

(** [setInterval(...)]: the new timer and the process with it set. *)
Definition setInterval (p : Poller) : nat * Poller :=
  (nextTimer p,
   {| pollTimer := pollTimer p; intervals := intervals p ++ [nextTimer p];
      nextTimer := S (nextTimer p); pollsMade := pollsMade p |}).

(** [pollTimer = v]. *)
Definition set_pollTimer (v : option nat) (p : Poller) : Poller :=
  {| pollTimer := v; intervals := intervals p; nextTimer := nextTimer p;
     pollsMade := pollsMade p |}.

(** [startPolling()]: the timer in [pollTimer], if any, is cleared;
    [pollFolder()] is called; a new interval is set and kept in
    [pollTimer]. *)
Definition startPolling (p : Poller) : Poller :=
  let p1 := match pollTimer p with
            | Some timer => clearInterval timer p
            | None => p
            end in
  let p2 := {| pollTimer := pollTimer p1; intervals := intervals p1;
               nextTimer := nextTimer p1; pollsMade := S (pollsMade p1) |} in
  let '(timer, p3) := setInterval p2 in
  set_pollTimer (Some timer) p3.

(** [stopPolling()]. *)
Definition stopPolling (p : Poller) : Poller :=
  match pollTimer p with
  | Some timer => set_pollTimer None (clearInterval timer p)
  | None => p
  end.

(** What reaches the poller: the authorization callback and the start of
    an authorized process call [startPolling], the signal handlers call
    [stopPolling]. *)
Inductive PollerCall := start_polling | stop_polling.

Definition callPoller (p : Poller) (c : PollerCall) : Poller :=
  match c with
  | start_polling => startPolling p
  | stop_polling => stopPolling p
  end.

(** The call is a call of [startPolling]. *)
Definition isStart (c : PollerCall) : bool :=
  match c with start_polling => true | stop_polling => false end.

(** The process before any call: [let pollTimer = null]. *)
Definition idle : Poller :=
  {| pollTimer := None; intervals := []; nextTimer := 0; pollsMade := 0 |}.

(** [polling] of ['/api/status']. *)
Definition polling (p : Poller) : bool :=
  match pollTimer p with Some _ => true | None => false end.

(** [pollTimer] is the one interval that is set, if any. *)
Definition oneInterval (p : Poller) : Prop :=
  intervals p = match pollTimer p with Some timer => [timer] | None => [] end.

(** ** Sample data for the properties of the code *)

(** A Drive that knows one file: it moves it and returns its metadata, and
    refuses every request about another file. *)
Definition driveKnowing (before after : list string) (file : DriveFile)
  : Drive := {|
  files_list := fun _ => rejected "backend error";
  files_get_parents := fun fileId =>
    if bool_decide (fileId = df_id file)
    then resolved {| meta_parents := Some before; meta_name := df_name file |}
    else rejected "File not found";
  files_update := fun fileId _ _ =>
    if bool_decide (fileId = df_id file) then resolved (Some after)
    else rejected "File not found";
  files_get := fun fileId =>
    if bool_decide (fileId = df_id file) then resolved file
    else rejected "File not found";
  files_delete := fun _ => rejected "backend error"
|}.

(** A file for which Drive sent no [modifiedTime]. *)
Definition undatedFile (i n : string) : DriveFile := {|
  df_id := i; df_name := n; df_mimeType := "text/plain"; df_size := Some "12";
  df_modifiedTime := None; df_webViewLink := "https://drive.example/view";
  df_webContentLink := None; df_md5Checksum := None
|}.

(** A name with U+0130 where the letter i would be. *)
Definition dottedName : string := "eİcar".

(** A file with a flagged name, and [f1] under another name. *)
Definition fileEicar : DriveFile := sampleFile "f4" "eicar-sample.com" jan2.
Definition fileARenamed : DriveFile := sampleFile "f1" "renamed.txt" jan1.

(** A state in which [f1] is known as a file of the quarantine folder. *)
Definition oneQuarantinedFile : State := {|
  fileStore := [tag quarantine fileA];
  isAuthorized := true;
  scanStore := {[ "f1" := {| status := infected; lastScannedAt := Some jan2 |} ]};
  scanningJobs := ∅; tasks := []; emitted := []
|}.

(** A state in which the flagged file [f4] of the scan folder is known. *)
Definition oneFlaggedFile : State := {|
  fileStore := [tag scan fileEicar];
  isAuthorized := true;
  scanStore := {[ "f4" := {| status := pending; lastScannedAt := None |} ]};
  scanningJobs := {[ "f4" ]}; tasks := []; emitted := []
|}.

(** The list sent to clients when [f1], [f3] and [f4] are known. *)
Definition threeFiles : list ClientFile :=
  filesForClients
    (set_fileStore [tag scan fileA; tag scan fileC; tag quarantine fileEicar]
       (initial true)).

(** * Properties *)

(** ** The verdict rule *)

Lemma target_letters : target = [101; 105; 99; 97; 114]%N.
Proof. reflexivity. Qed.

Lemma codeUnits_truthy s : codeUnits s ≠ [] → truthy s = true.
Proof. by destruct s. Qed.

(** The counter reaches the end of [target] exactly when the letters that
    are left occur, in that order, in what is left of the string. *)
Lemma isEicarish_loop_spec l idx :
  (idx ≤ length target)%nat →
  isEicarish_loop l idx = length target ↔ drop idx target `sublist_of` l.
Proof.
  revert idx. induction l as [|c l IH]; intros idx Hle; cbn [isEicarish_loop].
  - split.
    + intros ->. rewrite drop_all. constructor.
    + intros Hsub. apply sublist_nil_r in Hsub.
      apply (f_equal length) in Hsub. rewrite length_drop in Hsub.
      change (length (@nil N)) with 0 in Hsub. lia.
  - destruct (Nat.ltb_spec idx (length target)) as [Hlt | Hge].
    + destruct (lookup_lt_is_Some_2 target idx Hlt) as [t Ht].
      rewrite (drop_S _ _ _ Ht), Ht. case_bool_decide as Hc.
      * injection Hc as ->. rewrite IH by lia. split.
        -- by apply sublist_skip.
        -- intros Hsub. apply sublist_cons_r in Hsub as [Hsub | (l' & Heq & Hsub)].
           ++ etrans; [by apply sublist_cons | exact Hsub].
           ++ assert (l' = drop (S idx) target) as -> by congruence. done.
      * rewrite IH by lia. rewrite (drop_S _ _ _ Ht). split.
        -- by apply sublist_cons.
        -- intros Hsub. apply sublist_cons_r in Hsub as [Hsub | (l' & Heq & Hsub)];
             [done |].
           assert (c = t) as -> by congruence. done.
    + assert (idx = length target) as -> by lia. split; [| done].
      intros _. rewrite drop_all. apply sublist_nil_l.
Qed.

(** A list of elements that a filter keeps is a subsequence of a list
    exactly when it is one of the filtered list. *)
Lemma sublist_List_filter {A} (p : A → bool) (l1 l : list A) :
  Forall (fun x => p x = true) l1 →
  l1 `sublist_of` l ↔ l1 `sublist_of` List.filter p l.
Proof.
  intros Hkept. split.
  - intros Hsub. induction Hsub as [|x l1 l Hsub IH | x l1 l Hsub IH]; simpl.
    + constructor.
    + apply Forall_cons in Hkept as [Hx Hkept]. rewrite Hx.
      apply sublist_skip. by apply IH.
    + destruct (p x); [apply sublist_cons |]; by apply IH.
  - intros Hsub. etrans; [exact Hsub |]. clear.
    induction l as [|x l IH]; simpl; [done |].
    destruct (p x); by constructor.
Qed.

(** The subsequences of [omap f l] are what [f] gives for subsequences
    of [l]. *)
Lemma sublist_omap {A B} (f : A → option B) (t : list B) (l : list A) :
  t `sublist_of` omap f l
  ↔ ∃ sub, sub `sublist_of` l ∧ Forall2 (fun y x => f x = Some y) t sub.
Proof.
  revert t. induction l as [|x l IH]; intros t; cbn [omap list_omap].
  - split.
    + intros ->%sublist_nil_r. exists []. split; constructor.
    + intros (sub & ->%sublist_nil_r & Hall). apply Forall2_nil_inv_r in Hall.
      by subst t.
  - split.
    + intros Hsub. destruct (f x) as [y|] eqn:Hx.
      * apply sublist_cons_r in Hsub as [Hsub | (t' & -> & Hsub)].
        -- apply IH in Hsub as (sub & Hsub & Hall). exists sub.
           split; [by apply sublist_cons | done].
        -- apply IH in Hsub as (sub & Hsub & Hall). exists (x :: sub).
           split; [by apply sublist_skip | by constructor].
      * apply IH in Hsub as (sub & Hsub & Hall). exists sub.
        split; [by apply sublist_cons | done].
    + intros (sub & Hsub & Hall).
      apply sublist_cons_r in Hsub as [Hsub | (sub' & -> & Hsub)].
      * assert (Ht : t `sublist_of` omap f l) by (apply IH; eauto).
        destruct (f x); [by apply sublist_cons | done].
      * apply Forall2_cons_inv_r in Hall as (y & t' & Hx & Hall & ->).
        rewrite Hx. apply sublist_skip. apply IH. eauto.
Qed.

Section VerdictRule.
Context (toLowerCase : list N → list N).
Local Abbreviation isEicarish := (isEicarish toLowerCase).

(** [isEicarish] whatever the built-in does: the name is not empty and the
    five letters occur in that order in its lower-case form. *)
Lemma isEicarish_sublist filename :
  isEicarish filename = true
  ↔ truthy filename = true
    ∧ target `sublist_of` toLowerCase (codeUnits filename).
Proof.
  unfold isEicarish. destruct (truthy filename); cbn [negb].
  - rewrite Nat.eqb_eq, isEicarish_loop_spec by lia. rewrite drop_0. tauto.
  - split; [done | by intros [? _]].
Qed.

Lemma isEicarish_spec filename :
  lowersLetters toLowerCase →
  isEicarish filename = true ↔ occursLowered target filename.
Proof.
  intros Hlower. rewrite isEicarish_sublist. unfold occursLowered, countsAs.
  rewrite (sublist_List_filter isLetter)
    by (rewrite target_letters; repeat constructor).
  rewrite Hlower, sublist_omap. split; [by intros [_ H] |].
  intros (sub & Hsub & Hall). split; [| eauto].
  apply codeUnits_truthy. intros Hnil. rewrite Hnil in Hsub.
  apply sublist_nil_r in Hsub as ->. inversion Hall.
Qed.
End VerdictRule.

(** Which code units give a letter: the letter, its capital and, for [i],
    U+0130. *)
Lemma countsAs_spec t c :
  t ∈ target →
  countsAs t c ↔ matchesLetter t c ∨ (t = 105%N ∧ c = dottedCapitalI).
Proof.
  unfold countsAs, lowersTo, matchesLetter, upperOf, dottedCapitalI.
  rewrite target_letters, !elem_of_cons, elem_of_nil. intros Ht.
  repeat case_bool_decide;
    repeat match goal with
           | H : _ ∈ _ |- _ => rewrite !elem_of_cons, elem_of_nil in H
           | H : ¬ (_ ∈ _) |- _ => rewrite !elem_of_cons, elem_of_nil in H
           end;
    (split; intros Hc;
     [try discriminate Hc; try injection Hc as Hc
     | first [apply (f_equal Some) | exfalso]]; lia).
Qed.

Lemma occursIgnoringCase_lowered s :
  occursIgnoringCase target s → occursLowered target s.
Proof.
  intros (sub & Hsub & Hall). exists sub. split; [done |].
  assert (Hgen : ∀ letters, Forall (fun t => t ∈ target) letters →
            Forall2 matchesLetter letters sub → Forall2 countsAs letters sub).
  { clear. intros letters Hin Hall. induction Hall as [|t c ts cs Hm Hall IH];
      [constructor |].
    apply Forall_cons in Hin as [Ht Hin].
    constructor; [apply countsAs_spec; auto | by apply IH]. }
  apply Hgen; [by apply Forall_forall | done].
Qed.

(** The instance of [toLowerCase] does to the five letters what the
    built-in does. *)
Lemma lowerUnit_letters c :
  List.filter isLetter (lowerUnit c)
  = match lowersTo c with Some t => [t] | None => [] end.
Proof.
  destruct (decide (c ∈ [65; 67; 69; 73; 82; 97; 99; 101; 105; 114; 304]%N))
    as [Hin | Hout].
  - repeat (apply elem_of_cons in Hin as [-> | Hin]); try reflexivity.
    by apply elem_of_nil in Hin.
  - rewrite !not_elem_of_cons in Hout.
    assert (H1 : bool_decide (c ∈ target) = false).
    { apply bool_decide_eq_false_2.
      rewrite target_letters, !elem_of_cons, elem_of_nil. lia. }
    assert (H2 : bool_decide ((c + 32)%N ∈ target) = false).
    { apply bool_decide_eq_false_2.
      rewrite target_letters, !elem_of_cons, elem_of_nil. lia. }
    assert (H3 : (c =? dottedCapitalI)%N = false)
      by (apply N.eqb_neq; unfold dottedCapitalI; lia).
    unfold lowersTo. rewrite H1, H2.
    rewrite (bool_decide_eq_false_2 (c = dottedCapitalI))
      by (unfold dottedCapitalI; lia).
    unfold lowerUnit. rewrite H3.
    destruct ((65 <=? c) && (c <=? 90))%N;
      [| destruct ((192 <=? c) && (c <=? 222) && negb (c =? 215))%N];
      cbn [List.filter]; unfold isLetter; by rewrite ?H1, ?H2.
Qed.

Lemma toLowerCase_latin_lowers : lowersLetters toLowerCase_latin.
Proof.
  intros s. unfold toLowerCase_latin.
  induction s as [|c s IH]; [done |].
  cbn [map concat omap list_omap].
  rewrite List.filter_app, IH, lowerUnit_letters.
  by destruct (lowersTo c).
Qed.

(** ** The insertion-ordered map *)

Section MapFacts.
Context {V : Type}.
Implicit Types (m : Map.t V) (k : string) (v : V).

Lemma get_set_eq k v m : Map.get k (Map.set k v m) = Some v.
Proof.
  induction m as [|[k' v'] m IH]; simpl.
  - by rewrite bool_decide_eq_true_2.
  - case_bool_decide as Hk; simpl.
    + by rewrite bool_decide_eq_true_2.
    + by rewrite bool_decide_eq_false_2.
Qed.

Lemma get_set_ne k k' v m :
  k ≠ k' → Map.get k' (Map.set k v m) = Map.get k' m.
Proof.
  intros Hne. induction m as [|[k0 v0] m IH]; simpl.
  - by rewrite bool_decide_eq_false_2.
  - case_bool_decide as Hk; simpl.
    + subst k0. by rewrite !bool_decide_eq_false_2.
    + by rewrite IH.
Qed.

Lemma get_None k m : Map.get k m = None ↔ k ∉ Map.keys m.
Proof.
  induction m as [|[k' v'] m IH]; simpl.
  - split; [intros _; apply not_elem_of_nil | done].
  - rewrite not_elem_of_cons. case_bool_decide as Hk; simpl.
    + split; [done | intros [Hne _]; congruence].
    + rewrite IH. split; [intros H; split; [congruence | done] | tauto].
Qed.

Lemma has_true k m : Map.has k m = true ↔ k ∈ Map.keys m.
Proof.
  unfold Map.has. destruct (Map.get k m) as [v|] eqn:Hg.
  - split; [intros _ | done].
    destruct (decide (k ∈ Map.keys m)) as [|Hn]; [done |].
    apply get_None in Hn. congruence.
  - apply get_None in Hg. split; [done | tauto].
Qed.

Lemma has_false k m : Map.has k m = false ↔ k ∉ Map.keys m.
Proof. rewrite <- has_true. by destruct (Map.has k m). Qed.

Lemma get_Some_elem k v m : Map.get k m = Some v → (k, v) ∈ m.
Proof.
  induction m as [|[k' v'] m IH]; simpl; [done |].
  case_bool_decide as Hk.
  - intros [= ->]. subst. apply list_elem_of_here.
  - intros H. apply list_elem_of_further. auto.
Qed.

Lemma elem_get k v m : NoDup (Map.keys m) → (k, v) ∈ m → Map.get k m = Some v.
Proof.
  induction m as [|[k' v'] m IH]; simpl; intros Hnd Hin.
  - by apply elem_of_nil in Hin.
  - apply NoDup_cons in Hnd as [Hk' Hnd].
    apply elem_of_cons in Hin as [[= -> ->] | Hin].
    + by rewrite bool_decide_eq_true_2.
    + rewrite bool_decide_eq_false_2; [auto |].
      intros ->. apply Hk'. unfold Map.keys.
      apply (list_elem_of_fmap_2 fst) in Hin. exact Hin.
Qed.

Lemma set_fresh k v m : k ∉ Map.keys m → Map.set k v m = m ++ [(k, v)].
Proof.
  induction m as [|[k' v'] m IH]; simpl; [done |].
  rewrite not_elem_of_cons. intros [Hne Hk].
  rewrite bool_decide_eq_false_2 by congruence. by rewrite IH.
Qed.

Lemma keys_set k v m :
  Map.keys (Map.set k v m)
  = if bool_decide (k ∈ Map.keys m) then Map.keys m else Map.keys m ++ [k].
Proof.
  induction m as [|[k' v'] m IH]; simpl; [done |].
  destruct (decide (k' = k)) as [-> | Hk].
  - rewrite bool_decide_eq_true_2 by done. simpl.
    by rewrite bool_decide_eq_true_2 by apply list_elem_of_here.
  - rewrite bool_decide_eq_false_2 by done. simpl. rewrite IH.
    destruct (decide (k ∈ Map.keys m)) as [Hin | Hin].
    + rewrite !bool_decide_eq_true_2; [done | | done].
      by apply list_elem_of_further.
    + rewrite !bool_decide_eq_false_2; [done | | done].
      rewrite not_elem_of_cons. split; [congruence | done].
Qed.

Lemma NoDup_keys_set k v m :
  NoDup (Map.keys m) → NoDup (Map.keys (Map.set k v m)).
Proof.
  intros Hnd. rewrite keys_set. case_bool_decide as Hin; [done |].
  apply NoDup_app. split_and!; [done | | apply NoDup_singleton].
  intros x Hx ->%list_elem_of_singleton. done.
Qed.

Lemma elem_keys_set k k' v m :
  k' ∈ Map.keys (Map.set k v m) ↔ k' = k ∨ k' ∈ Map.keys m.
Proof.
  rewrite keys_set. case_bool_decide as Hin.
  - split; [auto | intros [-> | ?]; done].
  - rewrite elem_of_app, list_elem_of_singleton. tauto.
Qed.

Lemma NoDup_keys_setAll es m :
  NoDup (Map.keys m) → NoDup (Map.keys (Map.setAll es m)).
Proof.
  revert m. induction es as [|e es IH]; intros m Hnd; simpl; [done |].
  apply IH. by apply NoDup_keys_set.
Qed.

Lemma elem_keys_setAll es m k :
  k ∈ Map.keys (Map.setAll es m) ↔ k ∈ map fst es ∨ k ∈ Map.keys m.
Proof.
  revert m. induction es as [|e es IH]; intros m; simpl.
  - split; [auto | intros [H | H]; [by apply elem_of_nil in H | done]].
  - rewrite IH, elem_keys_set, elem_of_cons. tauto.
Qed.

(** The value a key ends up with is the one set last. *)
Lemma get_setAll es m k :
  Map.get k (Map.setAll es m)
  = match Map.get k (reverse es) with
    | Some v => Some v
    | None => Map.get k m
    end.
Proof.
  revert m. induction es as [|[k' v'] es IH]; intros m; simpl; [done |].
  rewrite IH, reverse_cons.
  assert (Happ : ∀ l1 l2 : Map.t V, Map.get k (l1 ++ l2)
            = match Map.get k l1 with
              | Some v => Some v | None => Map.get k l2 end).
  { intros l1 l2. induction l1 as [|[k1 v1] l1 IH1]; simpl; [done |].
    case_bool_decide; [done | apply IH1]. }
  rewrite Happ. destruct (Map.get k (reverse es)); [done |]. simpl.
  case_bool_decide as Hk.
  - subst k'. apply get_set_eq.
  - by apply get_set_ne.
Qed.

Lemma setAll_fresh es m :
  NoDup (map fst es) → (∀ k, k ∈ map fst es → k ∉ Map.keys m) →
  Map.setAll es m = m ++ es.
Proof.
  revert m. induction es as [|[k v] es IH]; intros m Hnd Hdis; simpl.
  - by rewrite app_nil_r.
  - simpl in Hnd. apply NoDup_cons in Hnd as [Hk Hnd].
    rewrite set_fresh by (apply Hdis; simpl; apply list_elem_of_here).
    rewrite IH; [by rewrite <- app_assoc | done |].
    intros k' Hk'. unfold Map.keys. rewrite map_app. simpl.
    rewrite elem_of_app, list_elem_of_singleton.
    intros [Hm | ->]; [| done].
    eapply Hdis; [| exact Hm]. simpl. by apply list_elem_of_further.
Qed.

Lemma from_NoDup (es : list (string * V)) :
  NoDup (map fst es) → Map.from es = es.
Proof.
  intros Hnd. unfold Map.from.
  rewrite setAll_fresh; [done | done |]. intros k _. apply not_elem_of_nil.
Qed.
End MapFacts.

(** ** detectChanges *)

Lemma deleteScans_frame l s :
  fileStore (deleteScans l s) = fileStore s
  ∧ isAuthorized (deleteScans l s) = isAuthorized s
  ∧ scanningJobs (deleteScans l s) = scanningJobs s
  ∧ tasks (deleteScans l s) = tasks s
  ∧ emitted (deleteScans l s) = emitted s.
Proof.
  revert s. induction l as [|i l IH]; intros s; simpl; [done |].
  destruct (IH (deleteScan i s)) as (-> & -> & -> & -> & ->). done.
Qed.

Lemma deleteScans_lookup l s k :
  scanStore (deleteScans l s) !! k
  = if bool_decide (k ∈ l) then None else scanStore s !! k.
Proof.
  revert s. induction l as [|i l IH]; intros s; simpl; [done |].
  rewrite IH. simpl. destruct (decide (k = i)) as [-> | Hne].
  - rewrite lookup_delete_eq.
    rewrite (bool_decide_eq_true_2 (i ∈ i :: l)) by apply list_elem_of_here.
    by case_bool_decide.
  - rewrite lookup_delete_ne by done.
    destruct (decide (k ∈ l)) as [Hin | Hin].
    + rewrite !bool_decide_eq_true_2; [done | | done].
      by apply list_elem_of_further.
    + rewrite !bool_decide_eq_false_2; [done | | done].
      rewrite not_elem_of_cons. done.
Qed.

Lemma deleteScans_app l1 l2 s :
  deleteScans (l1 ++ l2) s = deleteScans l2 (deleteScans l1 s).
Proof. unfold deleteScans. by rewrite fold_left_app. Qed.

Lemma detectNew_fold oldFileMap es changes s :
  fold_left (detectNew oldFileMap) es (changes, s)
  = ({| added := added changes ++ map snd (List.filter (isNew oldFileMap) es);
        modified :=
          modified changes ++ map snd (List.filter (isModified oldFileMap) es);
        deleted := deleted changes;
        hasChanges :=
          hasChanges changes
          || existsb (fun e => isNew oldFileMap e || isModified oldFileMap e) es
     |},
     deleteScans (map fst (List.filter (isModified oldFileMap) es)) s).
Proof.
  revert changes s. induction es as [|[i file] es IH]; intros changes s.
  - destruct changes. simpl. by rewrite !app_nil_r, orb_false_r.
  - cbn [fold_left]. unfold detectNew at 2. unfold isNew, isModified.
    cbn [List.filter existsb fst snd]. unfold Map.has.
    destruct (Map.get i oldFileMap) as [oldFile|] eqn:Hget; cbn [negb].
    + case_bool_decide as Hd.
      * rewrite IH. cbn [map fst snd added modified deleted hasChanges].
        unfold isNew, isModified, Map.has.
        by rewrite <- !app_assoc, orb_true_r.
      * rewrite IH. done.
    + rewrite IH. cbn [map fst snd added modified deleted hasChanges].
      unfold isNew, isModified, Map.has.
      by rewrite <- !app_assoc, orb_true_r.
Qed.

Lemma detectGone_fold newFileMap es changes s :
  fold_left (detectGone newFileMap) es (changes, s)
  = ({| added := added changes;
        modified := modified changes;
        deleted := deleted changes ++ map snd (List.filter (isGone newFileMap) es);
        hasChanges := hasChanges changes || existsb (isGone newFileMap) es |},
     deleteScans (map fst (List.filter (isGone newFileMap) es)) s).
Proof.
  revert changes s. induction es as [|[i file] es IH]; intros changes s.
  - destruct changes. simpl. by rewrite !app_nil_r, orb_false_r.
  - cbn [fold_left]. unfold detectGone at 2. unfold isGone.
    cbn [List.filter existsb fst snd].
    destruct (Map.has i newFileMap); cbn [negb].
    + rewrite IH. done.
    + rewrite IH. cbn [map fst snd added modified deleted hasChanges].
      unfold isGone. by rewrite <- !app_assoc, orb_true_r.
Qed.

(** [detectChanges] in closed form. *)
Lemma detectChanges_eq newFiles s :
  let newFileMap := Map.from (entries newFiles) in
  let oldFileMap := Map.from (entries (fileStore s)) in
  detectChanges newFiles s
  = ({| added := map snd (List.filter (isNew oldFileMap) newFileMap);
        modified := map snd (List.filter (isModified oldFileMap) newFileMap);
        deleted := map snd (List.filter (isGone newFileMap) oldFileMap);
        hasChanges :=
          existsb (fun e => isNew oldFileMap e || isModified oldFileMap e)
            newFileMap
          || existsb (isGone newFileMap) oldFileMap |},
     deleteScans
       (map fst (List.filter (isModified oldFileMap) newFileMap)
        ++ map fst (List.filter (isGone newFileMap) oldFileMap)) s).
Proof.
  intros newFileMap oldFileMap. unfold detectChanges.
  fold newFileMap oldFileMap.
  rewrite detectNew_fold, detectGone_fold. simpl.
  by rewrite deleteScans_app.
Qed.

Lemma keys_entries l : Map.keys (entries l) = ids l.
Proof. unfold Map.keys, entries, ids. rewrite map_map. done. Qed.

Lemma elem_entries l k f : (k, f) ∈ entries l ↔ f ∈ l ∧ id f = k.
Proof.
  unfold entries. rewrite list_elem_of_In, in_map_iff. split.
  - intros (g & [= <- <-] & Hg). by rewrite list_elem_of_In.
  - intros [Hf <-]. exists f. by rewrite <- list_elem_of_In.
Qed.

Lemma get_entries l k o :
  NoDup (ids l) → Map.get k (entries l) = Some o ↔ o ∈ l ∧ id o = k.
Proof.
  intros Hnd. rewrite <- elem_entries. split.
  - apply get_Some_elem.
  - apply elem_get. by rewrite keys_entries.
Qed.

Lemma selected_entries (p : string * FileRecord → bool) l :
  map snd (List.filter p (entries l)) = List.filter (fun f => p (id f, f)) l.
Proof.
  induction l as [|f l IH]; simpl; [done |].
  destruct (p (id f, f)); simpl; by rewrite IH.
Qed.

Lemma elem_List_filter {A} (p : A → bool) l x :
  x ∈ List.filter p l ↔ x ∈ l ∧ p x = true.
Proof. rewrite !list_elem_of_In. apply filter_In. Qed.

Lemma ids_List_filter_sublist (p : FileRecord → bool) l :
  ids (List.filter p l) `sublist_of` ids l.
Proof.
  induction l as [|f l IH]; simpl; [done |].
  destruct (p f); simpl; by constructor.
Qed.

Lemma elem_ids l i : i ∈ ids l ↔ ∃ f, f ∈ l ∧ id f = i.
Proof.
  unfold ids. rewrite list_elem_of_In, in_map_iff.
  split; intros (f & H1 & H2); exists f; rewrite ?list_elem_of_In in *; auto.
Qed.

Lemma isNew_entries l f :
  isNew (entries l) (id f, f) = true ↔ id f ∉ ids l.
Proof.
  unfold isNew. simpl. rewrite negb_true_iff, has_false.
  by rewrite keys_entries.
Qed.

Lemma isGone_entries l f :
  isGone (entries l) (id f, f) = true ↔ id f ∉ ids l.
Proof. apply isNew_entries. Qed.

Lemma isModified_entries l f :
  NoDup (ids l) →
  isModified (entries l) (id f, f) = true
  ↔ ∃ o, o ∈ l ∧ id o = id f ∧ differs o f.
Proof.
  intros Hnd. unfold isModified. simpl.
  destruct (Map.get (id f) (entries l)) as [o|] eqn:Hget.
  - rewrite bool_decide_eq_true. apply get_entries in Hget as [Ho Hid]; [| done].
    split; [by exists o |]. intros (o' & Ho' & Hid' & Hd).
    assert (Map.get (id f) (entries l) = Some o') as Hg'
      by by apply get_entries.
    assert (Map.get (id f) (entries l) = Some o) as Hg
      by by apply get_entries.
    congruence.
  - split; [done |]. intros (o & Ho & Hid & _).
    assert (Map.get (id f) (entries l) = Some o) by by apply get_entries.
    congruence.
Qed.

(** What [detectChanges] returns for snapshots without repeated ids. *)
Lemma detectChanges_snapshots newFiles s :
  NoDup (ids (fileStore s)) → NoDup (ids newFiles) →
  let old := entries (fileStore s) in
  let new := entries newFiles in
  fst (detectChanges newFiles s)
  = {| added := List.filter (fun f => isNew old (id f, f)) newFiles;
       modified := List.filter (fun f => isModified old (id f, f)) newFiles;
       deleted := List.filter (fun f => isGone new (id f, f)) (fileStore s);
       hasChanges :=
         existsb (fun e => isNew old e || isModified old e) new
         || existsb (isGone new) old |}.
Proof.
  intros Hold Hnew old new. rewrite detectChanges_eq. simpl.
  rewrite !from_NoDup by (by rewrite <- keys_entries in *).
  by rewrite !selected_entries.
Qed.

(** C2. For snapshots P (the file store) and C (the new listing), each
    without repeated ids, [detectChanges] puts every record of C in exactly
    one of three classes: added when its id is absent from P, modified when
    P holds a record of that id whose [modifiedTime] or [source] differs,
    and otherwise neither (unchanged: P holds a record of that id with the
    same [modifiedTime] and [source]); no id is reported twice; and the
    deleted records are exactly the records of P whose id is absent
    from C. *)
Theorem detectChanges_partitions (s : State) (newFiles : list FileRecord) :
  NoDup (ids (fileStore s)) → NoDup (ids newFiles) →
  let changes := fst (detectChanges newFiles s) in
  (∀ f, f ∈ added changes ↔ f ∈ newFiles ∧ id f ∉ ids (fileStore s))
  ∧ (∀ f, f ∈ modified changes
          ↔ f ∈ newFiles
            ∧ ∃ o, o ∈ fileStore s ∧ id o = id f ∧ differs o f)
  ∧ (∀ f, f ∈ newFiles → f ∉ added changes → f ∉ modified changes →
          ∃ o, o ∈ fileStore s ∧ id o = id f
               ∧ modifiedTime o = modifiedTime f ∧ source o = source f)
  ∧ (∀ o, o ∈ deleted changes ↔ o ∈ fileStore s ∧ id o ∉ ids newFiles)
  ∧ NoDup (ids (added changes ++ modified changes))
  ∧ NoDup (ids (deleted changes)).
Proof.
  intros Hold Hnew changes. subst changes.
  rewrite detectChanges_snapshots by done. cbn [added modified deleted].
  assert (Hadd : ∀ f, f ∈ List.filter
                   (fun f => isNew (entries (fileStore s)) (id f, f)) newFiles
                 ↔ f ∈ newFiles ∧ id f ∉ ids (fileStore s)).
  { intros f. by rewrite elem_List_filter, isNew_entries. }
  assert (Hmod : ∀ f, f ∈ List.filter
                   (fun f => isModified (entries (fileStore s)) (id f, f))
                   newFiles
                 ↔ f ∈ newFiles
                   ∧ ∃ o, o ∈ fileStore s ∧ id o = id f ∧ differs o f).
  { intros f. by rewrite elem_List_filter, isModified_entries. }
  split_and!; [done | done | | | |].
  - intros f Hf Hna Hnm. rewrite Hadd in Hna. rewrite Hmod in Hnm.
    destruct (decide (id f ∈ ids (fileStore s))) as [Hin | Hnin]; [| tauto].
    apply elem_ids in Hin as (o & Ho & Hid). exists o.
    split_and!; [done | done | |].
    + destruct (decide (modifiedTime o = modifiedTime f)) as [|Hne]; [done |].
      exfalso. apply Hnm. split; [done |]. exists o. unfold differs. auto.
    + destruct (decide (source o = source f)) as [|Hne]; [done |].
      exfalso. apply Hnm. split; [done |]. exists o. unfold differs. auto.
  - intros o. by rewrite elem_List_filter, isGone_entries.
  - unfold ids at 1. rewrite map_app. apply NoDup_app. split_and!.
    + eapply sublist_NoDup; [exact Hnew | apply ids_List_filter_sublist].
    + intros i Hi Hi'.
      apply elem_ids in Hi as (f & Hf & <-).
      apply elem_ids in Hi' as (g & Hg & Hid).
      apply Hadd in Hf as [_ Hf]. apply Hmod in Hg as [_ (o & Ho & Hid' & _)].
      apply Hf. apply elem_ids. exists o. split; [done | congruence].
    + eapply sublist_NoDup; [exact Hnew | apply ids_List_filter_sublist].
  - eapply sublist_NoDup; [exact Hold | apply ids_List_filter_sublist].
Qed.

Lemma keyed_set (m : Map.t FileRecord) f :
  Forall (fun e => fst e = id (snd e)) m →
  Forall (fun e => fst e = id (snd e)) (Map.set (id f) f m).
Proof.
  induction 1 as [|[k v] m Hk Hm IH]; simpl.
  - by repeat constructor.
  - case_bool_decide; constructor; simpl in *; auto; congruence.
Qed.

Lemma keyed_from l :
  Forall (fun e => fst e = id (snd e)) (Map.from (entries l)).
Proof.
  unfold Map.from.
  assert (H : ∀ m : Map.t FileRecord,
             Forall (fun e => fst e = id (snd e)) m →
             Forall (fun e => fst e = id (snd e)) (Map.setAll (entries l) m)).
  { induction l as [|f l IH]; intros m Hm; simpl; [done |].
    apply IH. by apply keyed_set. }
  apply H. constructor.
Qed.

Lemma keyed_selected (p : string * FileRecord → bool) (m : Map.t FileRecord) :
  Forall (fun e => fst e = id (snd e)) m →
  map fst (List.filter p m) = ids (map snd (List.filter p m)).
Proof.
  induction 1 as [|[k v] m Hk Hm IH]; simpl; [done |].
  destruct (p (k, v)); simpl; [| done]. simpl in Hk. by rewrite IH, Hk.
Qed.

(** [detectChanges] touches nothing but [scanStore]. *)
Lemma detectChanges_frame (s : State) (newFiles : list FileRecord) :
  let s' := snd (detectChanges newFiles s) in
  fileStore s' = fileStore s
  ∧ isAuthorized s' = isAuthorized s
  ∧ scanningJobs s' = scanningJobs s
  ∧ tasks s' = tasks s
  ∧ emitted s' = emitted s.
Proof.
  intros s'. subst s'. rewrite detectChanges_eq. cbn [snd].
  apply deleteScans_frame.
Qed.

(** The records [detectChanges] deletes from [scanStore]. *)
Lemma detectChanges_scanStore (s : State) (newFiles : list FileRecord) i :
  scanStore (snd (detectChanges newFiles s)) !! i
  = if bool_decide (i ∈ ids (modified (fst (detectChanges newFiles s)))
                    ∨ i ∈ ids (deleted (fst (detectChanges newFiles s))))
    then None else scanStore s !! i.
Proof.
  rewrite detectChanges_eq. cbn [fst snd modified deleted].
  rewrite deleteScans_lookup.
  rewrite <- !keyed_selected by apply keyed_from.
  destruct (decide (i ∈ map fst (List.filter
              (isModified (Map.from (entries (fileStore s))))
              (Map.from (entries newFiles)))
            ∨ i ∈ map fst (List.filter
              (isGone (Map.from (entries newFiles)))
              (Map.from (entries (fileStore s)))))) as [Hin | Hin].
  - rewrite !bool_decide_eq_true_2; [done | done |]. by apply elem_of_app.
  - rewrite !bool_decide_eq_false_2; [done | done |]. by rewrite elem_of_app.
Qed.

(** C3, as the code has it. [detectChanges] is not free of effects: it
    deletes from [scanStore] the records of the ids it reports as modified
    or deleted. That is its only effect: every other record of
    [scanStore], and [fileStore], [scanningJobs] and the rest of the state,
    are as before the call. *)
Theorem detectChanges_effect (s : State) (newFiles : list FileRecord) :
  let changes := fst (detectChanges newFiles s) in
  let s' := snd (detectChanges newFiles s) in
  fileStore s' = fileStore s
  ∧ isAuthorized s' = isAuthorized s
  ∧ scanningJobs s' = scanningJobs s
  ∧ tasks s' = tasks s
  ∧ emitted s' = emitted s
  ∧ ∀ i, scanStore s' !! i
         = if bool_decide (i ∈ ids (modified changes)
                           ∨ i ∈ ids (deleted changes))
           then None else scanStore s !! i.
Proof.
  intros changes s'.
  destruct (detectChanges_frame s newFiles) as (Hf & Ha & Hj & Ht & He).
  split_and!; [exact Hf | exact Ha | exact Hj | exact Ht | exact He |].
  intros i. apply detectChanges_scanStore.
Qed.

(** ** The stable sort *)

Section SortFacts.
Context {A : Type} (compareFn : A → A → Z) (key : A → Z) (P : A → Prop).
Hypothesis compareFn_key :
  ∀ x y, P x → P y → compareFn x y = (key y - key x)%Z.

Lemma sort_insert_Permutation x l : sort_insert compareFn x l ≡ₚ x :: l.
Proof.
  induction l as [|y r IH]; simpl; [done |].
  destruct (0 <? compareFn x y)%Z; [| done].
  rewrite IH. apply Permutation_swap.
Qed.

Lemma sort_Permutation l : sort compareFn l ≡ₚ l.
Proof.
  induction l as [|x r IH]; simpl; [done |].
  by rewrite sort_insert_Permutation, IH.
Qed.

Lemma sort_insert_descending x l :
  P x → Forall P l →
  StronglySorted (fun a b => (key b ≤ key a)%Z) l →
  StronglySorted (fun a b => (key b ≤ key a)%Z) (sort_insert compareFn x l).
Proof.
  intros Hx HP Hs. induction Hs as [|y r Hr IH Hy]; simpl.
  - repeat constructor.
  - apply Forall_cons in HP as [HPy HPr].
    rewrite (compareFn_key x y) by done.
    destruct (Z.ltb_spec 0 (key y - key x)) as [Hlt | Hge].
    + constructor; [by apply IH |].
      rewrite sort_insert_Permutation. constructor; [lia | done].
    + constructor; [by constructor |].
      constructor; [lia |].
      eapply Forall_impl; [exact Hy |]. simpl. intros z Hz. lia.
Qed.

Lemma sort_descending l :
  Forall P l →
  StronglySorted (fun a b => (key b ≤ key a)%Z) (sort compareFn l).
Proof.
  induction 1 as [|x r Hx Hr IH]; simpl; [constructor |].
  apply sort_insert_descending; [done | | done].
  by rewrite sort_Permutation.
Qed.

(** Elements with the same key keep their order. *)
Lemma sort_insert_stable d x l :
  P x → Forall P l →
  filter (fun a => key a = d) (sort_insert compareFn x l)
  = filter (fun a => key a = d) (x :: l).
Proof.
  intros Hx HP. induction HP as [|y r HPy HPr IH]; simpl; [done |].
  rewrite (compareFn_key x y) by done.
  destruct (Z.ltb_spec 0 (key y - key x)) as [Hlt | Hge]; [| done].
  rewrite (filter_cons _ y), IH, !(filter_cons _ x), (filter_cons _ y).
  repeat case_decide; try done; lia.
Qed.

Lemma sort_stable d l :
  Forall P l →
  filter (fun a => key a = d) (sort compareFn l)
  = filter (fun a => key a = d) l.
Proof.
  induction 1 as [|x r Hx Hr IH]; simpl; [done |].
  rewrite sort_insert_stable; [| done | by rewrite sort_Permutation].
  by rewrite !(filter_cons _ x), IH.
Qed.
End SortFacts.

(** ** The merged map of [listFiles] *)

Lemma get_app {V} (l1 l2 : Map.t V) k :
  Map.get k (l1 ++ l2)
  = match Map.get k l1 with Some v => Some v | None => Map.get k l2 end.
Proof.
  induction l1 as [|[k1 v1] l1 IH]; simpl; [done |].
  case_bool_decide; [done | apply IH].
Qed.

Lemma fold_set_entries l (m : Map.t FileRecord) :
  fold_left (fun m f => Map.set (id f) f m) l m = Map.setAll (entries l) m.
Proof. revert m. induction l as [|f l IH]; intros m; simpl; [done | apply IH]. Qed.

Lemma mergedMap_from scanFiles quarantineFiles :
  mergedMap scanFiles quarantineFiles
  = Map.from (entries (scanFiles ++ quarantineFiles)).
Proof.
  unfold mergedMap, Map.from, Map.setAll, entries.
  rewrite !fold_set_entries. unfold Map.setAll, entries.
  by rewrite map_app, fold_left_app.
Qed.

Lemma ids_values (m : Map.t FileRecord) :
  Forall (fun e => fst e = id (snd e)) m → ids (Map.values m) = Map.keys m.
Proof.
  induction 1 as [|[k v] m Hk Hm IH]; simpl; [done |].
  simpl in Hk. by rewrite IH, Hk.
Qed.

Lemma elem_values (m : Map.t FileRecord) f :
  Forall (fun e => fst e = id (snd e)) m →
  f ∈ Map.values m → (id f, f) ∈ m.
Proof.
  intros Hm. unfold Map.values. rewrite list_elem_of_In, in_map_iff.
  intros ([k v] & <- & Hin). simpl.
  rewrite Forall_forall in Hm. rewrite <- list_elem_of_In in Hin.
  specialize (Hm (k, v) Hin). simpl in Hm. by subst k.
Qed.

Lemma NoDup_keys_from {V} (es : list (string * V)) :
  NoDup (Map.keys (Map.from es)).
Proof. apply NoDup_keys_setAll. constructor. Qed.

(** Which record of the two listings the merged map holds for an id. *)
Lemma mergedMap_get scanFiles quarantineFiles i f :
  Map.get i (mergedMap scanFiles quarantineFiles) = Some f →
  id f = i
  ∧ (i ∈ ids quarantineFiles → f ∈ quarantineFiles)
  ∧ (i ∉ ids quarantineFiles → f ∈ scanFiles).
Proof.
  rewrite mergedMap_from. unfold Map.from. rewrite get_setAll. simpl.
  unfold entries at 1. rewrite map_app. fold (entries scanFiles).
  fold (entries quarantineFiles). rewrite reverse_app, get_app.
  destruct (Map.get i (reverse (entries quarantineFiles))) as [g|] eqn:Hq.
  - intros Hg. assert (g = f) as -> by (destruct (Map.get i _); congruence).
    apply get_Some_elem, elem_of_reverse, elem_entries in Hq as [Hf Hid].
    split_and!; [done | done |]. intros Hn. exfalso. apply Hn.
    apply elem_ids. by exists f.
  - apply get_None in Hq.
    assert (Hn : i ∉ ids quarantineFiles).
    { intros Hin. apply Hq. unfold Map.keys.
      rewrite <- keys_entries in Hin. unfold Map.keys in Hin.
      apply list_elem_of_fmap in Hin as (e & -> & He).
      apply list_elem_of_fmap_2. by apply elem_of_reverse. }
    destruct (Map.get i (reverse (entries scanFiles))) as [g|] eqn:Hs;
      [| done].
    intros [= ->].
    apply get_Some_elem, elem_of_reverse, elem_entries in Hs as [Hf Hid].
    split_and!; [done | done | done].
Qed.

Lemma mergedMap_values scanFiles quarantineFiles f :
  f ∈ Map.values (mergedMap scanFiles quarantineFiles) →
  Map.get (id f) (mergedMap scanFiles quarantineFiles) = Some f.
Proof.
  intros Hf. rewrite mergedMap_from in *.
  apply elem_get; [apply NoDup_keys_from |].
  apply elem_values; [apply keyed_from | done].
Qed.

Lemma source_tag src l f : f ∈ map (tag src) l → source f = src.
Proof.
  rewrite list_elem_of_In, in_map_iff. by intros (g & <- & _).
Qed.

(** ** Folder tests and lookups *)

Lemma is_folder_true FOLDER_ID targetFolderId :
  FOLDER_ID = Some targetFolderId → truthy targetFolderId = true →
  is_folder FOLDER_ID targetFolderId = true.
Proof.
  intros -> Ht. unfold is_folder. simpl. rewrite Ht.
  by rewrite bool_decide_eq_true_2.
Qed.

Lemma is_folder_false FOLDER_ID targetFolderId :
  FOLDER_ID ≠ Some targetFolderId →
  is_folder FOLDER_ID targetFolderId = false.
Proof.
  intros Hne. unfold is_folder. rewrite bool_decide_eq_false_2 by done.
  apply andb_false_r.
Qed.

Lemma findById_Some fileId l f :
  NoDup (ids l) → f ∈ l → id f = fileId → findById fileId l = Some f.
Proof.
  induction l as [|g l IH]; simpl; intros Hnd Hf Hid;
    [by apply elem_of_nil in Hf |].
  apply NoDup_cons in Hnd as [Hfresh Hnd].
  apply elem_of_cons in Hf as [-> | Hf].
  - by rewrite bool_decide_eq_true_2.
  - rewrite bool_decide_eq_false_2; [by apply IH |].
    intros Hg. apply Hfresh. apply elem_ids. exists f. split; [done |].
    congruence.
Qed.

Lemma findById_None fileId l : fileId ∉ ids l → findById fileId l = None.
Proof.
  induction l as [|f l IH]; simpl; [done |].
  rewrite not_elem_of_cons. intros [Hne Hl].
  rewrite bool_decide_eq_false_2 by congruence. auto.
Qed.

(** ** Scan sequences: the abstract machine *)

Lemma count_app {A} (p : A → bool) l1 l2 :
  count p (l1 ++ l2) = count p l1 + count p l2.
Proof. unfold count. by rewrite List.filter_app, length_app. Qed.

Lemma count_snoc {A} (p : A → bool) l x :
  count p (l ++ [x]) = count p l + (if p x then 1 else 0).
Proof. rewrite count_app. unfold count. simpl. by destruct (p x). Qed.

Lemma count_delete {A} (p : A → bool) (l : list A) n x :
  l !! n = Some x →
  count p l = (if p x then 1 else 0) + count p (delete n l).
Proof.
  revert n. induction l as [|y l IH]; intros [|n] Hn; try done.
  - injection Hn as ->. unfold count. simpl. by destruct (p x).
  - simpl in Hn. change (delete (S n) (y :: l)) with (y :: delete n l).
    specialize (IH n Hn).
    unfold count in *. simpl. destruct (p y), (p x); simpl in *;
      congruence.
Qed.

Lemma AStep_exclusive a a' : AStep a a' → exclusive a → exclusive a'.
Proof.
  unfold exclusive. destruct 1; simpl; intros [H1 H2]; split;
    try done; try lia; intros; try lia; try done.
  all: try (apply H2; lia).
Qed.

(** The account: a verdict given or still due for every sequence started. *)
Lemma AStep_account a a' :
  AStep a a' →
  judged a' + waiting a'
  = judged a + waiting a
    + (if negb (locked a) && locked a' then 1 else 0).
Proof. destruct 1; simpl; try destruct L; try destruct (locked a); simpl; lia. Qed.

Lemma AStep_same a a' :
  locked a' = locked a → flying a' = flying a → waiting a' = waiting a →
  judged a' = judged a → AStep a a'.
Proof.
  destruct a, a'; simpl. intros -> -> -> ->. constructor.
Qed.

Lemma AStep_same_abstract fileId s s' :
  abstract fileId s' = abstract fileId s →
  AStep (abstract fileId s) (abstract fileId s').
Proof. intros ->. constructor. Qed.

Lemma AStep_started a a' :
  locked a = false → locked a' = true → flying a' = S (flying a) →
  waiting a' = S (waiting a) → judged a' = judged a → AStep a a'.
Proof.
  destruct a, a'; simpl. intros -> -> -> -> ->. constructor.
Qed.

Lemma AStep_verdict_move a a' :
  locked a' = locked a → flying a' = flying a →
  waiting a = S (waiting a') → judged a' = S (judged a) → AStep a a'.
Proof.
  destruct a, a'; simpl. intros -> -> -> ->. constructor.
Qed.

Lemma AStep_verdict_done a a' :
  locked a' = false → flying a = S (flying a') →
  waiting a = S (waiting a') → judged a' = S (judged a) → AStep a a'.
Proof.
  destruct a, a'; simpl. intros -> -> -> ->. constructor.
Qed.

Lemma AStep_settled a a' :
  locked a' = false → flying a = S (flying a') →
  waiting a' = waiting a → judged a' = judged a → AStep a a'.
Proof.
  destruct a, a'; simpl. intros -> -> -> ->. constructor.
Qed.

(** ** Scan sequences: what the code does to the abstraction *)

Lemma held_add_ne (i j : string) (X : gset string) :
  i ≠ j → bool_decide (i ∈ {[j]} ∪ X) = bool_decide (i ∈ X).
Proof.
  intros Hne. apply bool_decide_ext.
  rewrite elem_of_union, elem_of_singleton. tauto.
Qed.

Lemma held_add_eq (i : string) (X : gset string) :
  bool_decide (i ∈ {[i]} ∪ X) = true.
Proof.
  apply bool_decide_eq_true_2. rewrite elem_of_union, elem_of_singleton. auto.
Qed.

Lemma held_remove_ne (i j : string) (X : gset string) :
  i ≠ j → bool_decide (i ∈ X ∖ {[j]}) = bool_decide (i ∈ X).
Proof.
  intros Hne. apply bool_decide_ext.
  rewrite elem_of_difference, elem_of_singleton. tauto.
Qed.

Lemma held_remove_eq (i : string) (X : gset string) :
  bool_decide (i ∈ X ∖ {[i]}) = false.
Proof.
  apply bool_decide_eq_false_2.
  rewrite elem_of_difference, elem_of_singleton. tauto.
Qed.

(** A change that leaves the jobs and the waiting callbacks alone and
    announces no verdict for the file. *)
Lemma abstract_quiet fileId s s' sent :
  scanningJobs s' = scanningJobs s → tasks s' = tasks s →
  emitted s' = emitted s ++ sent → count (isVerdictOf fileId) sent = 0 →
  abstract fileId s' = abstract fileId s.
Proof.
  intros Hj Ht He Hs. unfold abstract, inFlight, awaitingVerdict, verdicts.
  rewrite Hj, Ht, He, count_app, Hs. by rewrite Nat.add_0_r.
Qed.

Lemma simulateScan_holds now i s j :
  j ∈ scanningJobs s → j ∈ scanningJobs (simulateScan now i s).
Proof.
  unfold simulateScan. case_bool_decide; [done |]. simpl.
  rewrite elem_of_union. auto.
Qed.

Lemma sameOrStarted_AStep a a' : sameOrStarted a a' → AStep a a'.
Proof.
  intros [-> | (H1 & H2 & H3 & H4 & H5)]; [constructor |].
  by apply AStep_started.
Qed.

Lemma sameOrStarted_trans a b c :
  sameOrStarted a b → sameOrStarted b c → sameOrStarted a c.
Proof.
  intros [-> | Hab] [-> | Hbc]; [by left | by right | by right |].
  destruct Hab as (_ & Hb & _), Hbc as (Hb' & _). congruence.
Qed.

Lemma simulateScan_sameOrStarted fileId now i s :
  sameOrStarted (abstract fileId s) (abstract fileId (simulateScan now i s)).
Proof.
  unfold simulateScan. case_bool_decide as Hheld; [by left |].
  destruct (decide (fileId = i)) as [-> | Hne].
  - right. unfold abstract, inFlight, awaitingVerdict, verdicts;
      simpl; rewrite ?count_snoc; simpl. unfold ofFile. simpl.
    rewrite !(bool_decide_eq_true_2 (i = i)) by done. split_and!.
    + by apply bool_decide_eq_false_2.
    + apply held_add_eq.
    + lia.
    + lia.
    + lia.
  - left. unfold abstract, inFlight, awaitingVerdict, verdicts;
      simpl; rewrite ?count_snoc; simpl. unfold ofFile. simpl.
    rewrite held_add_ne by done.
    rewrite !(bool_decide_eq_false_2 (i = fileId)) by done.
    by rewrite !Nat.add_0_r.
Qed.

Lemma simulateScan_refines fileId now i s :
  AStep (abstract fileId s) (abstract fileId (simulateScan now i s)).
Proof. apply sameOrStarted_AStep, simulateScan_sameOrStarted. Qed.

Lemma pollFolder_scans_sameOrStarted fileId now toScan s :
  sameOrStarted (abstract fileId s)
    (abstract fileId
       (fold_left (fun s file =>
          let i := id file in
          if bool_decide (i ∈ scanningJobs s) then s
          else simulateScan now i
                 (writeScan i
                    {| status := scanning; lastScannedAt := None |} s))
          toScan s)).
Proof.
  revert s. induction toScan as [|file toScan IH]; intros s; [by left |].
  cbn [fold_left]. eapply sameOrStarted_trans; [| apply IH].
  cbn zeta. case_bool_decide; [by left |].
  apply (simulateScan_sameOrStarted fileId now (id file)
           (writeScan (id file) _ s)).
Qed.

Lemma on_rescan_file_refines fileId now data s :
  AStep (abstract fileId s) (abstract fileId (on_rescan_file now data s)).
Proof.
  unfold on_rescan_file. destruct data as [i|]; [| constructor].
  destruct (truthy i); [| constructor]. cbn [negb].
  set (s1 := emitFileList 0 0 0 now (writeScan i _ s)).
  assert (Hs1 : abstract fileId s1 = abstract fileId s)
    by (eapply abstract_quiet with (sent := [_]); done).
  destruct (bool_decide (i ∈ scanningJobs s)); cbn [negb].
  - rewrite Hs1. constructor.
  - rewrite <- Hs1. apply simulateScan_refines.
Qed.

Lemma on_delete_file_refines fileId drive now data s :
  (data = Some fileId → ∃ e, files_delete drive fileId = rejected e) →
  AStep (abstract fileId s)
    (abstract fileId (on_delete_file drive now data s)).
Proof.
  intros Hrefused. apply AStep_same_abstract. unfold on_delete_file.
  destruct data as [i|]; [| done]. simpl.
  destruct (truthy i); [| done].
  destruct (isAuthorized s); cbn [negb];
    [| eapply abstract_quiet with (sent := [_]); done].
  destruct (files_delete drive i) as [u | e] eqn:Hdel;
    [| eapply abstract_quiet with (sent := [_]); done].
  assert (Hne : fileId ≠ i).
  { intros ->. destruct (Hrefused eq_refl) as [e He]. congruence. }
  unfold abstract, inFlight, awaitingVerdict, verdicts. simpl.
  rewrite held_remove_ne by done.
  by rewrite <- app_assoc, count_app, Nat.add_0_r.
Qed.

Lemma finalStatus_verdict toLowerCase fileId i nm now msg :
  isVerdictOf fileId (scan_complete i (finalStatus toLowerCase nm) now msg)
  = bool_decide (i = fileId).
Proof. unfold finalStatus. by destruct (isEicarish toLowerCase nm). Qed.

(** ** The merged map, in the order of the listings *)

Lemma omap_agree {A B} (f g : A → option B) (l : list A) :
  (∀ x, x ∈ l → f x = g x) → omap f l = omap g l.
Proof.
  induction l as [|x l IH]; intros H; [done |]. cbn [omap list_omap].
  rewrite (H x) by apply list_elem_of_here.
  rewrite IH; [done |]. intros y Hy. apply H. by apply list_elem_of_further.
Qed.

Lemma filter_agree {A} (P Q : A → Prop) `{∀ x, Decision (P x)}
    `{∀ x, Decision (Q x)} (l : list A) :
  (∀ x, x ∈ l → P x ↔ Q x) → filter P l = filter Q l.
Proof.
  induction l as [|x l IH]; intros Hl; [done |].
  assert (Hx : P x ↔ Q x) by (apply Hl, list_elem_of_here).
  assert (Hr : filter P l = filter Q l).
  { apply IH. intros y Hy. apply Hl. by apply list_elem_of_further. }
  destruct (decide (P x)) as [HP | HP].
  - rewrite !filter_cons_True by tauto. by rewrite Hr.
  - rewrite !filter_cons_False by tauto. done.
Qed.

Lemma filter_all {A} (P : A → Prop) `{∀ x, Decision (P x)} (l : list A) :
  (∀ x, x ∈ l → P x) → filter P l = l.
Proof.
  induction l as [|x l IH]; intros Hl; [done |].
  rewrite filter_cons_True by apply Hl, list_elem_of_here.
  rewrite IH; [done |]. intros y Hy. apply Hl. by apply list_elem_of_further.
Qed.

(** The keys of a map built by [set] are in the order of their first
    insertion. *)
Lemma keys_setAll_first {V} (es : list (string * V)) (m : Map.t V) :
  Map.keys (Map.setAll es m)
  = Map.keys m
    ++ filter (fun k => k ∉ Map.keys m) (firstOccurrences (map fst es)).
Proof.
  revert m. induction es as [|[k v] es IH]; intros m.
  - simpl. by rewrite filter_nil, app_nil_r.
  - change (Map.setAll ((k, v) :: es) m) with (Map.setAll es (Map.set k v m)).
    rewrite IH, keys_set. cbn [map fst firstOccurrences].
    destruct (decide (k ∈ Map.keys m)) as [Hin | Hout].
    + rewrite (bool_decide_eq_true_2 _ Hin).
      rewrite filter_cons_False by tauto. f_equal.
      rewrite list_filter_filter. apply filter_agree.
      intros x _. split; [| tauto]. intros Hx. split; [done |].
      intros ->. done.
    + rewrite (bool_decide_eq_false_2 _ Hout).
      rewrite filter_cons_True by done. rewrite <- app_assoc. f_equal.
      cbn [app]. f_equal. rewrite list_filter_filter. apply filter_agree.
      intros x _. rewrite elem_of_app, list_elem_of_singleton. tauto.
Qed.

Lemma values_by_key {V} (m : Map.t V) :
  NoDup (Map.keys m) →
  Map.values m = omap (fun k => Map.get k m) (Map.keys m).
Proof.
  induction m as [|[k v] m IH]; intros Hnd; [done |].
  cbn [Map.keys map fst] in Hnd. apply NoDup_cons in Hnd as [Hfresh Hnd].
  cbn [Map.values Map.keys map fst snd omap list_omap Map.get].
  rewrite bool_decide_eq_true_2 by done. f_equal.
  fold (Map.values m). fold (Map.keys m). rewrite IH by done.
  apply omap_agree. intros k' Hk'.
  rewrite bool_decide_eq_false_2; [done |]. intros ->. done.
Qed.

Lemma get_entries_findById k l : Map.get k (entries l) = findById k l.
Proof.
  induction l as [|f l IH]; simpl; [done |]. by rewrite IH.
Qed.

Lemma entries_reverse l : entries (reverse l) = reverse (entries l).
Proof.
  induction l as [|f l IH]; [done |].
  cbn [entries map]. rewrite !reverse_cons. unfold entries in *.
  by rewrite map_app, IH.
Qed.

Lemma findById_app i l1 l2 :
  findById i (l1 ++ l2)
  = match findById i l1 with Some f => Some f | None => findById i l2 end.
Proof.
  induction l1 as [|f l1 IH]; simpl; [done |].
  case_bool_decide; [done | apply IH].
Qed.

(** The merged map of [listFiles] is the one the design document
    describes. *)
Lemma mergedMap_in_listing_order scanFiles quarantineFiles :
  Map.values (mergedMap scanFiles quarantineFiles)
  = mergedInListingOrder scanFiles quarantineFiles.
Proof.
  rewrite mergedMap_from, values_by_key by apply NoDup_keys_from.
  unfold Map.from. rewrite keys_setAll_first.
  cbn [Map.keys map app]. rewrite filter_all by (intros; apply not_elem_of_nil).
  fold (Map.keys (entries (scanFiles ++ quarantineFiles))).
  rewrite keys_entries. unfold mergedInListingOrder, ids at 1.
  rewrite map_app. fold (ids scanFiles) (ids quarantineFiles).
  apply omap_agree. intros i _.
  rewrite get_setAll. cbn [Map.get].
  rewrite <- entries_reverse, get_entries_findById, reverse_app, findById_app.
  by destruct (findById i (reverse quarantineFiles)),
    (findById i (reverse scanFiles)).
Qed.

(** ** Sorting by an order *)

Lemma StronglySorted_among {A} (R R' : A → A → Prop) (P : A → Prop) l :
  StronglySorted R l → Forall P l →
  (∀ a b, P a → P b → R a b → R' a b) → StronglySorted R' l.
Proof.
  intros Hs HP Himpl. induction Hs as [|x l Hs IH Hx]; [constructor |].
  apply Forall_cons in HP as [HPx HPl]. constructor; [by apply IH |].
  rewrite Forall_forall in *. intros y Hy. apply Himpl; auto.
Qed.

Section SortOrder.
Context {A : Type} (compareFn : A → A → Z) (P : A → Prop).
Hypothesis compareFn_one_way :
  ∀ x y, P x → P y → (0 < compareFn x y → compareFn y x ≤ 0)%Z.
Hypothesis compareFn_trans :
  ∀ x y z, P x → P y → P z →
    (compareFn x y ≤ 0 → compareFn y z ≤ 0 → compareFn x z ≤ 0)%Z.

Lemma sort_insert_ordered x l :
  P x → Forall P l →
  StronglySorted (fun a b => (compareFn a b ≤ 0)%Z) l →
  StronglySorted (fun a b => (compareFn a b ≤ 0)%Z) (sort_insert compareFn x l).
Proof.
  intros Hx HP Hs. induction Hs as [|y r Hr IH Hy]; simpl.
  - repeat constructor.
  - apply Forall_cons in HP as [HPy HPr].
    destruct (Z.ltb_spec 0 (compareFn x y)) as [Hlt | Hge].
    + constructor; [by apply IH |].
      rewrite sort_insert_Permutation. constructor; [| done].
      by apply compareFn_one_way.
    + constructor; [by constructor |].
      constructor; [done |].
      rewrite Forall_forall in *. intros z Hz.
      apply (compareFn_trans x y z); auto.
Qed.

Lemma sort_ordered l :
  Forall P l →
  StronglySorted (fun a b => (compareFn a b ≤ 0)%Z) (sort compareFn l).
Proof.
  induction 1 as [|x r Hx Hr IH]; simpl; [constructor |].
  apply sort_insert_ordered; [done | | done].
  by rewrite sort_Permutation.
Qed.
End SortOrder.

(** ** The snapshot of [listFiles] *)

Section SnapshotFacts.
Context (Date_parse : string → option Z).
Context (localeCompare : string → string → Z).
Local Abbreviation compareFiles := (compareFiles Date_parse localeCompare).
Local Abbreviation mergeListings := (mergeListings Date_parse localeCompare).

Lemma compareFiles_dated a b :
  dated Date_parse a → dated Date_parse b →
  compareFiles a b = (instant Date_parse b - instant Date_parse a)%Z.
Proof.
  intros [Ha [ta Hta]] [Hb [tb Htb]]. unfold compareFiles, instant.
  unfold timeOf in *. by rewrite Ha, Hb, Hta, Htb.
Qed.

Lemma compareFiles_undated a b :
  undated a ∨ undated b →
  compareFiles a b = localeCompare (name b) (name a).
Proof.
  unfold compareFiles, undated. intros [-> | ->]; [done |].
  by rewrite andb_false_r.
Qed.

Lemma mergedInListingOrder_from scanFiles quarantineFiles f :
  f ∈ mergedInListingOrder scanFiles quarantineFiles →
  f ∈ scanFiles ∨ f ∈ quarantineFiles.
Proof.
  unfold mergedInListingOrder. rewrite list_elem_of_omap.
  intros (i & _ & Hf).
  destruct (findById i (reverse quarantineFiles)) as [g|] eqn:Hq.
  - injection Hf as ->. right. unfold findById in Hq.
    apply find_some in Hq as [Hq _]. rewrite <- list_elem_of_In in Hq.
    by apply elem_of_reverse.
  - left. unfold findById in Hf.
    apply find_some in Hf as [Hf _]. rewrite <- list_elem_of_In in Hf.
    by apply elem_of_reverse.
Qed.

(** C5, as the code has it. The merged snapshot holds every listed id
    exactly once, with the record of the quarantine listing when the id is
    in both. When every listed record carries a valid [modifiedTime] the
    snapshot is in descending order of the modification instant, and
    records modified at the same instant stay in the order of the
    listings: the ids as the scan listing and then the quarantine listing
    first name them, whatever the names. Names are compared only for a
    record without [modifiedTime]: when no listed record has one, the
    snapshot is in descending order of the names, and of two listed
    records of which one has none, the one with the greater name comes
    first. *)
Theorem mergeListings_snapshot (scanListing quarantineListing : list DriveFile) :
  let scanFiles := map (tag scan) scanListing in
  let quarantineFiles := map (tag quarantine) quarantineListing in
  let snapshot := mergeListings scanFiles quarantineFiles in
  NoDup (ids snapshot)
  ∧ (∀ i, i ∈ ids snapshot ↔ i ∈ ids scanFiles ∨ i ∈ ids quarantineFiles)
  ∧ (∀ f, f ∈ snapshot →
       if decide (id f ∈ ids quarantineFiles)
       then f ∈ quarantineFiles ∧ source f = quarantine
       else f ∈ scanFiles ∧ source f = scan)
  ∧ (Forall (dated Date_parse) (scanFiles ++ quarantineFiles) →
     StronglySorted (notNewer Date_parse) snapshot
     ∧ ∀ d, filter (fun f => instant Date_parse f = d) snapshot
            = filter (fun f => instant Date_parse f = d)
                (mergedInListingOrder scanFiles quarantineFiles))
  ∧ (Forall undated (scanFiles ++ quarantineFiles) →
     ordersNames localeCompare →
     StronglySorted (nameNotGreater localeCompare) snapshot)
  ∧ (∀ x y, df_id x ≠ df_id y →
       undated (tag scan x) ∨ undated (tag scan y) →
       mergeListings [tag scan x; tag scan y] []
       = if (0 <? localeCompare (df_name y) (df_name x))%Z
         then [tag scan y; tag scan x] else [tag scan x; tag scan y]).
Proof.
  intros scanFiles quarantineFiles snapshot.
  assert (Hsnap : snapshot
            = sort compareFiles
                (mergedInListingOrder scanFiles quarantineFiles)).
  { subst snapshot. unfold mergeListings.
    by rewrite mergedMap_in_listing_order. }
  assert (Hperm : snapshot ≡ₚ Map.values (mergedMap scanFiles quarantineFiles))
    by apply sort_Permutation.
  assert (Hids : ids snapshot ≡ₚ Map.keys (mergedMap scanFiles quarantineFiles)).
  { unfold ids at 1. rewrite Hperm. fold (ids (Map.values (mergedMap
      scanFiles quarantineFiles))). rewrite mergedMap_from.
    by rewrite ids_values by apply keyed_from. }
  assert (Hwins : ∀ f, f ∈ Map.values (mergedMap scanFiles quarantineFiles) →
            if decide (id f ∈ ids quarantineFiles)
            then f ∈ quarantineFiles ∧ source f = quarantine
            else f ∈ scanFiles ∧ source f = scan).
  { intros f Hf. apply mergedMap_values, mergedMap_get in Hf as (_ & Hq & Hs).
    case_decide as Hin.
    - split; [auto |]. eapply source_tag. apply (Hq Hin).
    - split; [auto |]. eapply source_tag. apply (Hs Hin). }
  assert (Hall : ∀ Q : FileRecord → Prop,
            Forall Q (scanFiles ++ quarantineFiles) →
            Forall Q (mergedInListingOrder scanFiles quarantineFiles)).
  { intros Q HQ. rewrite Forall_forall in *. intros f Hf. apply HQ.
    apply elem_of_app. by apply mergedInListingOrder_from. }
  split_and!.
  - rewrite Hids, mergedMap_from. apply NoDup_keys_from.
  - intros i. rewrite Hids, mergedMap_from. unfold Map.from.
    rewrite elem_keys_setAll. fold (Map.keys (entries (scanFiles ++ quarantineFiles))).
    rewrite keys_entries. unfold ids. rewrite map_app, elem_of_app.
    unfold Map.keys. simpl. rewrite elem_of_nil. tauto.
  - intros f Hf. apply Hwins. by rewrite <- Hperm.
  - intros Hdated. rewrite Hsnap. split.
    + apply (sort_descending compareFiles (instant Date_parse)
               (dated Date_parse) compareFiles_dated
               _ (Hall _ Hdated)).
    + intros d.
      apply (sort_stable compareFiles (instant Date_parse)
               (dated Date_parse) compareFiles_dated
               d _ (Hall _ Hdated)).
  - intros Hundated [Hone Htrans]. rewrite Hsnap.
    assert (Hs : StronglySorted (fun a b => (compareFiles a b ≤ 0)%Z)
                   (sort compareFiles
                      (mergedInListingOrder scanFiles quarantineFiles))).
    { apply (sort_ordered compareFiles undated); [| | by apply Hall].
      - intros a b Ha Hb. rewrite !compareFiles_undated by auto. apply Hone.
      - intros a b c Ha Hb Hc. rewrite !compareFiles_undated by auto.
        intros H1 H2. by apply (Htrans _ (name b)). }
    eapply StronglySorted_among; [exact Hs | |].
    + rewrite sort_Permutation. by apply Hall.
    + intros a b Ha Hb. unfold nameNotGreater.
      by rewrite compareFiles_undated by auto.
  - intros x y Hne Hun. unfold mergeListings, mergedMap. simpl.
    rewrite bool_decide_eq_false_2 by done. simpl.
    rewrite compareFiles_undated by tauto. done.
Qed.
End SnapshotFacts.

(** ** The verdict of a scan *)

Section VerdictFacts.
Context (SCAN_FOLDER_ID QUARANTINE_FOLDER_ID : option string).
Context (toLowerCase : list N → list N).
Local Abbreviation isEicarish := (isEicarish toLowerCase).
Local Abbreviation finalStatus := (finalStatus toLowerCase).
Local Abbreviation onPendingTimeout :=
  (onPendingTimeout SCAN_FOLDER_ID QUARANTINE_FOLDER_ID toLowerCase).

(** C8. When the id is not in [fileStore] at the time the inner callback
    runs, the verdict is taken over the empty name, which is not flagged:
    the callback writes [{ status: 'clean', lastScannedAt: now }] for the
    id, announces it, starts no move and releases the job. *)
Theorem verdict_of_vanished_file (now fileId : string) (s : State) :
  fileId ∉ ids (fileStore s) →
  let s' := onPendingTimeout now fileId s in
  isEicarish "" = false
  ∧ scanStore s' !! fileId
    = Some {| status := clean; lastScannedAt := Some now |}
  ∧ scan_complete fileId clean now "File is clean" ∈ emitted s'
  ∧ tasks s' = tasks s
  ∧ fileId ∉ scanningJobs s'.
Proof.
  intros Hgone s'. subst s'. unfold onPendingTimeout.
  rewrite (findById_None _ _ Hgone).
  change (isEicarish "") with false. change (finalStatus "") with clean.
  cbn [andb negb]. rewrite bool_decide_eq_false_2 by done. cbn [andb negb].
  assert (Hend : ∀ s1,
    scanStore s1 !! fileId
      = Some {| status := clean; lastScannedAt := Some now |} →
    scan_complete fileId clean now "File is clean" ∈ emitted s1 →
    tasks s1 = tasks s →
    scanStore (releaseJob fileId s1) !! fileId
      = Some {| status := clean; lastScannedAt := Some now |}
    ∧ scan_complete fileId clean now "File is clean"
        ∈ emitted (releaseJob fileId s1)
    ∧ tasks (releaseJob fileId s1) = tasks s
    ∧ fileId ∉ scanningJobs (releaseJob fileId s1)).
  { intros s1 H1 H2 H3. split_and!; [done | done | done |].
    unfold releaseJob. simpl.
    rewrite elem_of_difference, elem_of_singleton. tauto. }
  split; [done |]. apply Hend; [apply lookup_insert_eq | | done].
  simpl. rewrite !elem_of_app. left. right. apply list_elem_of_here.
Qed.

(** What the inner callback leaves behind: the terminal record, its
    announcement and a file list; then either the job is released or the
    callback waits for a move. *)
Lemma onPendingTimeout_shape now i s :
  ∃ s1 nm msg files,
    scanningJobs s1 = scanningJobs s ∧ tasks s1 = tasks s
    ∧ emitted s1
      = emitted s ++ [scan_complete i (finalStatus nm) now msg;
                      file_list files now 0 0 0]
    ∧ (onPendingTimeout now i s = releaseJob i s1
       ∨ ∃ targetFolderId restore,
           onPendingTimeout now i s
           = schedule (awaitingMove i targetFolderId restore) s1).
Proof.
  unfold onPendingTimeout.
  set (nm := match findById i (fileStore s) with
             | Some f => name f | None => "" end).
  set (s1 := emitFileList 0 0 0 now _).
  exists s1, nm, (if isEicarish nm
                  then "File flagged as infected (EICAR-like pattern)"
                  else "File is clean"), (filesForClients
    (emit (scan_complete i (finalStatus nm) now
             (if isEicarish nm
              then "File flagged as infected (EICAR-like pattern)"
              else "File is clean"))
       (writeScan i {| status := finalStatus nm; lastScannedAt := Some now |}
          s))).
  split_and!; [done | done | by subst s1; simpl; rewrite <- app_assoc |].
  repeat match goal with
         | |- context [match ?x with Some _ => _ | None => _ end] =>
             destruct x
         end; eauto.
Qed.

Lemma onPendingTimeout_record now fileId s :
  scanStore (onPendingTimeout now fileId s) !! fileId
  = Some {| status := finalStatus
                        match findById fileId (fileStore s) with
                        | Some f => name f
                        | None => ""
                        end;
            lastScannedAt := Some now |}.
Proof.
  unfold onPendingTimeout.
  repeat match goal with
         | |- context [match ?x with Some _ => _ | None => _ end] =>
             destruct x
         end; apply lookup_insert_eq.
Qed.

(** What the inner callback writes and announces for a file that is in
    [fileStore]. *)
Lemma onPendingTimeout_verdict now fileId s f :
  NoDup (ids (fileStore s)) → f ∈ fileStore s → id f = fileId →
  scanStore (onPendingTimeout now fileId s) !! fileId
  = Some {| status := finalStatus (name f); lastScannedAt := Some now |}
  ∧ ∃ message,
      scan_complete fileId (finalStatus (name f)) now message
      ∈ emitted (onPendingTimeout now fileId s).
Proof.
  intros Hnd Hf Hid.
  pose proof (findById_Some fileId _ f Hnd Hf Hid) as Hfind.
  split; [by rewrite onPendingTimeout_record, Hfind |].
  destruct (onPendingTimeout_shape now fileId s)
    as (s1 & nm & msg & files & _ & _ & He & Hend).
  revert He Hend. unfold onPendingTimeout. rewrite Hfind. intros He Hend.
  eexists.
  repeat match goal with
         | |- context [match ?x with Some _ => _ | None => _ end] =>
             destruct x
         end; simpl; rewrite !elem_of_app, !list_elem_of_singleton; auto.
Qed.

(** C1, as the code has it. The status a scan ends with is [infected]
    exactly when the letters e, i, c, a, r occur in that order, not
    necessarily next to each other, in the lower-case form of the file's
    name: each as the letter itself, as its capital or, for i, as U+0130.
    A name that has the letters in either case is therefore flagged, and
    one flagged without them has U+0130 for its i. The record the scan
    writes and the status it announces are that function of the name of
    the file's record in [fileStore], with nothing else consulted. *)
Theorem verdict_by_name :
  lowersLetters toLowerCase →
  (∀ name, finalStatus name = infected
           ↔ occursLowered (codeUnits "eicar") name)
  ∧ (∀ name, finalStatus name = clean
             ↔ ¬ occursLowered (codeUnits "eicar") name)
  ∧ (∀ t c, t ∈ codeUnits "eicar" →
            countsAs t c
            ↔ matchesLetter t c ∨ (t = 105%N ∧ c = dottedCapitalI))
  ∧ (∀ name, occursIgnoringCase (codeUnits "eicar") name →
             finalStatus name = infected)
  ∧ (∀ now fileId s f,
       NoDup (ids (fileStore s)) → f ∈ fileStore s → id f = fileId →
       scanStore (onPendingTimeout now fileId s) !! fileId
       = Some {| status := finalStatus (name f); lastScannedAt := Some now |}
       ∧ ∃ message,
           scan_complete fileId (finalStatus (name f)) now message
           ∈ emitted (onPendingTimeout now fileId s)).
Proof.
  intros Hlower. fold target.
  assert (Hflag : ∀ nm, finalStatus nm = infected
                        ↔ occursLowered target nm).
  { intros nm. rewrite <- (isEicarish_spec toLowerCase nm Hlower).
    unfold finalStatus. by destruct (isEicarish nm). }
  split_and!.
  - exact Hflag.
  - intros nm. rewrite <- Hflag. unfold finalStatus.
    destruct (isEicarish nm); split; try done; tauto.
  - apply countsAs_spec.
  - intros nm Hnm. by apply Hflag, occursIgnoringCase_lowered.
  - apply onPendingTimeout_verdict.
Qed.
End VerdictFacts.

(** ** Moves, handlers and the event loop *)

Section ServerFacts.
Context (SCAN_FOLDER_ID QUARANTINE_FOLDER_ID : option string).
Context (Date_parse : string → option Z).
Context (localeCompare : string → string → Z).
Context (toLowerCase : list N → list N).
Local Abbreviation isEicarish := (isEicarish toLowerCase).
Local Abbreviation finalStatus := (finalStatus toLowerCase).
Local Abbreviation listFiles :=
  (listFiles SCAN_FOLDER_ID QUARANTINE_FOLDER_ID Date_parse localeCompare).
Local Abbreviation moveFileById :=
  (moveFileById SCAN_FOLDER_ID QUARANTINE_FOLDER_ID Date_parse localeCompare).
Local Abbreviation onPendingTimeout :=
  (onPendingTimeout SCAN_FOLDER_ID QUARANTINE_FOLDER_ID toLowerCase).
Local Abbreviation onMoveSettled :=
  (onMoveSettled SCAN_FOLDER_ID QUARANTINE_FOLDER_ID Date_parse localeCompare).
Local Abbreviation runTask :=
  (runTask SCAN_FOLDER_ID QUARANTINE_FOLDER_ID Date_parse localeCompare
     toLowerCase).
Local Abbreviation pollFolder :=
  (pollFolder SCAN_FOLDER_ID QUARANTINE_FOLDER_ID Date_parse localeCompare).
Local Abbreviation on_move_file :=
  (on_move_file SCAN_FOLDER_ID QUARANTINE_FOLDER_ID Date_parse localeCompare).
Local Abbreviation step :=
  (step SCAN_FOLDER_ID QUARANTINE_FOLDER_ID Date_parse localeCompare
     toLowerCase).
Local Abbreviation exec :=
  (exec SCAN_FOLDER_ID QUARANTINE_FOLDER_ID Date_parse localeCompare
     toLowerCase).
Local Abbreviation sequencesStarted :=
  (sequencesStarted SCAN_FOLDER_ID QUARANTINE_FOLDER_ID Date_parse
     localeCompare toLowerCase).

(** C6. When the parents Drive reports for the file already include the
    target folder, [moveFileById] answers [{ success: true, unchanged: true,
    name }], has sent the one metadata request and no update, and leaves
    the whole state, [fileStore] and [scanStore] included, as it was. *)
Theorem moveFileById_already_there (drive : Drive) (now fileId
    targetFolderId : string) (s : State) (meta : Meta) :
  files_get_parents drive fileId = resolved meta →
  targetFolderId ∈ default [] (meta_parents meta) →
  moveFileById drive now fileId targetFolderId s
  = (move_unchanged (meta_name meta), s, [call_get_parents fileId]).
Proof.
  intros Hmeta Hin. unfold moveFileById. rewrite Hmeta.
  unfold includes. by rewrite bool_decide_eq_true_2.
Qed.

Lemma moveFileById_quarantine drive now fileId targetFolderId s parents s' sent :
  QUARANTINE_FOLDER_ID = Some targetFolderId →
  truthy targetFolderId = true →
  SCAN_FOLDER_ID ≠ Some targetFolderId →
  moveFileById drive now fileId targetFolderId s = (move_done parents, s', sent) →
  scanStore s' !! fileId
  = Some {| status := infected; lastScannedAt := Some now |}.
Proof.
  intros Hq Ht Hs. unfold moveFileById.
  destruct (files_get_parents drive fileId) as [meta | e]; [| done].
  destruct (includes targetFolderId _); [done |].
  destruct (files_update drive fileId targetFolderId _) as [ps | e]; [| done].
  rewrite (is_folder_true _ _ Hq Ht), (is_folder_false _ _ Hs).
  intros [= _ <- _]. unfold writeScan. simpl. apply lookup_insert_eq.
Qed.

(** C9. With distinct scan and quarantine folders, a move to the
    quarantine folder that Drive carried out ([moveFileById] answers
    [{ success: true, parents }]) leaves the file's record of [scanStore]
    at [infected] with [lastScannedAt] the time of the move, whatever the
    record was; so does the ['move_file'] handler that made the move for
    an authorized client. *)
Theorem move_to_quarantine_marks_infected (drive : Drive)
    (now fileId targetFolderId : string) (s s' : State)
    (parents : option (list string)) (sent : list DriveCall) :
  QUARANTINE_FOLDER_ID = Some targetFolderId →
  truthy targetFolderId = true →
  SCAN_FOLDER_ID ≠ Some targetFolderId →
  moveFileById drive now fileId targetFolderId s = (move_done parents, s', sent) →
  scanStore s' !! fileId
  = Some {| status := infected; lastScannedAt := Some now |}
  ∧ (truthy fileId = true → isAuthorized s = true →
     scanStore (on_move_file drive now (Some fileId) (Some targetFolderId) s)
       !! fileId
     = Some {| status := infected; lastScannedAt := Some now |}).
Proof.
  intros Hq Ht Hs Hmove.
  pose proof (moveFileById_quarantine _ _ _ _ _ _ _ _ Hq Ht Hs Hmove) as Hrec.
  split; [done |]. intros Hf Hauth. unfold on_move_file. simpl.
  rewrite Hf, Ht, Hauth, Hmove. done.
Qed.

(** C10. A ['rescan_file'] request that names a file is served whatever
    [isAuthorized] is: the id's record becomes [scanning], the file list is
    broadcast, nothing but file lists is sent (no error of any kind), and
    the outcome does not depend on the flag. A ['move_file'] or
    ['delete_file'] request for the same file is turned down with
    ["Not authorized"] while the flag is off. *)
Theorem rescan_ignores_authorization (now fileId : string) (s : State) :
  truthy fileId = true →
  let s' := on_rescan_file now (Some fileId) s in
  scanStore s' !! fileId
  = Some {| status := scanning; lastScannedAt := None |}
  ∧ (∃ sent, emitted s' = emitted s ++ sent ∧ sent ≠ []
       ∧ Forall (fun e => ∃ files, e = file_list files now 0 0 0) sent)
  ∧ (∀ flag, on_rescan_file now (Some fileId) (set_isAuthorized flag s)
             = set_isAuthorized flag s')
  ∧ (isAuthorized s = false →
     (∀ drive targetFolderId, truthy targetFolderId = true →
        on_move_file drive now (Some fileId) (Some targetFolderId) s
        = emit (move_failed (Some fileId) "Not authorized") s)
     ∧ (∀ drive, on_delete_file drive now (Some fileId) s
                 = emit (delete_failed fileId "Not authorized") s)).
Proof.
  intros Hf s'. subst s'. unfold on_rescan_file. rewrite Hf. cbn [negb].
  split_and!.
  - destruct (decide (fileId ∈ scanningJobs s)) as [Hin | Hin].
    + rewrite bool_decide_eq_true_2 by done. simpl. apply lookup_insert_eq.
    + rewrite bool_decide_eq_false_2 by done. cbn [negb].
      unfold simulateScan. simpl.
      rewrite bool_decide_eq_false_2 by done. simpl. apply lookup_insert_eq.
  - destruct (decide (fileId ∈ scanningJobs s)) as [Hin | Hin].
    + rewrite bool_decide_eq_true_2 by done. simpl.
      eexists. split; [done |]. split; [done |]. repeat constructor. eauto.
    + rewrite bool_decide_eq_false_2 by done. cbn [negb].
      unfold simulateScan. simpl.
      rewrite bool_decide_eq_false_2 by done. simpl.
      rewrite <- app_assoc. eexists. split; [done |]. split; [done |].
      repeat constructor; eauto.
  - intros flag. simpl.
    destruct (decide (fileId ∈ scanningJobs s)) as [Hin | Hin].
    + by rewrite !bool_decide_eq_true_2.
    + rewrite !bool_decide_eq_false_2 by done. cbn [negb].
      unfold simulateScan. simpl. by rewrite !bool_decide_eq_false_2.
  - intros Hauth. split.
    + intros drive targetFolderId Ht. unfold on_move_file. simpl.
      by rewrite Hf, Ht, Hauth.
    + intros drive. unfold on_delete_file. simpl. by rewrite Hf, Hauth.
Qed.

Lemma moveFileById_frame drive now fileId targetFolderId s :
  let s' := snd (fst (moveFileById drive now fileId targetFolderId s)) in
  scanningJobs s' = scanningJobs s ∧ tasks s' = tasks s
  ∧ emitted s' = emitted s ∧ isAuthorized s' = isAuthorized s.
Proof.
  unfold moveFileById.
  destruct (files_get_parents drive fileId) as [meta | e]; [| done].
  destruct (includes targetFolderId _); [done |].
  destruct (files_update drive fileId targetFolderId _) as [ps | e]; [| done].
  destruct (negb _), (is_folder QUARANTINE_FOLDER_ID targetFolderId),
    (is_folder SCAN_FOLDER_ID targetFolderId); simpl; try done;
    destruct (files_get drive fileId); simpl; try done;
    destruct (findById fileId _); done.
Qed.

Lemma pollFolder_refines fileId drive now s :
  AStep (abstract fileId s) (abstract fileId (pollFolder drive now s)).
Proof.
  unfold pollFolder. destruct (isAuthorized s); [| constructor]. cbn [negb].
  destruct (listFiles drive) as [newFiles | e]; [| constructor].
  pose proof (detectChanges_frame s newFiles) as Heff. cbn zeta in Heff.
  destruct (detectChanges newFiles s) as [changes s1]. cbn [fst snd] in Heff.
  destruct Heff as (_ & _ & Hj & Ht & He).
  assert (Hs1 : abstract fileId s1 = abstract fileId s).
  { unfold abstract, inFlight, awaitingVerdict, verdicts.
    by rewrite Hj, Ht, He. }
  rewrite <- Hs1. destruct (hasChanges changes); [| constructor].
  apply sameOrStarted_AStep.
  eapply sameOrStarted_trans.
  - change (abstract fileId s1)
      with (abstract fileId (set_fileStore newFiles s1)).
    apply pollFolder_scans_sameOrStarted.
  - left. eapply abstract_quiet with (sent := [_]); done.
Qed.

Lemma on_move_file_refines fileId drive now i targetFolderId s :
  AStep (abstract fileId s)
    (abstract fileId (on_move_file drive now i targetFolderId s)).
Proof.
  apply AStep_same_abstract. unfold on_move_file.
  destruct (or_null i) as [i'|];
    [| eapply abstract_quiet with (sent := [_]); done].
  destruct (or_null targetFolderId) as [t'|];
    [| eapply abstract_quiet with (sent := [_]); done].
  destruct (isAuthorized s); cbn [negb];
    [| eapply abstract_quiet with (sent := [_]); done].
  pose proof (moveFileById_frame drive now i' t' s) as Hfr. cbn zeta in Hfr.
  destruct (moveFileById drive now i' t' s) as [[result s1] sent].
  cbn [fst snd] in Hfr. destruct Hfr as (Hj & Ht & He & _).
  destruct result.
  - eapply abstract_quiet with (sent := [_; _]);
      simpl; rewrite ?He, <- ?app_assoc; done.
  - eapply abstract_quiet with (sent := [_; _]);
      simpl; rewrite ?He, <- ?app_assoc; done.
  - eapply abstract_quiet with (sent := [_]); simpl; rewrite ?He; done.
Qed.

Lemma onMoveSettled_shape drive now i targetFolderId restore s :
  ∃ sent,
    scanningJobs (onMoveSettled drive now i targetFolderId restore s)
    = scanningJobs s ∖ {[i]}
    ∧ tasks (onMoveSettled drive now i targetFolderId restore s) = tasks s
    ∧ emitted (onMoveSettled drive now i targetFolderId restore s)
      = emitted s ++ sent
    ∧ ∀ fileId, count (isVerdictOf fileId) sent = 0.
Proof.
  unfold onMoveSettled.
  pose proof (moveFileById_frame drive now i targetFolderId s) as Hfr.
  cbn zeta in Hfr.
  destruct (moveFileById drive now i targetFolderId s) as [[result s1] sent].
  cbn [fst snd] in Hfr. destruct Hfr as (Hj & Ht & He & _).
  destruct result; simpl; rewrite ?Hj, ?Ht, ?He, <- ?app_assoc;
    eexists; split_and!; done.
Qed.

Lemma runTask_refines fileId drive now n task s :
  tasks s !! n = Some task →
  AStep (abstract fileId s)
    (abstract fileId
       (runTask drive now task (set_tasks (delete n (tasks s)) s))).
Proof.
  intros Hn.
  pose proof (count_delete (ofFile fileId) _ _ _ Hn) as HF.
  pose proof (count_delete (beforeVerdict fileId) _ _ _ Hn) as HW.
  unfold ofFile in HF at 2.
  destruct task as [i | i | i targetFolderId restore];
    cbn [runTask]; simpl in HF, HW.
  - (* the outer timeout: one waiting callback replaces another *)
    apply AStep_same; unfold abstract, inFlight, awaitingVerdict, verdicts;
      simpl; rewrite ?count_snoc, ?count_app; simpl.
    + done.
    + rewrite HF. unfold ofFile. simpl. lia.
    + rewrite HW. simpl. lia.
    + lia.
  - (* the inner timeout: the verdict *)
    destruct (onPendingTimeout_shape SCAN_FOLDER_ID QUARANTINE_FOLDER_ID
      toLowerCase now i
                (set_tasks (delete n (tasks s)) s))
      as (s1 & nm & msg & files & Hj & Ht & He & Hend).
    simpl in Hj, Ht, He.
    assert (HV : count (isVerdictOf fileId) (emitted s1)
                 = count (isVerdictOf fileId) (emitted s)
                   + if bool_decide (i = fileId) then 1 else 0).
    { rewrite He, count_app.
      change [scan_complete i (finalStatus nm) now msg;
              file_list files now 0 0 0]
        with ([scan_complete i (finalStatus nm) now msg]
              ++ [file_list files now 0 0 0]).
      change [scan_complete i (finalStatus nm) now msg]
        with ([] ++ [scan_complete i (finalStatus nm) now msg]).
      rewrite !count_snoc, finalStatus_verdict. unfold count. simpl. lia. }
    destruct Hend as [-> | (tgt & r & ->)];
      destruct (decide (i = fileId)) as [-> | Hne].
    + rewrite bool_decide_eq_true_2 in HF, HW, HV by done.
      apply AStep_verdict_done;
        unfold abstract, inFlight, awaitingVerdict, verdicts; simpl;
        rewrite ?Hj, ?Ht; [apply held_remove_eq | lia | lia | lia].
    + rewrite bool_decide_eq_false_2 in HF, HW, HV by done.
      apply AStep_same;
        unfold abstract, inFlight, awaitingVerdict, verdicts; simpl;
        rewrite ?Hj, ?Ht; [by apply held_remove_ne | lia | lia | lia].
    + rewrite bool_decide_eq_true_2 in HF, HW, HV by done.
      apply AStep_verdict_move;
        unfold abstract, inFlight, awaitingVerdict, verdicts; simpl;
        rewrite ?Hj, ?Ht, ?count_snoc, ?HF, ?HW, ?HV; unfold ofFile; simpl;
        rewrite ?(bool_decide_eq_true_2 (fileId = fileId)) by done;
        [done | lia | lia | lia].
    + rewrite bool_decide_eq_false_2 in HF, HW, HV by done.
      apply AStep_same;
        unfold abstract, inFlight, awaitingVerdict, verdicts; simpl;
        rewrite ?Hj, ?Ht, ?count_snoc, ?HF, ?HW, ?HV; unfold ofFile; simpl;
        rewrite ?(bool_decide_eq_false_2 (i = fileId)) by done;
        [done | lia | lia | lia].
  - (* the move has settled *)
    destruct (onMoveSettled_shape drive now i targetFolderId restore
                (set_tasks (delete n (tasks s)) s))
      as (sent & Hj & Ht & He & Hsent).
    simpl in Hj, Ht, He.
    destruct (decide (i = fileId)) as [-> | Hne].
    + rewrite bool_decide_eq_true_2 in HF by done.
      apply AStep_settled;
        unfold abstract, inFlight, awaitingVerdict, verdicts; simpl;
        rewrite ?Hj, ?Ht, ?He, ?count_app, ?Hsent;
        [apply held_remove_eq | lia | lia | lia].
    + rewrite bool_decide_eq_false_2 in HF by done.
      apply AStep_same;
        unfold abstract, inFlight, awaitingVerdict, verdicts; simpl;
        rewrite ?Hj, ?Ht, ?He, ?count_app, ?Hsent;
        [by apply held_remove_ne | lia | lia | lia].
Qed.

Lemma step_refines fileId s t :
  ¬ deletesFile fileId t →
  AStep (abstract fileId s) (abstract fileId (step s t)).
Proof.
  intros Hne. unfold step, deletesFile in *.
  destruct (event t) as [| data | i tgt | data | | | n].
  - apply AStep_same_abstract.
    eapply abstract_quiet with (sent := [_]); done.
  - apply on_rescan_file_refines.
  - apply on_move_file_refines.
  - apply on_delete_file_refines. intros ->.
    destruct (files_delete (drive t) fileId) as [u | e] eqn:Hdel; [| eauto].
    exfalso. apply Hne. eauto.
  - constructor.
  - apply pollFolder_refines.
  - destruct (tasks s !! n) as [task|] eqn:Hn; [| constructor].
    by apply runTask_refines.
Qed.

Lemma exec_exclusive fileId turns s :
  Forall (fun t => ¬ deletesFile fileId t) turns →
  exclusive (abstract fileId s) →
  exclusive (abstract fileId (exec turns s)).
Proof.
  intros Hturns. revert s.
  induction Hturns as [|t turns Ht _ IH]; intros s Hs; [done |].
  apply IH. eapply AStep_exclusive; [by apply step_refines | done].
Qed.

Lemma exec_account fileId turns s :
  Forall (fun t => ¬ deletesFile fileId t) turns →
  verdicts fileId (exec turns s) + awaitingVerdict fileId (exec turns s)
  = verdicts fileId s + awaitingVerdict fileId s
    + sequencesStarted fileId turns s.
Proof.
  intros Hturns. revert s.
  induction Hturns as [|t turns Ht _ IH]; intros s; simpl; [lia |].
  rewrite IH.
  pose proof (AStep_account _ _ (step_refines fileId s t Ht)) as Hstep.
  simpl in Hstep.
  assert (Hsame : (if bool_decide ((fileId ∉ scanningJobs s)
                                   ∧ (fileId ∈ scanningJobs (step s t)))
                   then 1 else 0)
                  = (if negb (bool_decide (fileId ∈ scanningJobs s))
                        && bool_decide (fileId ∈ scanningJobs (step s t))
                     then 1 else 0)).
  { repeat case_bool_decide; simpl; tauto || done. }
  rewrite Hsame. lia.
Qed.

(** C4, as the code has it. In a run of the server during which no delete
    request for the file succeeds, at most one scan sequence of the file is
    under way at any time; while one is, the file is in [scanningJobs], so
    [simulateScan] called again for it returns at once and changes nothing,
    and a rescan request sets no further callback waiting; and every
    sequence started accounts for one verdict, given or still due: two
    calls before the first sequence ends lead to one terminal status. *)
Theorem one_scan_sequence_per_file (authorized : bool) (turns : list Turn)
    (fileId : string) :
  Forall (fun t => ¬ deletesFile fileId t) turns →
  let s := exec turns (initial authorized) in
  inFlight fileId s ≤ 1
  ∧ (0 < inFlight fileId s →
     fileId ∈ scanningJobs s
     ∧ (∀ now, simulateScan now fileId s = s)
     ∧ (∀ now, tasks (on_rescan_file now (Some fileId) s) = tasks s))
  ∧ verdicts fileId s + awaitingVerdict fileId s
    = sequencesStarted fileId turns (initial authorized).
Proof.
  intros Hturns s.
  assert (Hex : exclusive (abstract fileId s)).
  { apply exec_exclusive; [done |]. unfold exclusive, abstract, inFlight, count.
    simpl. split; [lia | intros; lia]. }
  destruct Hex as [Hone Hheld]. simpl in Hone, Hheld.
  split_and!; [done | |].
  - intros Hfly. apply Hheld, bool_decide_eq_true_1 in Hfly.
    split_and!; [done | |].
    + intros now. unfold simulateScan. by rewrite bool_decide_eq_true_2.
    + intros now. unfold on_rescan_file.
      destruct (truthy fileId); [| done]. cbn [negb].
      by rewrite bool_decide_eq_true_2.
  - subst s. by rewrite exec_account.
Qed.

(** A reconciliation pass takes no id out of [scanningJobs]. *)
Lemma pollFolder_keeps_jobs drive now s i :
  i ∈ scanningJobs s → i ∈ scanningJobs (pollFolder drive now s).
Proof.
  intros Hi. unfold pollFolder. destruct (isAuthorized s); [| done].
  cbn [negb]. destruct (listFiles drive) as [newFiles | e]; [| done].
  pose proof (detectChanges_frame s newFiles) as Heff. cbn zeta in Heff.
  destruct (detectChanges newFiles s) as [changes s1]. cbn [fst snd] in Heff.
  destruct Heff as (_ & _ & Hj & _).
  destruct (hasChanges changes); [| by rewrite Hj].
  assert (Hfold : ∀ toScan s2, i ∈ scanningJobs s2 →
    i ∈ scanningJobs
          (fold_left (fun s file =>
             let i := id file in
             if bool_decide (i ∈ scanningJobs s) then s
             else simulateScan now i
                    (writeScan i
                       {| status := scanning; lastScannedAt := None |} s))
             toScan s2)).
  { induction toScan as [|file toScan IH]; intros s2 H2; [done |].
    cbn [fold_left]. apply IH. cbn zeta. case_bool_decide; [done |].
    by apply simulateScan_holds. }
  simpl. apply Hfold. simpl. by rewrite Hj.
Qed.

End ServerFacts.

(** ** The verdict rule: longer names and short names *)

Section LetterFacts.
Context (toLowerCase : list N → list N).
Local Abbreviation isEicarish := (isEicarish toLowerCase).

(** X1. Characters added anywhere to a flagged name leave it flagged: when
    the code units of [a] occur in [b] in the same order, and [a] is
    flagged, so is [b]. *)
Theorem isEicarish_more_characters (a b : string) :
  lowersLetters toLowerCase →
  codeUnits a `sublist_of` codeUnits b →
  isEicarish a = true → isEicarish b = true.
Proof.
  intros Hlower. rewrite !isEicarish_spec by done.
  intros Hab (sub & Hsub & Hletters).
  exists sub. split; [by etrans | done].
Qed.

(** X2. A name of fewer than five characters is never flagged. *)
Theorem isEicarish_short_name (filename : string) :
  lowersLetters toLowerCase →
  length (codeUnits filename) < 5 → isEicarish filename = false.
Proof.
  intros Hlower Hshort. destruct (isEicarish filename) eqn:Hflag; [| done].
  apply isEicarish_spec in Hflag as (sub & Hsub & Hletters); [| done].
  apply sublist_length in Hsub. apply Forall2_length in Hletters.
  change (length target) with 5 in Hletters. lia.
Qed.
End LetterFacts.

(** ** detectChanges: the flag, and a listing that shows nothing new *)

Lemma List_filter_none {A} (p : A → bool) l :
  (∀ x, x ∈ l → p x = false) → List.filter p l = [].
Proof.
  induction l as [|x l IH]; intros H; simpl; [done |].
  rewrite (H x) by apply list_elem_of_here.
  apply IH. intros y Hy. apply H. by apply list_elem_of_further.
Qed.

Lemma existsb_filter {A} (p : A → bool) l :
  existsb p l = negb (bool_decide (List.filter p l = [])).
Proof.
  induction l as [|x l IH]; simpl; [done |].
  destruct (p x); simpl; [done | exact IH].
Qed.

Lemma existsb_orb {A} (p q : A → bool) l :
  existsb (fun x => p x || q x) l = existsb p l || existsb q l.
Proof.
  induction l as [|x l IH]; simpl; [done |]. rewrite IH.
  destruct (p x), (q x), (existsb p l), (existsb q l); done.
Qed.

(** X3. The flag [hasChanges] is set exactly when one of the three lists
    of the report is not empty. *)
Theorem detectChanges_hasChanges (newFiles : list FileRecord) (s : State) :
  let changes := fst (detectChanges newFiles s) in
  hasChanges changes = true
  ↔ added changes ++ modified changes ++ deleted changes ≠ [].
Proof.
  intros changes. subst changes. rewrite detectChanges_eq.
  cbn [fst added modified deleted hasChanges].
  rewrite existsb_orb, !existsb_filter.
  set (a := List.filter _ (Map.from (entries newFiles))).
  set (m := List.filter (isModified _) _).
  set (d := List.filter (isGone _) _).
  destruct a, m, d; simpl; split; done.
Qed.

(** A listing in which every file is known with the same [modifiedTime] and
    [source], and which misses no known file, is no change. *)
Lemma detectChanges_unchanged newFiles s :
  NoDup (ids (fileStore s)) → NoDup (ids newFiles) →
  (∀ f, f ∈ newFiles →
        ∃ o, o ∈ fileStore s ∧ id o = id f
             ∧ modifiedTime o = modifiedTime f ∧ source o = source f) →
  (∀ o, o ∈ fileStore s → id o ∈ ids newFiles) →
  detectChanges newFiles s = (noChanges, s).
Proof.
  intros Hold Hnew Hknown Hlisted. rewrite detectChanges_eq.
  rewrite !existsb_orb, !existsb_filter.
  rewrite !from_NoDup by (by rewrite <- keys_entries in *).
  assert (Ha : List.filter (isNew (entries (fileStore s))) (entries newFiles)
               = []).
  { apply List_filter_none. intros [k f] [Hf <-]%elem_entries.
    apply not_true_is_false. rewrite isNew_entries.
    destruct (Hknown f Hf) as (o & Ho & Hid & _).
    intros Hn. apply Hn. apply elem_ids. by exists o. }
  assert (Hm : List.filter (isModified (entries (fileStore s)))
                 (entries newFiles) = []).
  { apply List_filter_none. intros [k f] [Hf <-]%elem_entries.
    apply not_true_is_false. rewrite isModified_entries by done.
    intros (o' & Ho' & Hid' & Hd).
    destruct (Hknown f Hf) as (o & Ho & Hid & Ht & Hs).
    assert (Map.get (id f) (entries (fileStore s)) = Some o') as Hg'
      by by apply get_entries.
    assert (Map.get (id f) (entries (fileStore s)) = Some o) as Hg
      by by apply get_entries.
    assert (o' = o) as -> by congruence.
    destruct Hd; congruence. }
  assert (Hd : List.filter (isGone (entries newFiles))
                 (entries (fileStore s)) = []).
  { apply List_filter_none. intros [k o] [Ho <-]%elem_entries.
    apply not_true_is_false. rewrite isGone_entries. intros Hn.
    apply Hn. by apply Hlisted. }
  rewrite Ha, Hm, Hd. done.
Qed.

(** ** pollFolder: what a pass leaves behind *)

Lemma if_bool_decide_iff {A} (P Q : Prop) `{Decision P} `{Decision Q}
    (a b : A) :
  (P ↔ Q) →
  (if bool_decide P then a else b) = (if bool_decide Q then a else b).
Proof. intros HPQ. by rewrite (bool_decide_ext P Q HPQ). Qed.

Ltac by_elements :=
  apply set_eq; intros ?;
  rewrite ?elem_of_union, ?elem_of_difference, ?elem_of_singleton,
    ?elem_of_list_to_set, ?elem_of_cons;
  intuition (subst; auto).

(** The [forEach] of [pollFolder] over files of distinct ids. *)
Lemma pollFolder_scans_effect now toScan s :
  NoDup (ids toScan) →
  let s' :=
    fold_left (fun s file =>
      let i := id file in
      if bool_decide (i ∈ scanningJobs s) then s
      else simulateScan now i
             (writeScan i {| status := scanning; lastScannedAt := None |} s))
      toScan s in
  fileStore s' = fileStore s
  ∧ isAuthorized s' = isAuthorized s
  ∧ scanningJobs s' = scanningJobs s ∪ list_to_set (ids toScan)
  ∧ tasks s'
    = tasks s
      ++ map scanningTimeout (filter (fun i => i ∉ scanningJobs s) (ids toScan))
  ∧ (∀ i, scanStore s' !! i
          = if bool_decide (i ∈ ids toScan ∧ i ∉ scanningJobs s)
            then Some {| status := scanning; lastScannedAt := None |}
            else scanStore s !! i)
  ∧ ∃ sent, emitted s' = emitted s ++ sent
            ∧ Forall (fun e => ∃ files, e = file_list files now 0 0 0) sent.
Proof.
  set (body := fun (s : State) (file : FileRecord) => _).
  revert s. induction toScan as [|file toScan IH]; intros s Hnd s'; subst s'.
  - cbn [fold_left ids map list_to_set]. split_and!; [done | done | | | |].
    + by rewrite (right_id_L ∅ (∪)).
    + by rewrite filter_nil, app_nil_r.
    + intros i. rewrite bool_decide_eq_false_2; [done |].
      rewrite elem_of_nil. tauto.
    + exists []. by rewrite app_nil_r.
  - cbn [ids map] in Hnd. apply NoDup_cons in Hnd as [Hfresh Hnd].
    change (fold_left body (file :: toScan) s)
      with (fold_left body toScan (body s file)).
    destruct (decide (id file ∈ scanningJobs s)) as [Hheld | Hfree].
    + assert (body s file = s) as ->
        by (subst body; cbn beta zeta; by rewrite (bool_decide_eq_true_2 _ Hheld)).
      destruct (IH s Hnd) as (Hf & Ha & Hj & Ht & Hs & sent & He & Hsent).
      split_and!; [done | done | | | |].
      * rewrite Hj. cbn [ids map list_to_set]. by_elements.
      * rewrite Ht. cbn [ids map]. by rewrite filter_cons_False by tauto.
      * intros i. rewrite Hs. apply if_bool_decide_iff.
        cbn [ids map]. rewrite elem_of_cons. split; [tauto |].
        intros [[-> | Hi] Hn]; [done | tauto].
      * by exists sent.
    + set (s1 := body s file).
      assert (Hs1 : s1 = schedule (scanningTimeout (id file))
                (emitFileList 0 0 0 now
                   (writeScan (id file)
                      {| status := scanning; lastScannedAt := None |}
                      (set_scanningJobs ({[id file]} ∪ scanningJobs s)
                         (writeScan (id file)
                            {| status := scanning; lastScannedAt := None |}
                            s))))).
      { subst s1 body. cbn beta zeta. rewrite (bool_decide_eq_false_2 _ Hfree).
        unfold simulateScan. cbn [scanningJobs writeScan set_scanStore].
        by rewrite (bool_decide_eq_false_2 _ Hfree). }
      assert (Hjobs : scanningJobs s1 = {[id file]} ∪ scanningJobs s)
        by by rewrite Hs1.
      assert (Htasks : tasks s1 = tasks s ++ [scanningTimeout (id file)])
        by by rewrite Hs1.
      assert (Hstore : scanStore s1
                = <[id file := {| status := scanning; lastScannedAt := None |}]>
                    (<[id file := {| status := scanning;
                                     lastScannedAt := None |}]> (scanStore s)))
        by by rewrite Hs1.
      assert (Hfiles : fileStore s1 = fileStore s) by by rewrite Hs1.
      assert (Hauth : isAuthorized s1 = isAuthorized s) by by rewrite Hs1.
      assert (Hemit : ∃ files, emitted s1
                = emitted s ++ [file_list files now 0 0 0])
        by (rewrite Hs1; by eexists).
      clearbody s1. clear Hs1.
      destruct (IH s1 Hnd) as (Hf & Ha & Hj & Ht & Hs & sent & He & Hsent).
      split_and!.
      * by rewrite Hf.
      * by rewrite Ha.
      * rewrite Hj, Hjobs. cbn [ids map list_to_set]. by_elements.
      * rewrite Ht, Htasks. cbn [ids map]. rewrite filter_cons_True by done.
        rewrite <- app_assoc. cbn [map app]. do 3 f_equal.
        apply filter_agree.
        intros i Hi. rewrite Hjobs, elem_of_union, elem_of_singleton.
        split; [tauto |]. intros Hn [-> | Hin]; [done | tauto].
      * intros i. rewrite Hs, Hjobs, Hstore.
        destruct (decide (i = id file)) as [-> | Hne].
        -- rewrite bool_decide_eq_false_2
             by (rewrite elem_of_union, elem_of_singleton; tauto).
           rewrite bool_decide_eq_true_2
             by (split; [apply list_elem_of_here | done]).
           by rewrite lookup_insert_eq.
        -- rewrite !lookup_insert_ne by done.
           apply if_bool_decide_iff. cbn [ids map].
           rewrite elem_of_cons, elem_of_union, elem_of_singleton. tauto.
      * destruct Hemit as [files Hemit].
        exists (file_list files now 0 0 0 :: sent). split.
        -- rewrite He, Hemit. by rewrite <- app_assoc.
        -- constructor; [by eexists | done].
Qed.

Lemma ids_filter_sublist (P : FileRecord → Prop) `{∀ f, Decision (P f)} l :
  ids (filter P l) `sublist_of` ids l.
Proof.
  induction l as [|f l IH]; [done |].
  destruct (decide (P f)).
  - rewrite filter_cons_True by done. by constructor.
  - rewrite filter_cons_False by done. by constructor.
Qed.

Lemma keys_List_filter_sublist {V} (p : string * V → bool) (m : Map.t V) :
  map fst (List.filter p m) `sublist_of` Map.keys m.
Proof.
  unfold Map.keys. induction m as [|e m IH]; simpl; [done |].
  destruct (p e); simpl; by constructor.
Qed.

(** No id is reported both as added and as modified, nor twice as either,
    whatever the snapshots. *)
Lemma detectChanges_reports_once newFiles s :
  NoDup (ids (added (fst (detectChanges newFiles s))
              ++ modified (fst (detectChanges newFiles s)))).
Proof.
  rewrite detectChanges_eq. cbn [fst added modified].
  set (old := Map.from (entries (fileStore s))).
  set (new := Map.from (entries newFiles)).
  assert (Hkeyed : Forall (fun e => fst e = id (snd e)) new)
    by apply keyed_from.
  assert (Hnd : NoDup (Map.keys new)) by apply NoDup_keys_from.
  unfold ids at 1. rewrite map_app. fold (ids (map snd (List.filter (isNew old) new))).
  fold (ids (map snd (List.filter (isModified old) new))).
  rewrite <- !keyed_selected by done.
  apply NoDup_app. split_and!.
  - eapply sublist_NoDup; [exact Hnd | apply keys_List_filter_sublist].
  - intros k Ha Hm.
    apply list_elem_of_fmap in Ha as ([k1 f1] & -> & [_ Hnew]%elem_List_filter).
    apply list_elem_of_fmap in Hm as ([k2 f2] & Hk & [_ Hmod]%elem_List_filter).
    simpl in Hk. subst k2. unfold isNew, isModified, Map.has in *. simpl in *.
    destruct (Map.get k1 old); done.
  - eapply sublist_NoDup; [exact Hnd | apply keys_List_filter_sublist].
Qed.

Section PollFacts.
Context (SCAN_FOLDER_ID QUARANTINE_FOLDER_ID : option string).
Context (Date_parse : string → option Z).
Context (localeCompare : string → string → Z).
Local Abbreviation mergeListings := (mergeListings Date_parse localeCompare).
Local Abbreviation listFiles :=
  (listFiles SCAN_FOLDER_ID QUARANTINE_FOLDER_ID Date_parse localeCompare).
Local Abbreviation pollFolder :=
  (pollFolder SCAN_FOLDER_ID QUARANTINE_FOLDER_ID Date_parse localeCompare).

Lemma mergeListings_NoDup scanFiles quarantineFiles :
  NoDup (ids (mergeListings scanFiles quarantineFiles)).
Proof.
  unfold mergeListings.
  assert (Hp : ids (sort (compareFiles Date_parse localeCompare)
                      (Map.values (mergedMap scanFiles quarantineFiles)))
               ≡ₚ ids (Map.values (mergedMap scanFiles quarantineFiles))).
  { unfold ids. apply fmap_Permutation, sort_Permutation. }
  rewrite Hp, mergedMap_from, ids_values by apply keyed_from.
  apply NoDup_keys_from.
Qed.

Lemma listFiles_NoDup drive newFiles :
  listFiles drive = resolved newFiles → NoDup (ids newFiles).
Proof.
  unfold listFiles.
  destruct (match SCAN_FOLDER_ID with Some _ => _ | None => _ end);
    [| done].
  destruct (match QUARANTINE_FOLDER_ID with Some _ => _ | None => _ end);
    [| done].
  intros [= <-]. apply mergeListings_NoDup.
Qed.

(** X4. A poll whose listing shows every known file with its known
    [modifiedTime] and [source], and misses none, changes nothing and sends
    nothing: [fileStore] keeps its records even where the listing has
    another name or size for a file. *)
Theorem pollFolder_nothing_new (drive : Drive) (now : string) (s : State)
    (newFiles : list FileRecord) :
  listFiles drive = resolved newFiles →
  NoDup (ids (fileStore s)) →
  (∀ f, f ∈ newFiles →
        ∃ o, o ∈ fileStore s ∧ id o = id f
             ∧ modifiedTime o = modifiedTime f ∧ source o = source f) →
  (∀ o, o ∈ fileStore s → id o ∈ ids newFiles) →
  pollFolder drive now s = s.
Proof.
  intros Hlist Hold Hknown Hlisted. unfold pollFolder.
  destruct (isAuthorized s); cbn [negb]; [| done].
  rewrite Hlist, detectChanges_unchanged; try done.
  by apply (listFiles_NoDup drive).
Qed.

(** X5. When Drive fails to list one of the two configured folders, the
    poll changes nothing and sends nothing, whatever the other folder
    lists. *)
Theorem pollFolder_listing_fails (drive : Drive) (now : string) (s : State)
    (scanId quarantineId error : string) :
  SCAN_FOLDER_ID = Some scanId → truthy scanId = true →
  QUARANTINE_FOLDER_ID = Some quarantineId → truthy quarantineId = true →
  files_list drive scanId = rejected error
  ∨ files_list drive quarantineId = rejected error →
  pollFolder drive now s = s.
Proof.
  intros Hscan Hs Hquarantine Hq Hfails. unfold pollFolder.
  destruct (isAuthorized s); cbn [negb]; [| done].
  assert (∃ e, listFiles drive = rejected e) as [e ->]; [| done].
  unfold listFiles, listFilesInFolder. rewrite Hscan, Hquarantine, Hs, Hq.
  destruct Hfails as [-> | Hfq]; [by eexists |].
  destruct (files_list drive scanId); [| by eexists].
  rewrite Hfq. by eexists.
Qed.

(** X6. A poll that detects changes takes the listing as the new
    [fileStore] and starts a scan for exactly the added and modified files
    of the scan folder that have no scan under way: their ids join
    [scanningJobs], one outer timer each is set, in the order of the
    report, and their status is scanning. Files that arrived in the
    quarantine folder get no scan. The pass ends with the broadcast of the
    list and the three counts. *)
Theorem pollFolder_starts_scans (drive : Drive) (now : string) (s : State)
    (newFiles : list FileRecord) :
  isAuthorized s = true →
  listFiles drive = resolved newFiles →
  hasChanges (fst (detectChanges newFiles s)) = true →
  let changes := fst (detectChanges newFiles s) in
  let toScan :=
    filter (fun f => source f = scan) (added changes ++ modified changes) in
  let s' := pollFolder drive now s in
  fileStore s' = newFiles
  ∧ scanningJobs s' = scanningJobs s ∪ list_to_set (ids toScan)
  ∧ tasks s'
    = tasks s
      ++ map scanningTimeout
           (filter (fun i => i ∉ scanningJobs s) (ids toScan))
  ∧ (∀ i, i ∈ ids toScan → i ∉ scanningJobs s →
          scanStore s' !! i
          = Some {| status := scanning; lastScannedAt := None |})
  ∧ last (emitted s')
    = Some (file_list (filesForClients s') now (length (added changes))
              (length (modified changes)) (length (deleted changes))).
Proof.
  intros Hauth Hlist Hchanged changes toScan s'.
  assert (Hnd : NoDup (ids toScan)).
  { eapply sublist_NoDup; [apply detectChanges_reports_once |].
    apply ids_filter_sublist. }
  destruct (detectChanges_frame s newFiles) as (_ & _ & Hj & Ht & _).
  subst s'. unfold pollFolder. rewrite Hauth, Hlist. cbn [negb].
  fold changes in Hchanged. revert Hj Ht.
  destruct (detectChanges newFiles s) as [c s1] eqn:Hdetect.
  cbn [fst snd] in *. subst changes. rewrite Hchanged. intros Hj Ht.
  fold toScan.
  destruct (pollFolder_scans_effect now toScan (set_fileStore newFiles s1) Hnd)
    as (Hf' & _ & Hj' & Ht' & Hs' & _).
  cbn [fileStore scanningJobs tasks set_fileStore] in Hf', Hj', Ht', Hs'.
  split_and!.
  - exact Hf'.
  - by rewrite <- Hj.
  - by rewrite <- Hj, <- Ht.
  - intros i Hi Hfree. cbn [scanStore emitFileList emit set_emitted].
    rewrite Hs', bool_decide_eq_true_2; [done |]. by rewrite Hj.
  - cbn [emitted emitFileList emit set_emitted]. by rewrite last_snoc.
Qed.
End PollFacts.

(** ** moveFileById: failures, arrivals and departures *)

Lemma findById_Some_id fileId l f : findById fileId l = Some f → id f = fileId.
Proof.
  unfold findById. intros Hf. apply find_some in Hf as [_ Hid].
  by apply bool_decide_eq_true_1 in Hid.
Qed.

Lemma findById_absent fileId l : findById fileId l = None ↔ fileId ∉ ids l.
Proof.
  split; [| apply findById_None].
  induction l as [|f l IH]; simpl; [intros _; apply not_elem_of_nil |].
  case_bool_decide as Hid; [done |]. intros Hl.
  rewrite not_elem_of_cons. split; [congruence | by apply IH].
Qed.

Lemma assignById_ids fileId item l :
  id item = fileId → ids (assignById fileId item l) = ids l.
Proof.
  intros Hid. induction l as [|f l IH]; simpl; [done |].
  case_bool_decide as Hf; simpl; [congruence | by rewrite IH].
Qed.

Lemma assignById_elem fileId item l :
  fileId ∈ ids l → item ∈ assignById fileId item l.
Proof.
  induction l as [|f l IH]; simpl; [by rewrite elem_of_nil |].
  case_bool_decide as Hf; [intros _; apply list_elem_of_here |].
  rewrite elem_of_cons. intros [Heq | Hin]; [congruence |].
  apply list_elem_of_further. by apply IH.
Qed.

Lemma assignById_from fileId item l f :
  f ∈ assignById fileId item l → f = item ∨ f ∈ l.
Proof.
  induction l as [|g l IH]; simpl; [by rewrite elem_of_nil |].
  case_bool_decide as Hg; rewrite !elem_of_cons; [tauto |].
  intros [-> | Hin]; [tauto |]. destruct (IH Hin); tauto.
Qed.

Lemma removeById_elem fileId l f :
  f ∈ removeById fileId l ↔ f ∈ l ∧ id f ≠ fileId.
Proof. unfold removeById. rewrite list_elem_of_filter. tauto. Qed.

Lemma removeById_absent fileId l : fileId ∉ ids (removeById fileId l).
Proof.
  intros (f & [_ Hne]%removeById_elem & Hid)%elem_ids. done.
Qed.

Lemma removeById_NoDup fileId l :
  NoDup (ids l) → NoDup (ids (removeById fileId l)).
Proof.
  intros Hnd. eapply sublist_NoDup; [exact Hnd |]. apply ids_filter_sublist.
Qed.

Section MoveFacts.
Context (SCAN_FOLDER_ID QUARANTINE_FOLDER_ID : option string).
Context (Date_parse : string → option Z).
Context (localeCompare : string → string → Z).
Local Abbreviation compareFiles := (compareFiles Date_parse localeCompare).
Local Abbreviation moveFileById :=
  (moveFileById SCAN_FOLDER_ID QUARANTINE_FOLDER_ID Date_parse localeCompare).
Local Abbreviation on_move_file :=
  (on_move_file SCAN_FOLDER_ID QUARANTINE_FOLDER_ID Date_parse localeCompare).

(** A move that fails has changed nothing. *)
Lemma moveFileById_error drive now fileId targetFolderId s error s' sent :
  moveFileById drive now fileId targetFolderId s = (move_error error, s', sent) →
  s' = s.
Proof.
  unfold moveFileById.
  destruct (files_get_parents drive fileId) as [meta | e]; [| congruence].
  destruct (includes targetFolderId _); [done |].
  destruct (files_update drive fileId targetFolderId _) as [ps | e];
    [| congruence].
  destruct (is_folder SCAN_FOLDER_ID targetFolderId); [| done].
  destruct (files_get drive fileId); done.
Qed.

(** X7. [moveFileById] reports a failure only when Drive refused the
    request for the parents or the update, with the message of that
    refusal; it has then written nothing to [fileStore] or [scanStore] and
    has not asked for the file's metadata. A refused metadata request after
    the update is not reported as a failure. *)
Theorem moveFileById_failure (drive : Drive) (now fileId targetFolderId : string)
    (s s' : State) (error : string) (sent : list DriveCall) :
  moveFileById drive now fileId targetFolderId s = (move_error error, s', sent) →
  s' = s
  ∧ (call_get fileId ∉ sent)
  ∧ (files_get_parents drive fileId = rejected error
     ∨ ∃ removeParents,
         files_update drive fileId targetFolderId removeParents
         = rejected error
         ∧ call_update fileId targetFolderId removeParents ∈ sent).
Proof.
  intros Hmove. split; [by eapply moveFileById_error |]. revert Hmove.
  unfold moveFileById.
  destruct (files_get_parents drive fileId) as [meta | e].
  - destruct (includes targetFolderId _); [done |].
    destruct (files_update drive fileId targetFolderId _) as [ps | e] eqn:Hup.
    + destruct (is_folder SCAN_FOLDER_ID targetFolderId); [| done].
      destruct (files_get drive fileId); done.
    + intros [= <- _ <-]. split.
      * rewrite !elem_of_cons, elem_of_nil. intros [|[|]]; done.
      * right. eexists. split; [exact Hup |].
        apply list_elem_of_further, list_elem_of_here.
  - intros [= <- _ <-]. split; [| by left].
    rewrite !elem_of_cons, elem_of_nil. intros [|]; done.
Qed.

(** X8. A move into the scan folder that Drive carried out, with the
    file's metadata fetched afterwards, leaves the file in [fileStore] as a
    record of the scan folder built from that metadata, adds no other
    record, and marks the file clean at the time of the move. *)
Theorem moveFileById_into_scan_folder (drive : Drive)
    (now fileId targetFolderId : string) (s s' : State)
    (parents : option (list string)) (sent : list DriveCall)
    (fileMeta : DriveFile) :
  SCAN_FOLDER_ID = Some targetFolderId →
  truthy targetFolderId = true →
  files_get drive fileId = resolved fileMeta →
  moveFileById drive now fileId targetFolderId s = (move_done parents, s', sent) →
  tag scan fileMeta ∈ fileStore s'
  ∧ (∀ f, f ∈ fileStore s' → f = tag scan fileMeta ∨ f ∈ fileStore s)
  ∧ scanStore s' !! fileId
    = Some {| status := clean; lastScannedAt := Some now |}.
Proof.
  intros Hscan Ht Hget. unfold moveFileById.
  destruct (files_get_parents drive fileId) as [meta | e]; [| done].
  destruct (includes targetFolderId _); [done |].
  destruct (files_update drive fileId targetFolderId _) as [ps | e]; [| done].
  rewrite (is_folder_true _ _ Hscan Ht), Hget.
  set (s1 := if negb _ then _ else s).
  set (s2 := if is_folder QUARANTINE_FOLDER_ID targetFolderId then _ else s1).
  assert (Hfiles : ∀ f, f ∈ fileStore s2 → f ∈ fileStore s).
  { assert (H1 : ∀ f, f ∈ fileStore s1 → f ∈ fileStore s).
    { subst s1. destruct (negb _); [| done]. simpl.
      intros f Hf. by apply removeById_elem in Hf as [Hf _]. }
    subst s2. by destruct (is_folder QUARANTINE_FOLDER_ID targetFolderId). }
  intros [= _ <- _]. cbn [fileStore scanStore writeScan set_scanStore].
  split_and!; [| | apply lookup_insert_eq].
  - destruct (findById fileId (fileStore s2)) as [existing|] eqn:Hfind; simpl.
    + apply assignById_elem.
      destruct (decide (fileId ∈ ids (fileStore s2))) as [|Hn]; [done |].
      apply findById_None in Hn. congruence.
    + rewrite sort_Permutation, elem_of_app, list_elem_of_singleton. by right.
  - intros f.
    destruct (findById fileId (fileStore s2)) as [existing|]; simpl.
    + intros [-> | Hf]%assignById_from; [by left | right; by apply Hfiles].
    + rewrite sort_Permutation, elem_of_app, list_elem_of_singleton.
      intros [Hf | ->]; [right; by apply Hfiles | by left].
Qed.

(** X9. A move that Drive carried out to a folder other than the scan
    folder, after which the file is no longer in the scan folder, removes
    the file's record from [fileStore], also when the target is the
    quarantine folder, whose files [fileStore] otherwise lists; the other
    records stay, in their order. *)
Theorem moveFileById_out_of_scan_folder (drive : Drive)
    (now fileId targetFolderId : string) (s s' : State)
    (parents : option (list string)) (sent : list DriveCall) :
  SCAN_FOLDER_ID ≠ Some targetFolderId →
  (∀ scanId, SCAN_FOLDER_ID = Some scanId → scanId ∉ default [] parents) →
  moveFileById drive now fileId targetFolderId s = (move_done parents, s', sent) →
  fileStore s' = removeById fileId (fileStore s)
  ∧ (fileId ∉ ids (fileStore s'))
  ∧ (call_get fileId ∉ sent).
Proof.
  intros Hother Hleft. unfold moveFileById.
  destruct (files_get_parents drive fileId) as [meta | e]; [| done].
  destruct (includes targetFolderId _); [done |].
  destruct (files_update drive fileId targetFolderId _) as [ps | e]; [| done].
  rewrite (is_folder_false _ _ Hother).
  intros [= -> <- <-].
  assert (Hgone : match SCAN_FOLDER_ID with
                  | Some folder => includes folder (default [] parents)
                  | None => false
                  end = false).
  { destruct SCAN_FOLDER_ID as [scanId|]; [| done].
    apply bool_decide_eq_false_2. by apply Hleft. }
  rewrite Hgone. cbn [negb].
  assert (Hstore : fileStore
            (if is_folder QUARANTINE_FOLDER_ID targetFolderId
             then writeScan fileId
                    {| status := infected; lastScannedAt := Some now |}
                    (set_fileStore (removeById fileId (fileStore s)) s)
             else set_fileStore (removeById fileId (fileStore s)) s)
           = removeById fileId (fileStore s))
    by by destruct (is_folder QUARANTINE_FOLDER_ID targetFolderId).
  rewrite Hstore. split_and!; [done | apply removeById_absent |].
  rewrite !elem_of_cons, elem_of_nil. intros [|[|]]; done.
Qed.

(** The ids of [fileStore] stay distinct through a move, when Drive
    returns the metadata of the file it was asked for. *)
Lemma moveFileById_NoDup drive now fileId targetFolderId s :
  (∀ fileMeta, files_get drive fileId = resolved fileMeta →
               df_id fileMeta = fileId) →
  NoDup (ids (fileStore s)) →
  NoDup (ids (fileStore
                (snd (fst (moveFileById drive now fileId targetFolderId s))))).
Proof.
  intros Hsane Hnd. unfold moveFileById.
  destruct (files_get_parents drive fileId) as [meta | e]; [| done].
  destruct (includes targetFolderId _); [done |].
  destruct (files_update drive fileId targetFolderId _) as [ps | e]; [| done].
  set (s1 := if negb _ then _ else s).
  set (s2 := if is_folder QUARANTINE_FOLDER_ID targetFolderId then _ else s1).
  assert (H2 : NoDup (ids (fileStore s2))).
  { assert (H1 : NoDup (ids (fileStore s1))).
    { subst s1. destruct (negb _); [| done]. simpl.
      by apply removeById_NoDup. }
    subst s2. by destruct (is_folder QUARANTINE_FOLDER_ID targetFolderId). }
  destruct (is_folder SCAN_FOLDER_ID targetFolderId); [| done].
  destruct (files_get drive fileId) as [fileMeta | e] eqn:Hget; [| done].
  specialize (Hsane fileMeta eq_refl).
  cbn [fst snd fileStore writeScan set_scanStore].
  destruct (findById fileId (fileStore s2)) as [existing|] eqn:Hfind; simpl.
  - rewrite assignById_ids; done.
  - apply findById_absent in Hfind.
    assert (Hp : ids (sort compareFiles (fileStore s2 ++ [tag scan fileMeta]))
                 ≡ₚ ids (fileStore s2 ++ [tag scan fileMeta])).
    { unfold ids. apply fmap_Permutation, sort_Permutation. }
    rewrite Hp. unfold ids. rewrite map_app. apply NoDup_app.
    split_and!; [done | | apply NoDup_singleton].
    simpl. intros i Hi Hi'. apply list_elem_of_singleton in Hi'.
    subst i. rewrite Hsane in Hi. done.
Qed.

(** X10. Whenever the ['move_file'] handler answers [move_failed], that
    message is all that happened: [fileStore], [scanStore], the jobs and
    the waiting callbacks are as before the request. *)
Theorem on_move_file_failure (drive : Drive) (now : string)
    (fileId targetFolderId : option string) (s : State)
    (reported : option string) (error : string) :
  last (emitted (on_move_file drive now fileId targetFolderId s))
  = Some (move_failed reported error) →
  on_move_file drive now fileId targetFolderId s
  = emit (move_failed reported error) s.
Proof.
  unfold on_move_file.
  destruct (or_null fileId) as [fileId'|];
    [| simpl; rewrite last_snoc; by intros [= <- <-]].
  destruct (or_null targetFolderId) as [targetFolderId'|];
    [| simpl; rewrite last_snoc; by intros [= <- <-]].
  destruct (isAuthorized s); cbn [negb];
    [| simpl; rewrite last_snoc; by intros [= <- <-]].
  destruct (moveFileById drive now fileId' targetFolderId' s)
    as [[result s1] sent] eqn:Hmove.
  destruct result as [nm | ps | e].
  - simpl. by rewrite last_snoc.
  - simpl. by rewrite last_snoc.
  - apply moveFileById_error in Hmove as ->.
    simpl. rewrite last_snoc. by intros [= <- <-].
Qed.
End MoveFacts.

(** ** The records of fileStore *)

Lemma simulateScan_fileStore now i s :
  fileStore (simulateScan now i s) = fileStore s.
Proof. unfold simulateScan. by case_bool_decide. Qed.

Lemma pollFolder_scans_fileStore now toScan s :
  fileStore
    (fold_left (fun s file =>
       let i := id file in
       if bool_decide (i ∈ scanningJobs s) then s
       else simulateScan now i
              (writeScan i {| status := scanning; lastScannedAt := None |} s))
       toScan s)
  = fileStore s.
Proof.
  revert s. induction toScan as [|file toScan IH]; intros s; [done |].
  cbn [fold_left]. rewrite IH. cbn zeta. case_bool_decide; [done |].
  by rewrite simulateScan_fileStore.
Qed.

Section StoreFacts.
Context (SCAN_FOLDER_ID QUARANTINE_FOLDER_ID : option string).
Context (Date_parse : string → option Z).
Context (localeCompare : string → string → Z).
Context (toLowerCase : list N → list N).
Local Abbreviation isEicarish := (isEicarish toLowerCase).
Local Abbreviation finalStatus := (finalStatus toLowerCase).
Local Abbreviation listFiles :=
  (listFiles SCAN_FOLDER_ID QUARANTINE_FOLDER_ID Date_parse localeCompare).
Local Abbreviation moveFileById :=
  (moveFileById SCAN_FOLDER_ID QUARANTINE_FOLDER_ID Date_parse localeCompare).
Local Abbreviation onPendingTimeout :=
  (onPendingTimeout SCAN_FOLDER_ID QUARANTINE_FOLDER_ID toLowerCase).
Local Abbreviation onMoveSettled :=
  (onMoveSettled SCAN_FOLDER_ID QUARANTINE_FOLDER_ID Date_parse localeCompare).
Local Abbreviation runTask :=
  (runTask SCAN_FOLDER_ID QUARANTINE_FOLDER_ID Date_parse localeCompare
     toLowerCase).
Local Abbreviation pollFolder :=
  (pollFolder SCAN_FOLDER_ID QUARANTINE_FOLDER_ID Date_parse localeCompare).
Local Abbreviation on_move_file :=
  (on_move_file SCAN_FOLDER_ID QUARANTINE_FOLDER_ID Date_parse localeCompare).
Local Abbreviation step :=
  (step SCAN_FOLDER_ID QUARANTINE_FOLDER_ID Date_parse localeCompare
     toLowerCase).
Local Abbreviation exec :=
  (exec SCAN_FOLDER_ID QUARANTINE_FOLDER_ID Date_parse localeCompare
     toLowerCase).

Lemma onPendingTimeout_fileStore now i s :
  fileStore (onPendingTimeout now i s) = fileStore s.
Proof.
  unfold onPendingTimeout.
  repeat match goal with
         | |- context [match ?x with Some _ => _ | None => _ end] =>
             destruct x
         end; done.
Qed.

Lemma pollFolder_NoDup drive now s :
  NoDup (ids (fileStore s)) → NoDup (ids (fileStore (pollFolder drive now s))).
Proof.
  intros Hnd. unfold pollFolder. destruct (isAuthorized s); [| done].
  cbn [negb]. destruct (listFiles drive) as [newFiles | e] eqn:Hlist; [| done].
  destruct (detectChanges_frame s newFiles) as (Hf & _).
  destruct (detectChanges newFiles s) as [changes s1]. cbn [snd] in Hf.
  destruct (hasChanges changes); [| by rewrite Hf].
  cbn [fileStore emitFileList emit set_emitted].
  rewrite pollFolder_scans_fileStore. simpl.
  by apply (listFiles_NoDup SCAN_FOLDER_ID QUARANTINE_FOLDER_ID Date_parse
              localeCompare drive).
Qed.

Lemma step_NoDup s t :
  answersForFile t →
  NoDup (ids (fileStore s)) → NoDup (ids (fileStore (step s t))).
Proof.
  intros Hsane Hnd. unfold step.
  destruct (event t) as [| data | i tgt | data | | | n].
  - done.
  - unfold on_rescan_file. destruct data as [i|]; [| done].
    destruct (truthy i); [| done]. cbn [negb].
    destruct (bool_decide (i ∈ scanningJobs s)); cbn [negb]; [done |].
    by rewrite simulateScan_fileStore.
  - unfold on_move_file.
    destruct (or_null i) as [i'|]; [| done].
    destruct (or_null tgt) as [tgt'|]; [| done].
    destruct (isAuthorized s); cbn [negb]; [| done].
    pose proof (moveFileById_NoDup SCAN_FOLDER_ID QUARANTINE_FOLDER_ID
                  Date_parse localeCompare (drive t) (now t) i' tgt' s
                  (Hsane i') Hnd) as Hmove.
    destruct (moveFileById (drive t) (now t) i' tgt' s) as [[result s1] sent].
    cbn [fst snd] in Hmove. by destruct result.
  - unfold on_delete_file. destruct (or_null data) as [i|]; [| done].
    destruct (isAuthorized s); cbn [negb]; [| done].
    destruct (files_delete (drive t) i); [| done].
    simpl. by apply removeById_NoDup.
  - done.
  - by apply pollFolder_NoDup.
  - destruct (tasks s !! n) as [task|]; [| done].
    destruct task as [i | i | i tgt restore]; cbn [runTask].
    + done.
    + by rewrite onPendingTimeout_fileStore.
    + unfold onMoveSettled.
      pose proof (moveFileById_NoDup SCAN_FOLDER_ID QUARANTINE_FOLDER_ID
                    Date_parse localeCompare (drive t) (now t) i tgt
                    (set_tasks (delete n (tasks s)) s) (Hsane i) Hnd) as Hmove.
      destruct (moveFileById (drive t) (now t) i tgt _) as [[result s1] sent].
      cbn [fst snd] in Hmove. by destruct result.
Qed.

(** X11. In every state the server reaches, whatever the requests, timers
    and answers of Drive, no two records of [fileStore] have the same id,
    as long as Drive answers a request for a file's metadata with the
    metadata of that file. *)
Theorem fileStore_ids_distinct (authorized : bool) (turns : list Turn) :
  Forall answersForFile turns →
  NoDup (ids (fileStore (exec turns (initial authorized)))).
Proof.
  intros Hturns.
  assert (Hexec : ∀ s, NoDup (ids (fileStore s)) →
                       NoDup (ids (fileStore (exec turns s)))).
  { induction Hturns as [|t turns Ht _ IH]; intros s Hs; [done |].
    apply IH. by apply step_NoDup. }
  apply Hexec. constructor.
Qed.
End StoreFacts.

(** ** The delete handler *)

(** X12. A ['delete_file'] request that Drive carries out for an
    authorized client takes the file out of [fileStore], [scanStore] and
    [scanningJobs] and leaves every other file's record, scan record and
    job as they were; it cancels no timer: the callbacks that were waiting
    are all still waiting. The deletion and the new list are announced. *)
Theorem on_delete_file_done (drive : Drive) (now fileId : string) (s : State) :
  truthy fileId = true → isAuthorized s = true →
  files_delete drive fileId = resolved tt →
  let s' := on_delete_file drive now (Some fileId) s in
  ((fileId ∉ ids (fileStore s')) ∧ scanStore s' !! fileId = None
   ∧ (fileId ∉ scanningJobs s'))
  ∧ (∀ f, id f ≠ fileId → f ∈ fileStore s' ↔ f ∈ fileStore s)
  ∧ (∀ i, i ≠ fileId →
          scanStore s' !! i = scanStore s !! i
          ∧ (i ∈ scanningJobs s' ↔ i ∈ scanningJobs s))
  ∧ tasks s' = tasks s
  ∧ ∃ files,
      emitted s'
      = emitted s ++ [file_deleted fileId now; file_list files now 0 0 1].
Proof.
  intros Hid Hauth Hdel s'. subst s'. unfold on_delete_file. simpl.
  rewrite Hid, Hauth, Hdel. simpl. split_and!.
  - apply removeById_absent.
  - apply lookup_delete_eq.
  - rewrite elem_of_difference, elem_of_singleton. tauto.
  - intros f Hf. rewrite removeById_elem. tauto.
  - intros i Hi. rewrite lookup_delete_ne by done. split; [done |].
    rewrite elem_of_difference, elem_of_singleton. tauto.
  - done.
  - rewrite <- app_assoc. by eexists.
Qed.

(** ** Scan sequences: the announcements *)

Lemma count_none {A} (p : A → bool) l :
  Forall (fun x => p x = false) l → count p l = 0.
Proof.
  unfold count. induction 1 as [|x l Hx _ IH]; simpl; [done |].
  by rewrite Hx.
Qed.

Lemma startsOnly_refl s : startsOnly s s.
Proof. exists [], []. by rewrite !app_nil_r. Qed.

Lemma startsOnly_trans s1 s2 s3 :
  startsOnly s1 s2 → startsOnly s2 s3 → startsOnly s1 s3.
Proof.
  intros (a1 & e1 & Ht1 & He1 & Ha1 & Hs1) (a2 & e2 & Ht2 & He2 & Ha2 & Hs2).
  exists (a1 ++ a2), (e1 ++ e2).
  rewrite Ht2, Ht1, He2, He1, !app_assoc.
  split_and!; [done | done | by apply Forall_app | by apply Forall_app].
Qed.

Lemma startsOnly_sent s s' sent :
  tasks s' = tasks s → emitted s' = emitted s ++ sent →
  Forall (fun e => isScanComplete e = false) sent → startsOnly s s'.
Proof.
  intros Ht He Hs. exists [], sent. by rewrite app_nil_r.
Qed.

Lemma startsOnly_announced fileId s s' :
  startsOnly s s' → announced fileId s → announced fileId s'.
Proof.
  intros (added & sent & Ht & He & Ha & Hs).
  unfold announced, verdicts, verdictsDue, pendings.
  rewrite Ht, He, !count_app.
  rewrite (count_none (isVerdictOf fileId) sent),
    (count_none (isPendingOf fileId) sent),
    (count_none (verdictDue fileId) added); [lia | | |].
  - eapply Forall_impl; [exact Ha |]. by intros [] ?.
  - eapply Forall_impl; [exact Hs |]. by intros [] ?.
  - eapply Forall_impl; [exact Hs |]. by intros [] ?.
Qed.

Lemma simulateScan_startsOnly now i s : startsOnly s (simulateScan now i s).
Proof.
  unfold simulateScan. case_bool_decide; [apply startsOnly_refl |].
  exists [scanningTimeout i], [file_list (filesForClients
    (writeScan i {| status := scanning; lastScannedAt := None |}
       (set_scanningJobs ({[i]} ∪ scanningJobs s) s))) now 0 0 0].
  split_and!; [done | done | by repeat constructor | by repeat constructor].
Qed.

Lemma pollFolder_scans_startsOnly now toScan s :
  startsOnly s
    (fold_left (fun s file =>
       let i := id file in
       if bool_decide (i ∈ scanningJobs s) then s
       else simulateScan now i
              (writeScan i {| status := scanning; lastScannedAt := None |} s))
       toScan s).
Proof.
  revert s. induction toScan as [|file toScan IH]; intros s;
    [apply startsOnly_refl |].
  cbn [fold_left]. eapply startsOnly_trans; [| apply IH].
  cbn zeta. case_bool_decide; [apply startsOnly_refl |].
  apply (simulateScan_startsOnly now (id file) (writeScan (id file) _ s)).
Qed.

Lemma on_rescan_file_startsOnly now data s :
  startsOnly s (on_rescan_file now data s).
Proof.
  unfold on_rescan_file. destruct data as [i|]; [| apply startsOnly_refl].
  destruct (truthy i); [| apply startsOnly_refl]. cbn [negb].
  assert (H1 : startsOnly s
            (emitFileList 0 0 0 now
               (writeScan i {| status := scanning; lastScannedAt := None |} s)))
    by (eapply startsOnly_sent with (sent := [_]); by repeat constructor).
  destruct (bool_decide (i ∈ scanningJobs s)); cbn [negb]; [done |].
  eapply startsOnly_trans; [exact H1 | apply simulateScan_startsOnly].
Qed.

Lemma on_delete_file_startsOnly drive now data s :
  startsOnly s (on_delete_file drive now data s).
Proof.
  unfold on_delete_file. destruct (or_null data) as [i|];
    [| apply startsOnly_refl].
  destruct (isAuthorized s); cbn [negb];
    [| eapply startsOnly_sent with (sent := [_]); by repeat constructor].
  destruct (files_delete drive i);
    [| eapply startsOnly_sent with (sent := [_]); by repeat constructor].
  eapply startsOnly_sent with (sent := [_; _]);
    [done | simpl; by rewrite <- app_assoc | by repeat constructor].
Qed.

Section SequenceFacts.
Context (SCAN_FOLDER_ID QUARANTINE_FOLDER_ID : option string).
Context (Date_parse : string → option Z).
Context (localeCompare : string → string → Z).
Context (toLowerCase : list N → list N).
Local Abbreviation isEicarish := (isEicarish toLowerCase).
Local Abbreviation finalStatus := (finalStatus toLowerCase).
Local Abbreviation listFiles :=
  (listFiles SCAN_FOLDER_ID QUARANTINE_FOLDER_ID Date_parse localeCompare).
Local Abbreviation moveFileById :=
  (moveFileById SCAN_FOLDER_ID QUARANTINE_FOLDER_ID Date_parse localeCompare).
Local Abbreviation onPendingTimeout :=
  (onPendingTimeout SCAN_FOLDER_ID QUARANTINE_FOLDER_ID toLowerCase).
Local Abbreviation onMoveSettled :=
  (onMoveSettled SCAN_FOLDER_ID QUARANTINE_FOLDER_ID Date_parse localeCompare).
Local Abbreviation runTask :=
  (runTask SCAN_FOLDER_ID QUARANTINE_FOLDER_ID Date_parse localeCompare
     toLowerCase).
Local Abbreviation pollFolder :=
  (pollFolder SCAN_FOLDER_ID QUARANTINE_FOLDER_ID Date_parse localeCompare).
Local Abbreviation on_move_file :=
  (on_move_file SCAN_FOLDER_ID QUARANTINE_FOLDER_ID Date_parse localeCompare).
Local Abbreviation step :=
  (step SCAN_FOLDER_ID QUARANTINE_FOLDER_ID Date_parse localeCompare
     toLowerCase).
Local Abbreviation exec :=
  (exec SCAN_FOLDER_ID QUARANTINE_FOLDER_ID Date_parse localeCompare
     toLowerCase).

Lemma pollFolder_startsOnly drive now s : startsOnly s (pollFolder drive now s).
Proof.
  unfold pollFolder. destruct (isAuthorized s); [| apply startsOnly_refl].
  cbn [negb]. destruct (listFiles drive) as [newFiles | e];
    [| apply startsOnly_refl].
  destruct (detectChanges_frame s newFiles) as (_ & _ & _ & Ht & He).
  destruct (detectChanges newFiles s) as [changes s1]. cbn [snd] in Ht, He.
  assert (H1 : startsOnly s s1)
    by (eapply startsOnly_sent with (sent := []);
        [done | by rewrite app_nil_r | done]).
  destruct (hasChanges changes); [| done].
  eapply startsOnly_trans; [exact H1 |].
  eapply startsOnly_trans with (s2 := set_fileStore newFiles s1);
    [eapply startsOnly_sent with (sent := []);
       [done | by rewrite app_nil_r | done] |].
  eapply startsOnly_trans; [apply pollFolder_scans_startsOnly |].
  eapply startsOnly_sent with (sent := [_]); by repeat constructor.
Qed.

Lemma on_move_file_startsOnly drive now i targetFolderId s :
  startsOnly s (on_move_file drive now i targetFolderId s).
Proof.
  unfold on_move_file.
  destruct (or_null i) as [i'|];
    [| eapply startsOnly_sent with (sent := [_]); by repeat constructor].
  destruct (or_null targetFolderId) as [t'|];
    [| eapply startsOnly_sent with (sent := [_]); by repeat constructor].
  destruct (isAuthorized s); cbn [negb];
    [| eapply startsOnly_sent with (sent := [_]); by repeat constructor].
  pose proof (moveFileById_frame SCAN_FOLDER_ID QUARANTINE_FOLDER_ID
                Date_parse localeCompare drive now i' t' s) as Hfr.
  cbn zeta in Hfr.
  destruct (moveFileById drive now i' t' s) as [[result s1] sent].
  cbn [fst snd] in Hfr. destruct Hfr as (_ & Ht & He & _).
  destruct result.
  - eapply startsOnly_sent with (sent := [_; _]);
      [done | simpl; by rewrite He, <- app_assoc | by repeat constructor].
  - eapply startsOnly_sent with (sent := [_; _]);
      [done | simpl; by rewrite He, <- app_assoc | by repeat constructor].
  - eapply startsOnly_sent with (sent := [_]);
      [done | simpl; by rewrite He | by repeat constructor].
Qed.

Lemma runTask_announced fileId drive now n task s :
  tasks s !! n = Some task →
  announced fileId s →
  announced fileId (runTask drive now task (set_tasks (delete n (tasks s)) s)).
Proof.
  intros Hn. unfold announced, verdicts, verdictsDue, pendings.
  rewrite (count_delete (verdictDue fileId) _ _ _ Hn).
  destruct task as [i | i | i targetFolderId restore]; cbn [runTask verdictDue].
  - (* the outer timeout announces [pending] and sets the inner one *)
    simpl. rewrite !count_snoc. simpl. destruct (bool_decide (i = fileId)); lia.
  - (* the inner timeout gives the verdict *)
    destruct (onPendingTimeout_shape SCAN_FOLDER_ID QUARANTINE_FOLDER_ID
      toLowerCase now i
                (set_tasks (delete n (tasks s)) s))
      as (s1 & nm & msg & files & _ & Ht & He & Hend).
    simpl in Ht, He.
    assert (HV : count (isVerdictOf fileId) (emitted s1)
                 = count (isVerdictOf fileId) (emitted s)
                   + if bool_decide (i = fileId) then 1 else 0).
    { rewrite He, count_app. unfold count at 2. cbn [List.filter].
      rewrite finalStatus_verdict. by destruct (bool_decide (i = fileId)). }
    assert (HP : count (isPendingOf fileId) (emitted s1)
                 = count (isPendingOf fileId) (emitted s)).
    { rewrite He, count_app. unfold count at 2. cbn [List.filter].
      unfold finalStatus. destruct (isEicarish nm); simpl; lia. }
    destruct Hend as [-> | (tgt & r & ->)]; simpl;
      rewrite ?count_snoc, ?HV, ?HP, ?Ht; simpl; lia.
  - (* the move has settled *)
    unfold onMoveSettled.
    pose proof (moveFileById_frame SCAN_FOLDER_ID QUARANTINE_FOLDER_ID
                  Date_parse localeCompare drive now i targetFolderId
                  (set_tasks (delete n (tasks s)) s)) as Hfr.
    cbn zeta in Hfr.
    destruct (moveFileById drive now i targetFolderId _) as [[result s1] sent].
    cbn [fst snd] in Hfr. destruct Hfr as (_ & Ht & He & _).
    simpl in Ht, He.
    destruct result; simpl; rewrite ?Ht, ?He, <- ?app_assoc, ?count_app;
      unfold count; simpl; lia.
Qed.

Lemma step_announced fileId s t :
  announced fileId s → announced fileId (step s t).
Proof.
  unfold step. destruct (event t) as [| data | i tgt | data | | | n].
  - apply startsOnly_announced.
    eapply startsOnly_sent with (sent := [_]); by repeat constructor.
  - apply startsOnly_announced, on_rescan_file_startsOnly.
  - apply startsOnly_announced, on_move_file_startsOnly.
  - apply startsOnly_announced, on_delete_file_startsOnly.
  - done.
  - apply startsOnly_announced, pollFolder_startsOnly.
  - destruct (tasks s !! n) as [task|] eqn:Hn; [| done].
    by apply runTask_announced.
Qed.

(** X13. At every moment of every run, each file has had as many
    [pending] announcements as it has verdicts given or due: a terminal
    [scan_complete] (clean or infected) is never sent for a file that has
    not had its intermediate [scan_complete] with status pending before, one
    for each verdict. *)
Theorem verdict_follows_pending (authorized : bool) (turns : list Turn)
    (fileId : string) :
  let s := exec turns (initial authorized) in
  verdicts fileId s + verdictsDue fileId s = pendings fileId s.
Proof.
  intros s. subst s.
  assert (Hexec : ∀ s, announced fileId s → announced fileId (exec turns s)).
  { induction turns as [|t turns IH]; intros s Hs; [done |].
    apply IH. by apply step_announced. }
  by apply Hexec.
Qed.
End SequenceFacts.

(** ** Scan sequences: the job and its callbacks *)

Lemma AStep_backed a a' : AStep a a' → backed a → backed a'.
Proof. unfold backed. destruct 1; simpl; intros H; try done; intros; lia. Qed.

Lemma delete_last {A} (l : list A) x : delete (length l) (l ++ [x]) = l.
Proof.
  induction l as [|y l IH]; [done |].
  change (delete (length (y :: l)) ((y :: l) ++ [x]))
    with (y :: delete (length l) (l ++ [x])).
  by rewrite IH.
Qed.

Lemma lookup_last {A} (l : list A) x : (l ++ [x]) !! length l = Some x.
Proof. by rewrite lookup_app_r, Nat.sub_diag by lia. Qed.

Section JobFacts.
Context (SCAN_FOLDER_ID QUARANTINE_FOLDER_ID : option string).
Context (Date_parse : string → option Z).
Context (localeCompare : string → string → Z).
Context (toLowerCase : list N → list N).
Local Abbreviation isEicarish := (isEicarish toLowerCase).
Local Abbreviation finalStatus := (finalStatus toLowerCase).
Local Abbreviation moveFileById :=
  (moveFileById SCAN_FOLDER_ID QUARANTINE_FOLDER_ID Date_parse localeCompare).
Local Abbreviation onPendingTimeout :=
  (onPendingTimeout SCAN_FOLDER_ID QUARANTINE_FOLDER_ID toLowerCase).
Local Abbreviation onMoveSettled :=
  (onMoveSettled SCAN_FOLDER_ID QUARANTINE_FOLDER_ID Date_parse localeCompare).
Local Abbreviation step :=
  (step SCAN_FOLDER_ID QUARANTINE_FOLDER_ID Date_parse localeCompare
     toLowerCase).
Local Abbreviation exec :=
  (exec SCAN_FOLDER_ID QUARANTINE_FOLDER_ID Date_parse localeCompare
     toLowerCase).

Lemma step_backed fileId s t :
  backed (abstract fileId s) → backed (abstract fileId (step s t)).
Proof.
  assert (Hother : ¬ deletesFile fileId t →
            backed (abstract fileId s) → backed (abstract fileId (step s t)))
    by (intros Hne; by apply AStep_backed, step_refines).
  destruct (event t) as [| data | i tgt | [i|] | | | n] eqn:Hev;
    try (apply Hother; unfold deletesFile; rewrite Hev; by intros [? _]).
  destruct (decide (i = fileId)) as [-> | Hne];
    [| apply Hother; unfold deletesFile; rewrite Hev; intros [? _];
       congruence].
  destruct (files_delete (drive t) fileId) as [u | e] eqn:Hdel;
    [| apply Hother; unfold deletesFile; intros [_ [u Hu]]; congruence].
  unfold step. rewrite Hev. unfold on_delete_file. simpl.
  destruct (truthy fileId); [| done].
  destruct (isAuthorized s); cbn [negb].
  - rewrite Hdel. intros _. unfold backed, abstract. simpl.
    by rewrite held_remove_eq.
  - intros Hs. erewrite abstract_quiet with (sent := [_]); done.
Qed.

(** X14. In every state the server reaches, delete requests included, a
    file that is in [scanningJobs] has a callback of a scan sequence of its
    own waiting: a job is never left held with nothing under way that will
    release it. *)
Theorem no_stale_job (authorized : bool) (turns : list Turn)
    (fileId : string) :
  let s := exec turns (initial authorized) in
  fileId ∈ scanningJobs s → 0 < inFlight fileId s.
Proof.
  intros s. subst s.
  assert (Hexec : ∀ s, backed (abstract fileId s) →
                       backed (abstract fileId (exec turns s))).
  { induction turns as [|t turns IH]; intros s Hs; [done |].
    apply IH. by apply step_backed. }
  intros Hheld. apply (Hexec (initial authorized)); [done |].
  simpl. by apply bool_decide_eq_true_2.
Qed.

(** X15. A rescan request for a file with no scan under way, followed by
    the two timers of the sequence it starts, takes the file's record
    through scanning and pending, in that order and with the job held, to
    the verdict computed from the name the file has in [fileStore]; the
    sequence then either has released the job and left no callback behind,
    or holds it while it waits for one move. *)
Theorem scan_sequence_runs (s : State) (fileId : string) (t1 t2 t3 : Turn) :
  truthy fileId = true → fileId ∉ scanningJobs s →
  event t1 = rescan_request (Some fileId) →
  event t2 = task_due (length (tasks s)) →
  event t3 = task_due (length (tasks s)) →
  let s1 := step s t1 in
  let s2 := step s1 t2 in
  let s3 := step s2 t3 in
  let name := match findById fileId (fileStore s) with
              | Some f => name f
              | None => ""
              end in
  (scanStore s1 !! fileId
   = Some {| status := scanning; lastScannedAt := None |}
   ∧ fileId ∈ scanningJobs s1
   ∧ tasks s1 = tasks s ++ [scanningTimeout fileId])
  ∧ (scanStore s2 !! fileId
     = Some {| status := pending; lastScannedAt := None |}
     ∧ fileId ∈ scanningJobs s2
     ∧ tasks s2 = tasks s ++ [pendingTimeout fileId])
  ∧ scanStore s3 !! fileId
    = Some {| status := finalStatus name; lastScannedAt := Some (now t3) |}
  ∧ (tasks s3 = tasks s ∧ fileId ∉ scanningJobs s3
     ∨ ∃ targetFolderId restore,
         tasks s3 = tasks s ++ [awaitingMove fileId targetFolderId restore]
         ∧ fileId ∈ scanningJobs s3).
Proof.
  intros Hid Hfree H1 H2 H3 s1 s2 s3 nm.
  assert (Hs1 : s1 = schedule (scanningTimeout fileId)
            (emitFileList 0 0 0 (now t1)
               (writeScan fileId {| status := scanning; lastScannedAt := None |}
                  (set_scanningJobs ({[fileId]} ∪ scanningJobs s)
                     (emitFileList 0 0 0 (now t1)
                        (writeScan fileId
                           {| status := scanning; lastScannedAt := None |}
                           s)))))).
  { subst s1. unfold step. rewrite H1. unfold on_rescan_file. rewrite Hid.
    cbn [negb]. rewrite (bool_decide_eq_false_2 _ Hfree). cbn [negb].
    unfold simulateScan. simpl. by rewrite (bool_decide_eq_false_2 _ Hfree). }
  assert (Ht1 : tasks s1 = tasks s ++ [scanningTimeout fileId])
    by by rewrite Hs1.
  assert (Hj1 : scanningJobs s1 = {[fileId]} ∪ scanningJobs s)
    by by rewrite Hs1.
  assert (Hf1 : fileStore s1 = fileStore s) by by rewrite Hs1.
  assert (Hr1 : scanStore s1 !! fileId
                = Some {| status := scanning; lastScannedAt := None |})
    by (rewrite Hs1; apply lookup_insert_eq).
  clearbody s1. clear Hs1.
  assert (Hs2 : s2 = onScanningTimeout (now t2) fileId
                       (set_tasks (tasks s) s1)).
  { subst s2. unfold step. rewrite H2, Ht1, lookup_last, delete_last. done. }
  assert (Ht2 : tasks s2 = tasks s ++ [pendingTimeout fileId])
    by by rewrite Hs2.
  assert (Hj2 : scanningJobs s2 = {[fileId]} ∪ scanningJobs s)
    by by rewrite Hs2.
  assert (Hf2 : fileStore s2 = fileStore s) by by rewrite Hs2.
  assert (Hr2 : scanStore s2 !! fileId
                = Some {| status := pending; lastScannedAt := None |})
    by (rewrite Hs2; apply lookup_insert_eq).
  clearbody s2. clear Hs2.
  assert (Hs3 : s3 = onPendingTimeout (now t3) fileId
                       (set_tasks (tasks s) s2)).
  { subst s3. unfold step. rewrite H3, Ht2, lookup_last, delete_last. done. }
  assert (Hheld : ∀ X : gset string, fileId ∈ {[fileId]} ∪ X)
    by (intros X; rewrite elem_of_union, elem_of_singleton; auto).
  split_and!; [done | by rewrite Hj1 | done | done | by rewrite Hj2 | done | |].
  - rewrite Hs3, onPendingTimeout_record. cbn [fileStore set_tasks].
    by rewrite Hf2.
  - destruct (onPendingTimeout_shape SCAN_FOLDER_ID QUARANTINE_FOLDER_ID
    toLowerCase (now t3) fileId (set_tasks (tasks s) s2))
      as (s' & nm' & msg & files & Hj & Ht & _ & Hend).
    simpl in Hj, Ht. rewrite Hs3.
    destruct Hend as [-> | (tgt & r & ->)]; simpl.
    + left. split; [done |].
      rewrite elem_of_difference, elem_of_singleton. tauto.
    + right. exists tgt, r. rewrite Ht, Hj, Hj2. done.
Qed.

(** X16. What the inner callback does after the verdict, for a file that
    is in [fileStore]. A flagged file of the scan folder is handed over for
    a move to the quarantine folder, when one is configured; a file of the
    quarantine folder that is not flagged is handed over for a move back to
    the scan folder, when one is configured; in both cases the job stays
    held until the move settles. A flagged file of the quarantine folder
    and an unflagged file of the scan folder are moved nowhere, and the job
    is released at once. *)
Theorem verdict_starts_move (now fileId : string) (s : State) (f : FileRecord) :
  findById fileId (fileStore s) = Some f →
  let s' := onPendingTimeout now fileId s in
  (isEicarish (name f) = true → source f = scan →
   ∀ folder, QUARANTINE_FOLDER_ID = Some folder → truthy folder = true →
     tasks s' = tasks s ++ [awaitingMove fileId folder false]
     ∧ scanningJobs s' = scanningJobs s)
  ∧ (isEicarish (name f) = false → source f = quarantine →
     ∀ folder, SCAN_FOLDER_ID = Some folder → truthy folder = true →
       tasks s' = tasks s ++ [awaitingMove fileId folder true]
       ∧ scanningJobs s' = scanningJobs s)
  ∧ (isEicarish (name f) = true ∧ source f = quarantine
     ∨ isEicarish (name f) = false ∧ source f = scan →
     tasks s' = tasks s ∧ scanningJobs s' = scanningJobs s ∖ {[fileId]}).
Proof.
  intros Hfind s'. subst s'. unfold onPendingTimeout. rewrite Hfind.
  split_and!.
  - intros -> -> folder -> Hfolder. simpl. by rewrite Hfolder.
  - intros -> -> folder Hq Hfolder. rewrite Hq. simpl. by rewrite Hfolder.
  - intros [[-> ->] | [-> ->]]; done.
Qed.

(** X17. When the move a scan sequence waits for has settled, the job is
    released whatever Drive answered, and no callback is left behind: a
    refused move is reported as a [scan_alert] carrying the error (or the
    fallback text when the error has no message), and anything else, the
    no-op of a file already in the target folder included, as a
    [file_moved] followed by the file list. *)
Theorem onMoveSettled_releases (drive : Drive) (now fileId
    targetFolderId : string) (restore : bool) (s : State) :
  let s' := onMoveSettled drive now fileId targetFolderId restore s in
  let result := fst (fst (moveFileById drive now fileId targetFolderId s)) in
  (fileId ∉ scanningJobs s')
  ∧ tasks s' = tasks s
  ∧ match result with
    | move_error e =>
        emitted s'
        = emitted s
          ++ [scan_alert fileId
                (or_else e (if restore then "Auto-restore failed"
                            else "Auto-quarantine failed"))]
    | _ =>
        ∃ files,
          emitted s'
          = emitted s
            ++ [file_moved fileId targetFolderId now None
                  (Some (if restore then "Restored clean file to scan folder"
                         else "Auto-quarantined infected file"));
                file_list files now 0 0 0]
    end.
Proof.
  intros s' result. subst s' result. unfold onMoveSettled.
  pose proof (moveFileById_frame SCAN_FOLDER_ID QUARANTINE_FOLDER_ID
                Date_parse localeCompare drive now fileId targetFolderId s)
    as Hfr.
  cbn zeta in Hfr.
  destruct (moveFileById drive now fileId targetFolderId s)
    as [[result s1] sent].
  cbn [fst snd] in *. destruct Hfr as (Hj & Ht & He & _).
  assert (Hrel : ∀ X : gset string, fileId ∉ X ∖ {[fileId]})
    by (intros X; rewrite elem_of_difference, elem_of_singleton; tauto).
  destruct result; simpl; rewrite ?Ht, ?He, <- ?app_assoc;
    (split_and!; [apply Hrel | done | try done; by eexists]).
Qed.
End JobFacts.

(** ** The rows of the spreadsheet *)

Lemma truthy_toUpperCase s : truthy (toUpperCase s) = truthy s.
Proof. by destruct s. Qed.

Lemma truthy_nonempty s : truthy s = true → s ≠ "".
Proof. by destruct s. Qed.

Lemma or_text_nonempty x fallback : fallback ≠ "" → or_text x fallback ≠ "".
Proof.
  intros Hf. unfold or_text, or_null. destruct x as [s|]; [| done].
  destruct (truthy s) eqn:Hs; [by apply truthy_nonempty | done].
Qed.

Lemma or_else_nonempty x fallback : fallback ≠ "" → or_else x fallback ≠ "".
Proof.
  intros Hf. unfold or_else.
  destruct (truthy x) eqn:Hs; [by apply truthy_nonempty | done].
Qed.

Lemma sheetType_nonempty mimeType : sheetType mimeType ≠ "".
Proof.
  unfold sheetType.
  destruct (truthy mimeType) eqn:Hm; [| by apply or_else_nonempty].
  destruct (split "/" mimeType !! 1) as [sub|]; simpl;
    [| by apply or_else_nonempty].
  destruct (truthy sub) eqn:Hsub; [| by apply or_else_nonempty].
  apply truthy_nonempty. by rewrite truthy_toUpperCase.
Qed.

Section SheetFacts.
Context (Date_parse : string → option Z).
Local Abbreviation sheetTime := (sheetTime Date_parse).
Local Abbreviation sheetInstant := (sheetInstant Date_parse).
Local Abbreviation compareRows := (compareRows Date_parse).
Local Abbreviation sheetRows := (sheetRows Date_parse).
Local Abbreviation updateSheetFromFiles := (updateSheetFromFiles Date_parse).

Lemma compareRows_instant a b :
  is_Some (sheetTime a) → is_Some (sheetTime b) →
  compareRows a b = (sheetInstant b - sheetInstant a)%Z.
Proof.
  unfold compareRows, sheetInstant. by intros [ta ->] [tb ->].
Qed.

(** X18. When every [modifiedTime] the files carry is a valid date, the
    rows below the header are those of the files from the most recently
    modified to the least, a file without [modifiedTime] counting as
    modified at the epoch, and files modified at the same instant keep the
    order they had in the list. *)
Theorem sheetRows_newest_first (SHEET_ID : option string)
    (files : list ClientFile) :
  truthy_opt SHEET_ID = true →
  Forall (fun f => is_Some (sheetTime f)) files →
  ∃ sorted,
    updateSheetFromFiles SHEET_ID files
    = Some (sheetHeader :: map sheetRow sorted)
    ∧ sorted ≡ₚ files
    ∧ StronglySorted (fun a b => (sheetInstant b ≤ sheetInstant a)%Z) sorted
    ∧ ∀ instant,
        filter (fun f => sheetInstant f = instant) sorted
        = filter (fun f => sheetInstant f = instant) files.
Proof.
  intros Hsheet Hdated. exists (sort compareRows files).
  unfold updateSheetFromFiles. rewrite Hsheet. split_and!.
  - done.
  - apply sort_Permutation.
  - apply (sort_descending compareRows sheetInstant
             (fun f => is_Some (sheetTime f)) compareRows_instant _ Hdated).
  - intros instant.
    apply (sort_stable compareRows sheetInstant
             (fun f => is_Some (sheetTime f)) compareRows_instant _ _ Hdated).
Qed.

(** X19. Whatever the files, the sheet written starts with the header row
    and has one row of six cells for each file; in every such row the MD5,
    Size and Type cells are filled (with ["-"], ["-"] and the MIME type or
    ["Unknown"] when there is nothing better) and the Status cell is one
    of the four statuses. *)
Theorem sheetRows_filled (SHEET_ID : option string) (files : list ClientFile) :
  truthy_opt SHEET_ID = true →
  ∃ rows,
    updateSheetFromFiles SHEET_ID files = Some (sheetHeader :: rows)
    ∧ length rows = length files
    ∧ Forall (fun row =>
        ∃ md5 name size type time st,
          row = [md5; name; size; type; time; statusName st]
          ∧ md5 ≠ "" ∧ size ≠ "" ∧ type ≠ "") rows.
Proof.
  intros Hsheet.
  exists (map sheetRow (sort compareRows files)).
  unfold updateSheetFromFiles. rewrite Hsheet. split_and!.
  - done.
  - by rewrite length_map, sort_Permutation.
  - apply Forall_fmap, Forall_forall. intros f _.
    exists (or_text (cf_md5Checksum f) "-"), (or_else (cf_name f) ""),
      (or_else (cf_size f) "-"), (sheetType (cf_mimeType f)),
      (or_text (cf_modifiedTime f) ""), (cf_scanStatus f).
    split_and!.
    + unfold sheetRow. by destruct (cf_scanStatus f).
    + by apply or_text_nonempty.
    + by apply or_else_nonempty.
    + apply sheetType_nonempty.
Qed.
End SheetFacts.

(** ** The poll timer *)

Lemma startPolling_oneInterval p : oneInterval p → oneInterval (startPolling p).
Proof.
  unfold oneInterval, startPolling. destruct (pollTimer p) as [timer|]; simpl.
  - intros ->. rewrite filter_cons_False, filter_nil by tauto. done.
  - by intros ->.
Qed.

Lemma stopPolling_oneInterval p : oneInterval p → oneInterval (stopPolling p).
Proof.
  unfold oneInterval, stopPolling.
  destruct (pollTimer p) as [timer|] eqn:Hp; simpl.
  - intros ->. by rewrite filter_cons_False, filter_nil by tauto.
  - by rewrite Hp.
Qed.

Lemma callPoller_pollsMade calls p :
  pollsMade (fold_left callPoller calls p)
  = pollsMade p + length (List.filter isStart calls).
Proof.
  revert p. induction calls as [|c calls IH]; intros p; simpl; [lia |].
  rewrite IH. destruct c; simpl.
  - unfold startPolling. destruct (pollTimer p); simpl; lia.
  - unfold stopPolling. by destruct (pollTimer p).
Qed.

(** X20. However often polling is started and stopped, at most one
    interval is set at any time, and it is the one [pollTimer] holds:
    starting again, as a repeated authorization does, replaces the timer
    instead of adding one, stopping leaves none, and [polling] of the
    status report is true exactly when an interval is set. Each start also
    polls once at once. *)
Theorem one_poll_timer (calls : list PollerCall) :
  let p := fold_left callPoller calls idle in
  length (intervals p) ≤ 1
  ∧ (∀ timer, timer ∈ intervals p ↔ pollTimer p = Some timer)
  ∧ (polling p = true ↔ intervals p ≠ [])
  ∧ pollsMade p = length (List.filter isStart calls).
Proof.
  intros p.
  assert (Hone : oneInterval p).
  { subst p.
    assert (H : ∀ q, oneInterval q → oneInterval (fold_left callPoller calls q)).
    { induction calls as [|c calls IH]; intros q Hq; [done |].
      apply IH. destruct c;
        [by apply startPolling_oneInterval | by apply stopPolling_oneInterval]. }
    by apply H. }
  unfold oneInterval in Hone. unfold polling. rewrite Hone. split_and!.
  - destruct (pollTimer p); simpl; lia.
  - intros timer. destruct (pollTimer p) as [t|].
    + rewrite list_elem_of_singleton. split; congruence.
    + rewrite elem_of_nil. split; [tauto | done].
  - by destruct (pollTimer p).
  - subst p. by rewrite callPoller_pollsMade.
Qed.

(** ** The instance of [localeCompare] *)

Lemma compareByCode_orders : ordersNames compareByCode.
Proof.
  unfold ordersNames, compareByCode. split.
  - intros x y. rewrite (String.compare_antisym y x).
    destruct (String.compare x y); simpl; lia.
  - intros x y z.
    destruct (String.compare x y) eqn:Hxy; [| | lia];
      destruct (String.compare y z) eqn:Hyz; try lia; intros _ _.
    + apply String.compare_eq_iff in Hxy as ->. by rewrite Hyz.
    + apply String.compare_eq_iff in Hxy as ->. by rewrite Hyz.
    + apply String.compare_eq_iff in Hyz as <-. by rewrite Hxy.
    + apply String_as_OT.cmp_lt in Hxy, Hyz.
      pose proof (String_as_OT.lt_trans _ _ _ Hxy Hyz) as Hxz.
      apply String_as_OT.cmp_lt in Hxz. unfold String_as_OT.cmp in Hxz.
      by rewrite Hxz.
Qed.

(** ** The theorems at work *)

Example isEicarish_eicar_test :
  isEicarish toLowerCase_latin "eicar_test.txt" = true.
Proof. reflexivity. Qed.
Example isEicarish_upper : isEicarish toLowerCase_latin "EICAR-sample" = true.
Proof. reflexivity. Qed.
Example isEicarish_spread :
  isEicarish toLowerCase_latin "vErIfiCAtion-Report" = true.
Proof. reflexivity. Qed.
Example isEicarish_report : isEicarish toLowerCase_latin "report.pdf" = false.
Proof. reflexivity. Qed.
Example isEicarish_scared : isEicarish toLowerCase_latin "scared.txt" = false.
Proof. reflexivity. Qed.

(** The code units of characters of one, two, three and four bytes. *)
Example codeUnits_by_length :
  codeUnits "a" = [97]%N ∧ codeUnits "é" = [233]%N
  ∧ codeUnits "€" = [8364]%N ∧ codeUnits "😀" = [55357; 56832]%N.
Proof. repeat split; reflexivity. Qed.

Example Date_parse_utc_epoch :
  Date_parse_utc "1970-01-01T00:00:00.000Z" = Some 0%Z
  ∧ Date_parse_utc jan1 = Some 1704067200000%Z
  ∧ Date_parse_utc "yesterday" = None.
Proof. repeat split; reflexivity. Qed.

(** C1 refuted: the name has no i, small or capital, and is flagged, since
    the lower-case form of U+0130 starts with one. *)
Lemma flagged_without_the_letter_i :
  codeUnits dottedName = [101; 304; 99; 97; 114]%N
  ∧ toLowerCase_latin (codeUnits dottedName)
    = [101; 105; 775; 99; 97; 114]%N
  ∧ finalStatus toLowerCase_latin dottedName = infected
  ∧ ¬ occursIgnoringCase (codeUnits "eicar") dottedName.
Proof.
  split_and!; [reflexivity | reflexivity | reflexivity |].
  intros (sub & Hsub & Hall).
  change (codeUnits dottedName) with [101; 304; 99; 97; 114]%N in Hsub.
  change (codeUnits "eicar") with [101; 105; 99; 97; 114]%N in Hall.
  apply Forall2_cons_inv_l in Hall as (c1 & sub1 & _ & Hall & ->).
  apply Forall2_cons_inv_l in Hall as (c2 & sub2 & Hi & _ & ->).
  assert (Hin : c2 ∈ [101; 304; 99; 97; 114]%N).
  { eapply elem_of_submseteq; [| apply sublist_submseteq, Hsub].
    apply list_elem_of_further, list_elem_of_here. }
  rewrite !elem_of_cons, elem_of_nil in Hin.
  unfold matchesLetter, upperOf in Hi. lia.
Qed.

(** C1 at work: the scan of [f4], whose name has the letters, ends
    infected. *)
Lemma verdict_by_name_witness :
  lowersLetters toLowerCase_latin
  ∧ NoDup (ids (fileStore oneFlaggedFile))
  ∧ name (tag scan fileEicar) = "eicar-sample.com"
  ∧ scanStore
      (onPendingTimeout (Some scanFolder) (Some quarantineFolder)
         toLowerCase_latin noon "f4" oneFlaggedFile) !! "f4"
    = Some {| status := infected; lastScannedAt := Some noon |}.
Proof.
  assert (Hnd : NoDup (ids (fileStore oneFlaggedFile))).
  { refine (bool_decide_unpack (NoDup (ids (fileStore oneFlaggedFile))) _).
    vm_compute. exact I. }
  assert (Hin : tag scan fileEicar ∈ fileStore oneFlaggedFile)
    by apply list_elem_of_here.
  split_and!; [exact toLowerCase_latin_lowers | exact Hnd | reflexivity |].
  exact (proj1 (proj2 (proj2 (proj2 (proj2
           (verdict_by_name (Some scanFolder) (Some quarantineFolder)
              toLowerCase_latin toLowerCase_latin_lowers))))
           noon "f4" oneFlaggedFile (tag scan fileEicar) Hnd Hin eq_refl)).
Defined.

(** C2 at work: [fileC] is new, [fileB] has left, and [fileA] has moved to
    the quarantine folder. *)
Lemma detectChanges_partitions_witness :
  let s := set_fileStore [tag scan fileA; tag scan fileB] (initial true) in
  let newFiles := [tag scan fileC; tag quarantine fileA] in
  NoDup (ids (fileStore s)) ∧ NoDup (ids newFiles)
  ∧ fst (detectChanges newFiles s)
    = {| added := [tag scan fileC]; modified := [tag quarantine fileA];
         deleted := [tag scan fileB]; hasChanges := true |}
  ∧ (∀ f, f ∈ added (fst (detectChanges newFiles s))
          ↔ f ∈ newFiles ∧ id f ∉ ids (fileStore s)).
Proof.
  intros s newFiles.
  assert (H1 : NoDup (ids (fileStore s))).
  { refine (bool_decide_unpack (NoDup (ids (fileStore s))) _).
    vm_compute. exact I. }
  assert (H2 : NoDup (ids newFiles)).
  { refine (bool_decide_unpack (NoDup (ids newFiles)) _).
    vm_compute. exact I. }
  split_and!; [exact H1 | exact H2 | reflexivity |].
  exact (proj1 (detectChanges_partitions s newFiles H1 H2)).
Defined.

(** C3 refuted: the call deletes the scan record of a file that has left. *)
Lemma detectChanges_deletes_scan_records :
  scanStore oneCleanFile !! "f1"
  = Some {| status := clean; lastScannedAt := Some jan2 |}
  ∧ scanStore (snd (detectChanges [] oneCleanFile)) !! "f1" = None
  ∧ scanStore (snd (detectChanges [] oneCleanFile)) ≠ scanStore oneCleanFile.
Proof.
  split_and!; [reflexivity | reflexivity |].
  intros H. apply (f_equal (fun m => m !! "f1")) in H. discriminate H.
Qed.

(** C4 refuted: the poll starts a scan of [f1], a delete request for [f1] is
    served, and a rescan request then starts a second sequence while the
    callbacks of the first are still waiting; both reach their verdict. *)
Lemma two_sequences_after_delete :
  let run :=
    [turn poll_tick (driveListing [fileA] []) jan2;
     turn (delete_request (Some "f1")) driveDeleting noon;
     turn (rescan_request (Some "f1")) driveDown noon] in
  let fire := turn (task_due 0) driveDown noon in
  let served :=
    exec (Some scanFolder) (Some quarantineFolder) Date_parse_utc compareByCode
      toLowerCase_latin run (initial true) in
  let finished :=
    exec (Some scanFolder) (Some quarantineFolder) Date_parse_utc compareByCode
      toLowerCase_latin (run ++ [fire; fire; fire; fire]) (initial true) in
  tasks served = [scanningTimeout "f1"; scanningTimeout "f1"]
  ∧ inFlight "f1" served = 2
  ∧ verdicts "f1" finished = 2
  ∧ tasks finished = [].
Proof. vm_compute. repeat split. Qed.

(** C4 at work: a poll starts the scan of [f1], two rescan requests arrive
    before its callbacks have run, and the sequence runs to its end. *)
Lemma one_scan_sequence_per_file_witness :
  let rescan := turn (rescan_request (Some "f1")) driveDown noon in
  let fire := turn (task_due 0) driveDown noon in
  let run :=
    [turn poll_tick (driveListing [fileA] []) jan2; rescan; rescan;
     fire; fire] in
  let s :=
    exec (Some scanFolder) (Some quarantineFolder) Date_parse_utc compareByCode
      toLowerCase_latin run (initial true) in
  Forall (fun t => ¬ deletesFile "f1" t) run
  ∧ inFlight "f1" s ≤ 1
  ∧ verdicts "f1" s = 1
  ∧ sequencesStarted (Some scanFolder) (Some quarantineFolder) Date_parse_utc
      compareByCode toLowerCase_latin "f1" run (initial true) = 1.
Proof.
  intros rescan fire run s.
  assert (Hrun : Forall (fun t => ¬ deletesFile "f1" t) run).
  { repeat constructor; intros [Hev _]; discriminate Hev. }
  split_and!; [exact Hrun | | reflexivity | reflexivity].
  exact (proj1 (one_scan_sequence_per_file (Some scanFolder)
                  (Some quarantineFolder) Date_parse_utc compareByCode
                    toLowerCase_latin true run "f1" Hrun)).
Defined.

(** C5 refuted: two files modified at the same instant come out in the
    order of the listing, [a.txt] before [b.txt], not by descending name. *)
Lemma listing_order_on_ties :
  mergeListings Date_parse_utc compareByCode (map (tag scan) [fileA; fileB]) []
  = [tag scan fileA; tag scan fileB]
  ∧ instant Date_parse_utc (tag scan fileA)
    = instant Date_parse_utc (tag scan fileB)
  ∧ compareByCode (name (tag scan fileB)) (name (tag scan fileA)) = 1%Z
  ∧ ¬ Sorted (olderOrNameDescending Date_parse_utc compareByCode)
        (mergeListings Date_parse_utc compareByCode
           (map (tag scan) [fileA; fileB]) []).
Proof.
  split_and!; [reflexivity | reflexivity | reflexivity |].
  change (mergeListings Date_parse_utc compareByCode
            (map (tag scan) [fileA; fileB]) [])
    with [tag scan fileA; tag scan fileB].
  intros Hs. apply Sorted_inv in Hs as [_ Hhd]. apply HdRel_inv in Hhd.
  destruct Hhd as [Hlt | [_ Hle]]; vm_compute in Hlt || vm_compute in Hle;
    [discriminate Hlt | by apply Hle].
Qed.

(** C5 at work: [fileB] is in both listings, and was modified at the same
    instant as [fileA]; and three files without [modifiedTime]. *)
Lemma mergeListings_snapshot_witness :
  let scanFiles := map (tag scan) [fileA; fileB; fileC] in
  let quarantineFiles := map (tag quarantine) [fileB] in
  let undatedFiles :=
    map (tag scan)
      [undatedFile "g1" "a.txt"; undatedFile "g2" "c.txt";
       undatedFile "g3" "b.txt"] in
  Forall (dated Date_parse_utc) (scanFiles ++ quarantineFiles)
  ∧ mergedInListingOrder scanFiles quarantineFiles
    = [tag scan fileA; tag quarantine fileB; tag scan fileC]
  ∧ mergeListings Date_parse_utc compareByCode scanFiles quarantineFiles
    = [tag scan fileC; tag scan fileA; tag quarantine fileB]
  ∧ StronglySorted (notNewer Date_parse_utc)
      (mergeListings Date_parse_utc compareByCode scanFiles quarantineFiles)
  ∧ Forall undated (undatedFiles ++ [])
  ∧ ordersNames compareByCode
  ∧ map name (mergeListings Date_parse_utc compareByCode undatedFiles [])
    = ["c.txt"; "b.txt"; "a.txt"]
  ∧ StronglySorted (nameNotGreater compareByCode)
      (mergeListings Date_parse_utc compareByCode undatedFiles []).
Proof.
  intros scanFiles quarantineFiles undatedFiles.
  assert (Hd : Forall (dated Date_parse_utc) (scanFiles ++ quarantineFiles)).
  { repeat constructor; vm_compute; eauto. }
  assert (Hu : Forall undated (undatedFiles ++ []))
    by (repeat constructor).
  split_and!; [exact Hd | reflexivity | reflexivity | | exact Hu
               | exact compareByCode_orders | reflexivity |].
  - exact (proj1 (proj1 (proj2 (proj2 (proj2
             (mergeListings_snapshot Date_parse_utc compareByCode
                [fileA; fileB; fileC] [fileB])))) Hd)).
  - exact (proj1 (proj2 (proj2 (proj2 (proj2
             (mergeListings_snapshot Date_parse_utc compareByCode
                [undatedFile "g1" "a.txt"; undatedFile "g2" "c.txt";
                 undatedFile "g3" "b.txt"] [])))))
             Hu compareByCode_orders).
Defined.

(** C6 at work: the file is asked into the quarantine folder it is in. *)
Lemma moveFileById_already_there_witness :
  let drive := driveMoving [quarantineFolder] [quarantineFolder] fileA in
  let meta := {| meta_parents := Some [quarantineFolder];
                 meta_name := "a.txt" |} in
  files_get_parents drive "f1" = resolved meta
  ∧ quarantineFolder ∈ default [] (meta_parents meta)
  ∧ moveFileById (Some scanFolder) (Some quarantineFolder) Date_parse_utc
      compareByCode drive noon "f1" quarantineFolder oneCleanFile
    = (move_unchanged "a.txt", oneCleanFile, [call_get_parents "f1"]).
Proof.
  intros drive meta.
  assert (H1 : files_get_parents drive "f1" = resolved meta) by reflexivity.
  assert (H2 : quarantineFolder ∈ default [] (meta_parents meta)).
  { simpl. apply list_elem_of_here. }
  split_and!; [exact H1 | exact H2 |].
  exact (moveFileById_already_there (Some scanFolder) (Some quarantineFolder)
           Date_parse_utc compareByCode drive noon "f1" quarantineFolder
           oneCleanFile meta H1 H2).
Defined.

(** C7 on the code: [f1] is listed, its scan starts, and the next listing
    is empty. The pass reports the file deleted and drops its scan record,
    and leaves it in [scanningJobs] with its callback waiting. *)
Theorem poll_keeps_job_of_vanished_file :
  let listed :=
    exec (Some scanFolder) (Some quarantineFolder) Date_parse_utc compareByCode
      toLowerCase_latin
      [turn poll_tick (driveListing [fileA] []) jan2] (initial true) in
  let gone :=
    pollFolder (Some scanFolder) (Some quarantineFolder) Date_parse_utc
      compareByCode (driveListing [] []) noon listed in
  scanStore listed !! "f1"
  = Some {| status := scanning; lastScannedAt := None |}
  ∧ "f1" ∈ scanningJobs listed
  ∧ ids (deleted (fst (detectChanges [] listed))) = ["f1"]
  ∧ fileStore gone = []
  ∧ scanStore gone !! "f1" = None
  ∧ "f1" ∈ scanningJobs gone
  ∧ tasks gone = [scanningTimeout "f1"].
Proof.
  intros listed gone.
  assert (Hheld : "f1" ∈ scanningJobs listed).
  { refine (bool_decide_unpack ("f1" ∈ scanningJobs listed) _).
    vm_compute. exact I. }
  split_and!; [reflexivity | exact Hheld | reflexivity | reflexivity
               | reflexivity | | reflexivity].
  by apply pollFolder_keeps_jobs.
Qed.

(** C8 at work: the scan of [f1] reaches its verdict after the file has
    left the file store. *)
Lemma verdict_of_vanished_file_witness :
  let s := set_fileStore [] midScan in
  ("f1" ∉ ids (fileStore s))
  ∧ scanStore
      (onPendingTimeout (Some scanFolder) (Some quarantineFolder)
        toLowerCase_latin noon "f1" s)
      !! "f1"
    = Some {| status := clean; lastScannedAt := Some noon |}.
Proof.
  intros s.
  assert (H : "f1" ∉ ids (fileStore s)) by apply not_elem_of_nil.
  split; [exact H |].
  exact (proj1 (proj2 (verdict_of_vanished_file (Some scanFolder)
                         (Some quarantineFolder)
                           toLowerCase_latin noon "f1" s H))).
Defined.

(** C9 at work: a client moves [f1], last found clean, to quarantine. *)
Lemma move_to_quarantine_marks_infected_witness :
  let drive := driveMoving [scanFolder] [quarantineFolder] fileA in
  truthy quarantineFolder = true
  ∧ Some scanFolder ≠ Some quarantineFolder
  ∧ scanStore oneCleanFile !! "f1"
    = Some {| status := clean; lastScannedAt := Some jan2 |}
  ∧ scanStore
      (on_move_file (Some scanFolder) (Some quarantineFolder)
         Date_parse_utc compareByCode drive noon (Some "f1")
         (Some quarantineFolder) oneCleanFile) !! "f1"
    = Some {| status := infected; lastScannedAt := Some noon |}.
Proof.
  intros drive.
  set (result := moveFileById (Some scanFolder) (Some quarantineFolder)
                   Date_parse_utc compareByCode drive noon "f1"
                   quarantineFolder oneCleanFile).
  assert (Hmove : result = (move_done (Some [quarantineFolder]),
                            snd (fst result), snd result)) by reflexivity.
  assert (Hne : Some scanFolder ≠ Some quarantineFolder) by discriminate.
  split_and!; [reflexivity | exact Hne | reflexivity |].
  exact (proj2 (move_to_quarantine_marks_infected (Some scanFolder)
                  (Some quarantineFolder) Date_parse_utc compareByCode drive
                  noon "f1" quarantineFolder oneCleanFile (snd (fst result))
                  (Some [quarantineFolder]) (snd result) eq_refl eq_refl
                  Hne Hmove) eq_refl eq_refl).
Defined.

(** C10 at work: a rescan request before any authorization. *)
Lemma rescan_ignores_authorization_witness :
  truthy "f1" = true
  ∧ isAuthorized (initial false) = false
  ∧ scanStore (on_rescan_file noon (Some "f1") (initial false)) !! "f1"
    = Some {| status := scanning; lastScannedAt := None |}.
Proof.
  split_and!; [reflexivity | reflexivity |].
  exact (proj1 (rescan_ignores_authorization (Some scanFolder)
                  (Some quarantineFolder) Date_parse_utc compareByCode
                  noon "f1" (initial false) eq_refl)).
Defined.

(** ** The properties of the code at work *)

(** X1 at work. *)
Lemma isEicarish_more_characters_witness :
  lowersLetters toLowerCase_latin
  ∧ codeUnits "eicar" `sublist_of` codeUnits "my-eicar-test.txt"
  ∧ isEicarish toLowerCase_latin "eicar" = true
  ∧ isEicarish toLowerCase_latin "my-eicar-test.txt" = true.
Proof.
  assert (H1 : codeUnits "eicar" `sublist_of` codeUnits "my-eicar-test.txt").
  { vm_compute. do 3 apply sublist_cons. do 5 apply sublist_skip.
    apply sublist_nil_l. }
  split_and!; [exact toLowerCase_latin_lowers | exact H1 | reflexivity |].
  exact (isEicarish_more_characters toLowerCase_latin "eicar"
           "my-eicar-test.txt" toLowerCase_latin_lowers H1 eq_refl).
Defined.

(** X2 at work. *)
Lemma isEicarish_short_name_witness :
  lowersLetters toLowerCase_latin
  ∧ length (codeUnits "eicr") < 5
  ∧ isEicarish toLowerCase_latin "eicr" = false.
Proof.
  assert (H : length (codeUnits "eicr") < 5) by (vm_compute; lia).
  split_and!; [exact toLowerCase_latin_lowers | exact H |].
  exact (isEicarish_short_name toLowerCase_latin "eicr"
           toLowerCase_latin_lowers H).
Defined.

(** X4 at work: the listing shows [f1] under a new name with its old
    [modifiedTime]; the file store keeps the old name. *)
Lemma pollFolder_nothing_new_witness :
  let drive := driveListing [fileARenamed] [] in
  listFiles (Some scanFolder) (Some quarantineFolder) Date_parse_utc
    compareByCode drive
  = resolved [tag scan fileARenamed]
  ∧ pollFolder (Some scanFolder) (Some quarantineFolder) Date_parse_utc
      compareByCode drive noon oneCleanFile
    = oneCleanFile
  ∧ map name (fileStore oneCleanFile) = ["a.txt"].
Proof.
  intros drive.
  assert (H1 : listFiles (Some scanFolder) (Some quarantineFolder)
                 Date_parse_utc compareByCode drive
               = resolved [tag scan fileARenamed]) by reflexivity.
  assert (H2 : NoDup (ids (fileStore oneCleanFile))).
  { refine (bool_decide_unpack (NoDup (ids (fileStore oneCleanFile))) _).
    vm_compute. exact I. }
  assert (H3 : ∀ f, f ∈ [tag scan fileARenamed] →
                 ∃ o, o ∈ fileStore oneCleanFile ∧ id o = id f
                      ∧ modifiedTime o = modifiedTime f
                      ∧ source o = source f).
  { intros f Hf. apply list_elem_of_singleton in Hf as ->.
    exists (tag scan fileA).
    split_and!; [apply list_elem_of_here | reflexivity | reflexivity
                 | reflexivity]. }
  assert (H4 : ∀ o, o ∈ fileStore oneCleanFile →
                 id o ∈ ids [tag scan fileARenamed]).
  { intros o Ho. apply list_elem_of_singleton in Ho as ->.
    apply list_elem_of_here. }
  split_and!; [exact H1 | | reflexivity].
  exact (pollFolder_nothing_new (Some scanFolder) (Some quarantineFolder)
           Date_parse_utc compareByCode drive noon oneCleanFile
           [tag scan fileARenamed] H1 H2 H3 H4).
Defined.

(** X5 at work: the quarantine folder configured does not exist, and the
    file the scan folder lists is not taken in. *)
Lemma pollFolder_listing_fails_witness :
  let drive := driveListing [fileA] [] in
  files_list drive scanFolder = resolved [fileA]
  ∧ files_list drive "no-such-folder" = rejected "File not found"
  ∧ pollFolder (Some scanFolder) (Some "no-such-folder") Date_parse_utc
      compareByCode drive noon (initial true)
    = initial true.
Proof.
  intros drive.
  assert (H : files_list drive "no-such-folder" = rejected "File not found")
    by reflexivity.
  split_and!; [reflexivity | exact H |].
  exact (pollFolder_listing_fails (Some scanFolder) (Some "no-such-folder")
           Date_parse_utc compareByCode drive noon (initial true) scanFolder
           "no-such-folder" "File not found" eq_refl eq_refl eq_refl eq_refl
           (or_intror H)).
Defined.

(** X6 at work: the first poll finds [f1] in the scan folder and [f2] in
    the quarantine folder; only [f1] is scanned. *)
Lemma pollFolder_starts_scans_witness :
  let drive := driveListing [fileA] [fileB] in
  let s' :=
    pollFolder (Some scanFolder) (Some quarantineFolder) Date_parse_utc
      compareByCode drive noon (initial true) in
  listFiles (Some scanFolder) (Some quarantineFolder) Date_parse_utc
    compareByCode drive
  = resolved [tag scan fileA; tag quarantine fileB]
  ∧ fileStore s' = [tag scan fileA; tag quarantine fileB]
  ∧ tasks s' = [scanningTimeout "f1"].
Proof.
  intros drive s'.
  assert (H1 : listFiles (Some scanFolder) (Some quarantineFolder)
                 Date_parse_utc compareByCode drive
               = resolved [tag scan fileA; tag quarantine fileB])
    by reflexivity.
  pose proof (pollFolder_starts_scans (Some scanFolder) (Some quarantineFolder)
                Date_parse_utc compareByCode drive noon (initial true)
                [tag scan fileA; tag quarantine fileB] eq_refl H1 eq_refl)
    as Hpoll.
  split_and!; [exact H1 | exact (proj1 Hpoll) | reflexivity].
Defined.

(** X7 at work: Drive is down. *)
Lemma moveFileById_failure_witness :
  moveFileById (Some scanFolder) (Some quarantineFolder) Date_parse_utc
    compareByCode driveDown noon "f1" quarantineFolder oneCleanFile
  = (move_error "backend error", oneCleanFile, [call_get_parents "f1"])
  ∧ (call_get "f1" ∉ [call_get_parents "f1"]).
Proof.
  assert (H : moveFileById (Some scanFolder) (Some quarantineFolder)
                Date_parse_utc compareByCode driveDown noon "f1"
                quarantineFolder oneCleanFile
              = (move_error "backend error", oneCleanFile,
                 [call_get_parents "f1"])) by reflexivity.
  split; [exact H |].
  exact (proj1 (proj2 (moveFileById_failure (Some scanFolder)
                         (Some quarantineFolder) Date_parse_utc compareByCode
                         driveDown noon "f1" quarantineFolder oneCleanFile
                         oneCleanFile "backend error" [call_get_parents "f1"]
                         H))).
Defined.

(** X8 at work: [f1] is moved back from the quarantine folder. *)
Lemma moveFileById_into_scan_folder_witness :
  let drive := driveKnowing [quarantineFolder] [scanFolder] fileA in
  let result :=
    moveFileById (Some scanFolder) (Some quarantineFolder) Date_parse_utc
      compareByCode drive noon "f1" scanFolder oneQuarantinedFile in
  fst (fst result) = move_done (Some [scanFolder])
  ∧ files_get drive "f1" = resolved fileA
  ∧ fileStore (snd (fst result)) = [tag scan fileA]
  ∧ scanStore (snd (fst result)) !! "f1"
    = Some {| status := clean; lastScannedAt := Some noon |}.
Proof.
  intros drive result.
  assert (Hmove : result = (move_done (Some [scanFolder]),
                            snd (fst result), snd result)) by reflexivity.
  assert (Hget : files_get drive "f1" = resolved fileA) by reflexivity.
  split_and!; [reflexivity | exact Hget | reflexivity |].
  exact (proj2 (proj2 (moveFileById_into_scan_folder (Some scanFolder)
                         (Some quarantineFolder) Date_parse_utc compareByCode
                         drive noon "f1" scanFolder oneQuarantinedFile
                         (snd (fst result)) (Some [scanFolder]) (snd result)
                         fileA eq_refl eq_refl Hget Hmove))).
Defined.

(** X9 at work: a client moves [f1] to the quarantine folder. *)
Lemma moveFileById_out_of_scan_folder_witness :
  let drive := driveKnowing [scanFolder] [quarantineFolder] fileA in
  let result :=
    moveFileById (Some scanFolder) (Some quarantineFolder) Date_parse_utc
      compareByCode drive noon "f1" quarantineFolder oneCleanFile in
  fst (fst result) = move_done (Some [quarantineFolder])
  ∧ fileStore oneCleanFile = [tag scan fileA]
  ∧ fileStore (snd (fst result)) = [].
Proof.
  intros drive result.
  assert (Hmove : result = (move_done (Some [quarantineFolder]),
                            snd (fst result), snd result)) by reflexivity.
  assert (Hne : Some scanFolder ≠ Some quarantineFolder) by discriminate.
  assert (Hleft : ∀ scanId, Some scanFolder = Some scanId →
                    scanId ∉ default [] (Some [quarantineFolder])).
  { intros scanId [= <-]. simpl. rewrite list_elem_of_singleton.
    discriminate. }
  split_and!; [reflexivity | reflexivity |].
  exact (proj1 (moveFileById_out_of_scan_folder (Some scanFolder)
                  (Some quarantineFolder) Date_parse_utc compareByCode drive
                  noon "f1" quarantineFolder oneCleanFile (snd (fst result))
                  (Some [quarantineFolder]) (snd result) Hne Hleft Hmove)).
Defined.

(** X10 at work: Drive is down when a client asks for a move. *)
Lemma on_move_file_failure_witness :
  let s' :=
    on_move_file (Some scanFolder) (Some quarantineFolder) Date_parse_utc
      compareByCode driveDown noon (Some "f1") (Some quarantineFolder)
      oneCleanFile in
  last (emitted s') = Some (move_failed (Some "f1") "backend error")
  ∧ s' = emit (move_failed (Some "f1") "backend error") oneCleanFile.
Proof.
  intros s'.
  assert (H : last (emitted s')
              = Some (move_failed (Some "f1") "backend error"))
    by reflexivity.
  split; [exact H |].
  exact (on_move_file_failure (Some scanFolder) (Some quarantineFolder)
           Date_parse_utc compareByCode driveDown noon (Some "f1")
           (Some quarantineFolder) oneCleanFile (Some "f1") "backend error" H).
Defined.

(** X11 at work: [f1] is listed, moved to quarantine by a client and moved
    back. *)
Lemma fileStore_ids_distinct_witness :
  let run :=
    [turn poll_tick (driveListing [fileA; fileB] []) jan2;
     turn (move_request (Some "f1") (Some quarantineFolder))
       (driveKnowing [scanFolder] [quarantineFolder] fileA) noon;
     turn (move_request (Some "f1") (Some scanFolder))
       (driveKnowing [quarantineFolder] [scanFolder] fileA) noon] in
  let s :=
    exec (Some scanFolder) (Some quarantineFolder) Date_parse_utc compareByCode
      toLowerCase_latin run (initial true) in
  Forall answersForFile run
  ∧ ids (fileStore s) = ["f2"; "f1"]
  ∧ NoDup (ids (fileStore s)).
Proof.
  intros run s.
  assert (Hrun : Forall answersForFile run).
  { repeat constructor; intros fileId fileMeta; simpl;
      try discriminate; case_bool_decide; try discriminate;
      intros [= <-]; done. }
  split_and!; [exact Hrun | reflexivity |].
  exact (fileStore_ids_distinct (Some scanFolder) (Some quarantineFolder)
           Date_parse_utc compareByCode toLowerCase_latin true run Hrun).
Defined.

(** X12 at work: [f1] is deleted in the middle of its scan. *)
Lemma on_delete_file_done_witness :
  let s' := on_delete_file driveDeleting noon (Some "f1") midScan in
  files_delete driveDeleting "f1" = resolved tt
  ∧ fileStore s' = []
  ∧ tasks s' = [scanningTimeout "f1"]
  ∧ scanStore s' !! "f1" = None.
Proof.
  intros s'.
  assert (H : files_delete driveDeleting "f1" = resolved tt) by reflexivity.
  split_and!; [exact H | reflexivity | reflexivity |].
  exact (proj1 (proj2 (proj1 (on_delete_file_done driveDeleting noon "f1"
                                midScan eq_refl eq_refl H)))).
Defined.

(** X14 at work: the poll has started the scan of [f1]. *)
Lemma no_stale_job_witness :
  let run := [turn poll_tick (driveListing [fileA] []) jan2] in
  let s :=
    exec (Some scanFolder) (Some quarantineFolder) Date_parse_utc compareByCode
      toLowerCase_latin run (initial true) in
  "f1" ∈ scanningJobs s ∧ 0 < inFlight "f1" s.
Proof.
  intros run s.
  assert (H : "f1" ∈ scanningJobs s).
  { refine (bool_decide_unpack ("f1" ∈ scanningJobs s) _).
    vm_compute. exact I. }
  split; [exact H |].
  exact (no_stale_job (Some scanFolder) (Some quarantineFolder) Date_parse_utc
           compareByCode toLowerCase_latin true run "f1" H).
Defined.

(** X15 at work: a client asks for a rescan of the clean file [f1]. *)
Lemma scan_sequence_runs_witness :
  let t1 := turn (rescan_request (Some "f1")) driveDown jan2 in
  let t2 := turn (task_due 0) driveDown jan2 in
  let t3 := turn (task_due 0) driveDown noon in
  let s3 :=
    exec (Some scanFolder) (Some quarantineFolder) Date_parse_utc compareByCode
      toLowerCase_latin [t1; t2; t3] oneCleanFile in
  ("f1" ∉ scanningJobs oneCleanFile)
  ∧ tasks s3 = []
  ∧ scanStore s3 !! "f1"
    = Some {| status := clean; lastScannedAt := Some noon |}.
Proof.
  intros t1 t2 t3 s3.
  assert (H : "f1" ∉ scanningJobs oneCleanFile) by apply not_elem_of_empty.
  split_and!; [exact H | reflexivity |].
  exact (proj1 (proj2 (proj2 (scan_sequence_runs (Some scanFolder)
                                (Some quarantineFolder) Date_parse_utc
                                compareByCode
                                  toLowerCase_latin oneCleanFile "f1" t1 t2 t3
                                eq_refl H eq_refl eq_refl eq_refl)))).
Defined.

(** X16 at work: the verdict on [f4] starts its move to quarantine. *)
Lemma verdict_starts_move_witness :
  let s' :=
    onPendingTimeout (Some scanFolder) (Some quarantineFolder)
      toLowerCase_latin noon "f4"
      oneFlaggedFile in
  findById "f4" (fileStore oneFlaggedFile) = Some (tag scan fileEicar)
  ∧ isEicarish toLowerCase_latin (name (tag scan fileEicar)) = true
  ∧ tasks s' = [awaitingMove "f4" quarantineFolder false]
  ∧ scanningJobs s' = scanningJobs oneFlaggedFile.
Proof.
  intros s'.
  assert (H : findById "f4" (fileStore oneFlaggedFile)
              = Some (tag scan fileEicar)) by reflexivity.
  split_and!; [exact H | reflexivity | reflexivity |].
  exact (proj2 (proj1 (verdict_starts_move (Some scanFolder)
                         (Some quarantineFolder)
                           toLowerCase_latin noon "f4" oneFlaggedFile
                         (tag scan fileEicar) H)
                  eq_refl eq_refl quarantineFolder eq_refl eq_refl)).
Defined.

(** X18 at work. *)
Lemma sheetRows_newest_first_witness :
  Forall (fun f => is_Some (sheetTime Date_parse_utc f)) threeFiles
  ∧ updateSheetFromFiles Date_parse_utc (Some "sheet-1") threeFiles
    = Some [sheetHeader;
            ["-"; "c.txt"; "12"; "PLAIN"; jan2; "pending"];
            ["-"; "eicar-sample.com"; "12"; "PLAIN"; jan2; "infected"];
            ["-"; "a.txt"; "12"; "PLAIN"; jan1; "pending"]]
  ∧ ∃ sorted,
      updateSheetFromFiles Date_parse_utc (Some "sheet-1") threeFiles
      = Some (sheetHeader :: map sheetRow sorted)
      ∧ sorted ≡ₚ threeFiles.
Proof.
  assert (H : Forall (fun f => is_Some (sheetTime Date_parse_utc f))
                threeFiles).
  { repeat constructor; vm_compute; eauto. }
  split_and!; [exact H | reflexivity |].
  destruct (sheetRows_newest_first Date_parse_utc (Some "sheet-1") threeFiles
              eq_refl H) as (sorted & Hrows & Hperm & _).
  exists sorted. split; [exact Hrows | exact Hperm].
Defined.

(** X19 at work. *)
Lemma sheetRows_filled_witness :
  truthy_opt (Some "sheet-1") = true
  ∧ ∃ rows,
      updateSheetFromFiles Date_parse_utc (Some "sheet-1") threeFiles
      = Some (sheetHeader :: rows)
      ∧ length rows = 3.
Proof.
  split; [reflexivity |].
  destruct (sheetRows_filled Date_parse_utc (Some "sheet-1") threeFiles
              eq_refl) as (rows & Hrows & Hlen & _).
  exists rows. split; [exact Hrows | exact Hlen].
Defined.
